(** * AZTEC proof-construction engine: private-range constructor and its
      collaborators, as a shallow embedding.

    The embedded source is [privateRange] (constructBlindingFactors,
    constructProof, encodePrivateRangeTransaction).  Its collaborators
    ([bn128], [Keccak], [proofUtils], the other proof constructors and the
    ABI coders) are not part of the available sources; they are modelled from
    the specification and every such definition says so in its comment.
    The helpers that the test of the join-split proof defines for itself,
    and what the test of the private-range validator assembles by hand, are
    embedded as well.

    Conventions.
    - A bn.js number is a [Z]; a number living in the reduction context
      [groupReduction] is a [Z] in [[0, n)], and [redAdd], [redSub], [redMul]
      write the wrap-around out.
    - A JavaScript number is a binary64 number of IEEE 754 ([spec_float]
      with 53 bits of precision), rounded after every operation.
    - JavaScript strings are [string]; byte buffers are [list byte].
    - [crypto.randomBytes] reads an explicit entropy tape that is threaded
      through every computation; exceptions are a result constructor. *)

From Stdlib Require Import ZArith List Bool Lia.
From Stdlib.Strings Require Import String Ascii Byte.
From Stdlib.Floats Require Import SpecFloat.
From Bignums Require Import BigZ.
Import ListNotations.
Open Scope Z_scope.

(* ===================================================================== *)
(** ** JavaScript strings and hexadecimal numerals                        *)
(* ===================================================================== *)

Module JS.

(** [s.slice(k)]: the string without its first [k] characters. *)
Fixpoint slice (k : nat) (s : string) : string :=
  match k, s with
  | O, _ => s
  | S k', String _ s' => slice k' s'
  | S _, EmptyString => EmptyString
  end.

(** [new Array(k + 1).join(c)]: [k] copies of the character [c]. *)
Fixpoint replicate (k : nat) (c : ascii) : string :=
  match k with
  | O => EmptyString
  | S k' => String c (replicate k' c)
  end.

Definition hexAlphabet : list ascii :=
  ["0"; "1"; "2"; "3"; "4"; "5"; "6"; "7"; "8"; "9";
   "a"; "b"; "c"; "d"; "e"; "f"]%char.

Definition hexChar (d : Z) : ascii := nth (Z.to_nat d) hexAlphabet "0"%char.

(** Value of one character read in base 16 (both letter cases, as bn.js
    parses them); any other character counts for nothing. *)
Definition digitVal (c : ascii) : Z :=
  let k := Z.of_N (N_of_ascii c) in
  if (48 <=? k) && (k <=? 57) then k - 48
  else if (97 <=? k) && (k <=? 102) then k - 87
  else if (65 <=? k) && (k <=? 70) then k - 55
  else 0.

Definition isLowerHexChar (c : ascii) : bool :=
  let k := Z.of_N (N_of_ascii c) in
  ((48 <=? k) && (k <=? 57)) || ((97 <=? k) && (k <=? 102)).

Fixpoint isHexString (s : string) : bool :=
  match s with
  | EmptyString => true
  | String c s' => isLowerHexChar c && isHexString s'
  end.

(** The digits of [v] in base 16, most significant first, pushed in front
    of [acc]. *)
Fixpoint hexDigits (fuel : nat) (v : Z) (acc : string) : string :=
  match fuel with
  | O => acc
  | S f =>
      let acc' := String (hexChar (v mod 16)) acc in
      if v <? 16 then acc' else hexDigits f (v / 16) acc'
  end.

(** [bn.toString(16)] for a non-negative number: lower-case digits, no
    leading zero, ["0"] for zero. *)
Definition toString16 (v : Z) : string :=
  hexDigits (S (Z.to_nat (Z.log2 v))) v EmptyString.

Fixpoint parseHex (s : string) (acc : Z) : Z :=
  match s with
  | EmptyString => acc
  | String c s' => parseHex s' (acc * 16 + digitVal c)
  end.

(** [new BN(s, 16)]. *)
Definition fromString16 (s : string) : Z := parseHex s 0.

(** The test [/^0x/i] of web3-utils. *)
Definition hasHexPrefix (s : string) : bool :=
  match s with
  | String "0" (String c _) => (Ascii.eqb c "x" || Ascii.eqb c "X")%char
  | _ => false
  end.

(** [padLeft(string, chars)] of web3-utils: strips an ["0x"] prefix, pads
    with zeros on the left up to [chars] characters (never truncates) and
    puts the prefix back. *)
Definition padLeft (s : string) (chars : nat) : string :=
  let hasPrefix := hasHexPrefix s in
  let body := if hasPrefix then slice 2 s else s in
  ((if hasPrefix then "0x" else "")
     ++ replicate (chars - String.length body) "0" ++ body)%string.

(** [new BN(buffer)]: the buffer read as a big-endian number. *)
Definition fromBytes (bs : list byte) : Z :=
  fold_left (fun acc b => acc * 256 + Z.of_N (Byte.to_N b)) bs 0.

Definition byteOfZ (v : Z) : byte :=
  match Byte.of_N (Z.to_N (v mod 256)) with
  | Some b => b
  | None => x00
  end.

(** [bn.byteLength()]: the number of bytes a non-negative number needs. *)
Definition byteLength (v : Z) : nat :=
  if v <=? 0 then O else S (Z.to_nat (Z.log2 v / 8)).

(** The [len] low-order bytes of [v], most significant first. *)
Fixpoint toBytesBE (len : nat) (v : Z) : list byte :=
  match len with
  | O => []
  | S l => toBytesBE l (v / 256) ++ [byteOfZ v]
  end.

End JS.

(* ===================================================================== *)
(** ** Keccak-256                                                         *)
(* ===================================================================== *)

(** Keccak-f[1600] over 25 lanes of 64 bits, lane [(x, y)] at index
    [x + 5 y], and the sponge with rate 136 bytes and the original Keccak
    padding, as used by Ethereum. *)
Module Keccak256.

Definition mask64 : Z := 0xFFFFFFFFFFFFFFFF.

Definition rotl64 (v : Z) (r : Z) : Z :=
  Z.land (Z.lor (Z.shiftl v r) (Z.shiftr v (64 - r))) mask64.

Definition lane (st : list Z) (i : nat) : Z := nth i st 0.

Definition roundConstants : list Z :=
  [0x0000000000000001; 0x0000000000008082; 0x800000000000808A;
   0x8000000080008000; 0x000000000000808B; 0x0000000080000001;
   0x8000000080008081; 0x8000000000008009; 0x000000000000008A;
   0x0000000000000088; 0x0000000080008009; 0x000000008000000A;
   0x000000008000808B; 0x800000000000008B; 0x8000000000008089;
   0x8000000000008003; 0x8000000000008002; 0x8000000000000080;
   0x000000000000800A; 0x800000008000000A; 0x8000000080008081;
   0x8000000000008080; 0x0000000080000001; 0x8000000080008008].

Definition rotationOffsets : list Z :=
  [ 0;  1; 62; 28; 27;
   36; 44;  6; 55; 20;
    3; 10; 43; 25; 39;
   41; 45; 15; 21;  8;
   18;  2; 61; 56; 14].

Definition indices : list nat := seq 0 25.

Definition theta (st : list Z) : list Z :=
  let c := map (fun x =>
                  Z.lxor (lane st x)
                    (Z.lxor (lane st (x + 5))
                       (Z.lxor (lane st (x + 10))
                          (Z.lxor (lane st (x + 15)) (lane st (x + 20))))))
               (seq 0 5) in
  let d := map (fun x =>
                  Z.lxor (nth ((x + 4) mod 5) c 0)
                         (rotl64 (nth ((x + 1) mod 5) c 0) 1))
               (seq 0 5) in
  map (fun i => Z.lxor (lane st i) (nth (i mod 5) d 0)) indices.

(** rho and pi together: lane [(X, Y)] of the result is lane
    [((X + 3 Y) mod 5, X)] of the argument, rotated by that lane's offset. *)
Definition rhoPi (st : list Z) : list Z :=
  map (fun i =>
         let X := (i mod 5)%nat in
         let Y := (i / 5)%nat in
         let src := (((X + 3 * Y) mod 5) + 5 * X)%nat in
         rotl64 (lane st src) (nth src rotationOffsets 0))
      indices.

Definition chi (st : list Z) : list Z :=
  map (fun i =>
         let x := (i mod 5)%nat in
         let row := (5 * (i / 5))%nat in
         Z.lxor (lane st i)
                (Z.land (Z.lxor (lane st (row + (x + 1) mod 5)) mask64)
                        (lane st (row + (x + 2) mod 5))))
      indices.

Definition iota (rc : Z) (st : list Z) : list Z :=
  match st with
  | [] => []
  | l0 :: rest => Z.lxor l0 rc :: rest
  end.

Definition round (st : list Z) (rc : Z) : list Z :=
  iota rc (chi (rhoPi (theta st))).

Definition keccakF (st : list Z) : list Z := fold_left round roundConstants st.

(** Little-endian reading of at most eight bytes as one lane. *)
Fixpoint laneOfBytes (bs : list byte) : Z :=
  match bs with
  | [] => 0
  | b :: bs' => Z.of_N (Byte.to_N b) + 256 * laneOfBytes bs'
  end.

Fixpoint bytesOfLane (len : nat) (v : Z) : list byte :=
  match len with
  | O => []
  | S l => JS.byteOfZ v :: bytesOfLane l (v / 256)
  end.

(** Cuts [l] into consecutive pieces of [k] elements. *)
Fixpoint chunks {A : Type} (fuel k : nat) (l : list A) : list (list A) :=
  match fuel, l with
  | O, _ => []
  | _, [] => []
  | S f, _ => firstn k l :: chunks f k (skipn k l)
  end.

Definition rateBytes : nat := 136.

(** pad10*1 with the Keccak domain byte 0x01. *)
Definition pad (msg : list byte) : list byte :=
  let q := (rateBytes - (List.length msg mod rateBytes))%nat in
  if (q =? 1)%nat then msg ++ [x81]
  else msg ++ [x01] ++ repeat x00 (q - 2) ++ [x80].

Definition absorbBlock (st : list Z) (block : list byte) : list Z :=
  let lanes := map laneOfBytes (chunks 17 8 block) in
  map (fun i => Z.lxor (lane st i) (nth i lanes 0)) indices.

Definition digest (msg : list byte) : list byte :=
  let padded := pad msg in
  let blocks := chunks (List.length padded) rateBytes padded in
  let st := fold_left (fun s b => keccakF (absorbBlock s b)) blocks (repeat 0 25) in
  flat_map (fun i => bytesOfLane 8 (lane st i)) (seq 0 4).

End Keccak256.

(* ===================================================================== *)
(** ** Errors, entropy and the computation monad                          *)
(* ===================================================================== *)

(** The stable error strings of [constants.errorTypes] (spec, section 6). *)
Inductive errorTypes : Type :=
| KPUBLIC_MALFORMED
| M_TOO_BIG
| NOT_ON_CURVE
| POINT_AT_INFINITY
| VIEWING_KEY_MALFORMED
| NOTE_VALUE_TOO_BIG
| BAD_BLINDING_FACTOR
| INCORRECT_NOTE_NUMBER
| CHALLENGE_RESPONSE_FAIL
| ENCODING_INVALID_LENGTH
| SCALAR_TOO_BIG.

(** What a [throw] carries: a named error, or the generic [TypeError] that
    the JavaScript runtime raises when a property of [null] or [undefined]
    is read. *)
Inductive exn : Type :=
| Named (e : errorTypes)
| TypeError.

(** The entropy tape behind [crypto.randomBytes]: the blocks that successive
    calls will return. *)
Definition Entropy : Type := list (list byte).

(** A call returns a value and the unread tape, throws, or (an artefact of
    the finite tape) asks for more entropy than the tape holds. *)
Inductive completion (A : Type) : Type :=
| Returns (a : A) (rest : Entropy)
| Throws (e : exn)
| Starved.
Arguments Returns {A} a rest.
Arguments Throws {A} e.
Arguments Starved {A}.

Definition M (A : Type) : Type := Entropy -> completion A.

Definition ret {A : Type} (a : A) : M A := fun t => Returns a t.

Definition bind {A B : Type} (m : M A) (f : A -> M B) : M B :=
  fun t =>
    match m t with
    | Returns a t' => f a t'
    | Throws e => Throws e
    | Starved => Starved
    end.

Definition throw {A : Type} (e : exn) : M A := fun _ => Throws e.

Notation "x <- m ;; k" := (bind m (fun x => k))
  (at level 61, m at next level, right associativity).
Notation "' pat <- m ;; k" := (bind m (fun x => match x with pat => k end))
  (at level 61, pat pattern, m at next level, right associativity).

(** [crypto.randomBytes(size)]. *)
Definition randomBytes (size : nat) : M (list byte) :=
  fun t =>
    match t with
    | [] => Starved
    | block :: rest => Returns (firstn size block) rest
    end.

(** Reading [l[i]], where reading past the end yields [undefined] and the
    use of that value raises. *)
Definition at_index {A : Type} (l : list A) (i : nat) : M A :=
  match nth_error l i with
  | Some v => ret v
  | None => throw TypeError
  end.

(** [l.map((v, i) => f(i, v))] for a callback that also updates the variables
    it closes over (the state [s]); elements are visited from left to right. *)
Fixpoint mapWithClosure {A B St : Type} (f : nat -> A -> St -> M (B * St))
    (i : nat) (l : list A) (s : St) : M (list B * St) :=
  match l with
  | [] => ret ([], s)
  | v :: l' =>
      '(b, s1) <- f i v s ;;
      '(bs, s2) <- mapWithClosure f (S i) l' s1 ;;
      ret (b :: bs, s2)
  end.

(** [l.map((v, i) => f(i, v))] for a callback without captured state. *)
Fixpoint mapWithIndex {A B : Type} (f : nat -> A -> M B) (i : nat) (l : list A)
    : M (list B) :=
  match l with
  | [] => ret []
  | v :: l' =>
      b <- f i v ;;
      bs <- mapWithIndex f (S i) l' ;;
      ret (b :: bs)
  end.

(** [l.forEach(v => f(v))], folding the object the callback mutates. *)
Fixpoint forEach {A St : Type} (f : A -> St -> M St) (l : list A) (s : St) : M St :=
  match l with
  | [] => ret s
  | v :: l' => s1 <- f v s ;; forEach f l' s1
  end.

(* ===================================================================== *)
(** ** bn128                                                              *)
(* ===================================================================== *)

(** Modelled from the spec: the module [bn128] (section 4.A), which is not
    among the sources: the curve y^2 = x^3 + 3 over the prime field of order
    [p], its group of prime order [n], the reduction context
    [groupReduction], the generator [h] and [randomGroupScalar].  Coordinates
    are computed on machine-word big numbers and handed out as [Z]. *)
Module bn128.

(** [bn128.curve.p] and [bn128.curve.n]. *)
Definition p : Z :=
  21888242871839275222246405745257275088696311157297823662689037894645226208583.
Definition n : Z :=
  21888242871839275222246405745257275088548364400416034343698204186575808495617.

(** Arithmetic in the reduction context [groupReduction] (modulo [n]). *)
Definition toRed (v : Z) : Z := v mod n.
Definition redAdd (u v : Z) : Z := (u + v) mod n.
Definition redSub (u v : Z) : Z := (u - v) mod n.
Definition redMul (u v : Z) : Z := (u * v) mod n.

(** [toRed] into the reduction context [bn128.curve.red] (modulo [p]). *)
Definition toRedP (v : Z) : Z := v mod p.

(** A curve point as the library [elliptic] holds it: the point at
    infinity, or affine coordinates in the base field. *)
Inductive Point : Type :=
| Infinity
| Affine (x y : Z).

Definition isInfinity (P : Point) : bool :=
  match P with Infinity => true | Affine _ _ => false end.

(** Base-field arithmetic. *)
Definition pBig : bigZ := Eval vm_compute in BigZ.of_Z p.
Definition fadd (u v : bigZ) : bigZ := BigZ.modulo (BigZ.add u v) pBig.
Definition fsub (u v : bigZ) : bigZ := BigZ.modulo (BigZ.sub u v) pBig.
Definition fmul (u v : bigZ) : bigZ := BigZ.modulo (BigZ.mul u v) pBig.
Definition fzero (u : bigZ) : bool := BigZ.eqb u BigZ.zero.

Fixpoint fpow (b : bigZ) (e : positive) : bigZ :=
  match e with
  | xH => b
  | xO e' => let r := fpow b e' in fmul r r
  | xI e' => let r := fpow b e' in fmul (fmul r r) b
  end.

(** Inverse by Fermat's little theorem: u^(p - 2). *)
Definition finv (u : bigZ) : bigZ :=
  match (p - 2)%Z with
  | Zpos e => fpow u e
  | _ => BigZ.zero
  end.

Definition affine (x y : bigZ) : Point := Affine (BigZ.to_Z x) (BigZ.to_Z y).

(** [P.dbl()]: the tangent rule, with slope 3 x^2 / (2 y) since a = 0. *)
Definition dbl (P : Point) : Point :=
  match P with
  | Infinity => Infinity
  | Affine x0 y0 =>
      let x := BigZ.of_Z x0 in
      let y := BigZ.of_Z y0 in
      let ys1 := fadd y y in
      if fzero ys1 then Infinity
      else
        let x2 := fmul x x in
        let c := fmul (fadd (fadd x2 x2) x2) (finv ys1) in
        let nx := fsub (fsub (fmul c c) x) x in
        let ny := fsub (fmul c (fsub x nx)) y in
        affine nx ny
  end.

(** [P.add(Q)]: the chord rule, doubling when the points coincide and the
    point at infinity when they are opposite. *)
Definition add (P Q : Point) : Point :=
  match P, Q with
  | Infinity, _ => Q
  | _, Infinity => P
  | Affine x1 y1, Affine x2 y2 =>
      if (x1 =? x2) && (y1 =? y2) then dbl P
      else if x1 =? x2 then Infinity
      else
        let bx1 := BigZ.of_Z x1 in
        let by1 := BigZ.of_Z y1 in
        let c := fmul (fsub by1 (BigZ.of_Z y2))
                      (finv (fsub bx1 (BigZ.of_Z x2))) in
        let nx := fsub (fsub (fmul c c) bx1) (BigZ.of_Z x2) in
        let ny := fsub (fmul c (fsub bx1 nx)) by1 in
        affine nx ny
  end.

(** Jacobian coordinates (X, Y, Z) stand for (X / Z^2, Y / Z^3); Z = 0 is
    the point at infinity. *)
Definition JPoint : Type := (bigZ * bigZ * bigZ)%type.

Definition jdbl (P : JPoint) : JPoint :=
  let '(X, Y, Zc) := P in
  if fzero Zc then P
  else
    let A := fmul X X in
    let B := fmul Y Y in
    let C := fmul B B in
    let t := fadd X B in
    let D0 := fsub (fsub (fmul t t) A) C in
    let D := fadd D0 D0 in
    let E := fadd A (fadd A A) in
    let X3 := fsub (fmul E E) (fadd D D) in
    let C2 := fadd C C in
    let C4 := fadd C2 C2 in
    let Y3 := fsub (fmul E (fsub D X3)) (fadd C4 C4) in
    let YZ := fmul Y Zc in
    (X3, Y3, fadd YZ YZ).

(** Adds the affine point (x2, y2) to a Jacobian point. *)
Definition jmixedAdd (P : JPoint) (x2 y2 : bigZ) : JPoint :=
  let '(X1, Y1, Z1) := P in
  if fzero Z1 then (x2, y2, BigZ.one)
  else
    let Z1Z1 := fmul Z1 Z1 in
    let U2 := fmul x2 Z1Z1 in
    let S2 := fmul y2 (fmul Z1 Z1Z1) in
    let H := fsub U2 X1 in
    let R := fsub S2 Y1 in
    if fzero H then (if fzero R then jdbl P else (BigZ.one, BigZ.one, BigZ.zero))
    else
      let HH := fmul H H in
      let HHH := fmul H HH in
      let V := fmul X1 HH in
      let X3 := fsub (fsub (fmul R R) HHH) (fadd V V) in
      let Y3 := fsub (fmul R (fsub V X3)) (fmul Y1 HHH) in
      (X3, Y3, fmul Z1 H).

Fixpoint jmul (x y : bigZ) (k : positive) : JPoint :=
  match k with
  | xH => (x, y, BigZ.one)
  | xO k' => jdbl (jmul x y k')
  | xI k' => jmixedAdd (jdbl (jmul x y k')) x y
  end.

Definition toAffine (P : JPoint) : Point :=
  let '(X, Y, Zc) := P in
  if fzero Zc then Infinity
  else
    let zi := finv Zc in
    let zi2 := fmul zi zi in
    affine (fmul X zi2) (fmul Y (fmul zi2 zi)).

(** [P.mul(k)]: the multiple of [P] by the scalar [k], by double-and-add. *)
Definition mul (P : Point) (k : Z) : Point :=
  match P, k with
  | Affine x y, Zpos k' => toAffine (jmul (BigZ.of_Z x) (BigZ.of_Z y) k')
  | _, _ => Infinity
  end.

(** [P.eq(Q)]. *)
Definition eq (P Q : Point) : bool :=
  match P, Q with
  | Infinity, Infinity => true
  | Affine x1 y1, Affine x2 y2 => (x1 =? x2) && (y1 =? y2)
  | _, _ => false
  end.

(** [P.neg()]. *)
Definition neg (P : Point) : Point :=
  match P with
  | Infinity => Infinity
  | Affine x y => Affine x ((p - y) mod p)
  end.

(** Modelled from the spec: point validation (sections 3 and 4.A):
    coordinates in the base field, not (0, 0), and y^2 = x^3 + 3
    modulo [p]. *)
Definition validateOnCurve (P : Point) : bool :=
  match P with
  | Infinity => false
  | Affine x y =>
      (0 <=? x) && (x <? p) && (0 <=? y) && (y <? p)
      && negb ((x =? 0) && (y =? 0))
      && ((y * y) mod p =? (x * x * x + 3) mod p)
  end.

(** The generator of the group, and the second generator [h] of the common
    reference string. *)
Definition g : Point := Affine 1 2.
Definition h : Point :=
  Affine
    7673901602397024137095011250362199966051872585513276903826533215767972925880
    8489654445897228341090914135473290831551238522473825886865492707826370766375.

(** Modelled from the spec: [bn128.randomGroupScalar()] (section 4.A):
    blocks of 32 random bytes are drawn until one reads as a number in
    (0, n). *)
Fixpoint randomGroupScalar (t : Entropy) : completion Z :=
  match t with
  | [] => Starved
  | block :: rest =>
      let v := JS.fromBytes (firstn 32 block) in
      if (0 <? v) && (v <? n) then Returns v rest
      else randomGroupScalar rest
  end.

End bn128.

(* ===================================================================== *)
(** ** Notes, blinding factors and the Keccak transcript                  *)
(* ===================================================================== *)

(** An AZTEC note as the proof constructors read it: the value [k] and the
    viewing key [a] (numbers of [groupReduction]), the points [gamma] and
    [sigma], and the owner's address. *)
Module Note.
Record t : Type := make {
  k : Z;
  a : Z;
  gamma : bn128.Point;
  sigma : bn128.Point;
  owner : string
}.
End Note.

(** The object [{ bk, ba, B }] built for each note.  [B] is a variable of the
    enclosing function, hence possibly still [undefined] ([None]). *)
Module BlindingFactor.
Record t : Type := make {
  bk : Z;
  ba : Z;
  B : option bn128.Point
}.
End BlindingFactor.

(** [point.x.fromRed()] and [point.y.fromRed()]; the point at infinity has
    [null] coordinates. *)
Definition coordX (P : bn128.Point) : M Z :=
  match P with
  | bn128.Affine x _ => ret x
  | bn128.Infinity => throw TypeError
  end.

Definition coordY (P : bn128.Point) : M Z :=
  match P with
  | bn128.Affine _ y => ret y
  | bn128.Infinity => throw TypeError
  end.

(** Modelled from the spec: the class [Keccak] (section 4.B), which is not
    among the sources: an append-only buffer of 32-byte big-endian chunks;
    [keccak] finalizes it with Keccak-256, returns the digest reduced into the
    requested context and leaves the digest as the buffer's only contents. *)
Module Keccak.

Definition t : Type := list byte.

(** [new Keccak()]. *)
Definition new : t := [].

(** [appendBN(scalar)]: the bytes of the number, padded on the left to 32
    bytes (never truncated). *)
Definition appendBN (hash : t) (v : Z) : t :=
  hash ++ JS.toBytesBE (Nat.max 32 (JS.byteLength v)) v.

(** [append(point)]: the chunk of x, then the chunk of y. *)
Definition append (hash : t) (P : bn128.Point) : M t :=
  x <- coordX P ;;
  y <- coordY P ;;
  ret (appendBN (appendBN hash x) y).

(** Modelled from the spec: [Keccak.keccak(context)] (section 4.B): the
    digest of the buffer reduced into the context, and the buffer re-seeded
    with the digest. *)
Definition keccak (hash : t) (modulus : Z) : Z * t :=
  let d := Keccak256.digest hash in
  (JS.fromBytes d mod modulus, d).

End Keccak.

(** A value that is a bn.js number on one path and a string on another;
    [toString(16)] formats the former and returns the latter unchanged. *)
Inductive numberOrString : Type :=
| IsBN (v : Z)
| IsString (s : string).

Definition toString16 (v : numberOrString) : string :=
  match v with
  | IsBN z => JS.toString16 z
  | IsString s => s
  end.

(** [`0x${padLeft(hex, 64)}`]. *)
Definition hex64 (hex : string) : string := ("0x" ++ JS.padLeft hex 64)%string.

(** The loop [notes.forEach((note) => { hash.append(note.gamma);
    hash.append(note.sigma); })] that seeds a transcript with the notes. *)
Definition appendNotes (notes : list Note.t) (hash : Keccak.t) : M Keccak.t :=
  forEach (fun note hash =>
             hash <- Keccak.append hash (Note.gamma note) ;;
             Keccak.append hash (Note.sigma note))
          notes hash.

(* ===================================================================== *)
(** ** proofUtils                                                         *)
(* ===================================================================== *)

(** Modelled from the spec: the module [proofUtils] (section 4.E), which is
    not among the sources: [parseInputs] and [computeChallenge]. *)
Module proofUtils.

(** [constants.K_MAX] (spec, section 3). *)
Definition K_MAX : Z := 2 ^ 32 - 1.

(** Modelled from the spec: the checks [parseInputs] makes on one note
    (sections 3 and 4.E), in the order viewing key, value, identity, curve
    equation. *)
Definition parseNote (note : Note.t) : M unit :=
  if negb ((0 <? Note.a note) && (Note.a note <? bn128.n))
  then throw (Named VIEWING_KEY_MALFORMED)
  else if negb ((0 <=? Note.k note) && (Note.k note <=? K_MAX))
  then throw (Named NOTE_VALUE_TOO_BIG)
  else if bn128.isInfinity (Note.gamma note) || bn128.isInfinity (Note.sigma note)
  then throw (Named POINT_AT_INFINITY)
  else if negb (bn128.validateOnCurve (Note.gamma note)
                && bn128.validateOnCurve (Note.sigma note))
  then throw (Named NOT_ON_CURVE)
  else ret tt.

(** Modelled from the spec: [proofUtils.parseInputs(notes, sender, m,
    kPublic)] (section 4.E); [m] and [kPublic] are passed only by the
    proofs that use them.  The notes are checked first, then [kPublic],
    then [m], as the failure tests of the join-split proof expect.  Senders
    are 20-byte addresses; the specification names no error kind for any
    other sender. *)
Definition parseInputs (notes : list Note.t) (sender : string)
    (m : option Z) (kPublic : option Z) : M unit :=
  _ <- forEach (fun note _ => parseNote note) notes tt ;;
  _ <- match kPublic with
       | Some kp =>
           if (0 <=? kp) && (kp <? bn128.n) then ret tt
           else throw (Named KPUBLIC_MALFORMED)
       | None => ret tt
       end ;;
  match m with
  | Some mv =>
      if (0 <=? mv) && (mv <=? Z.of_nat (List.length notes)) then ret tt
      else throw (Named M_TOO_BIG)
  | None => ret tt
  end.

(** The arguments [computeChallenge] knows how to hash. *)
Inductive challengeVar : Type :=
| CAddress (hex : string)
| CNumber (v : Z)
| CNotes (notes : list Note.t)
| CFactors (blindingFactors : list BlindingFactor.t).

(** Modelled from the spec: how [computeChallenge] appends one argument
    (section 4.E): an address or a number as one chunk, a note as gamma then
    sigma, a blinding factor as its point [B]. *)
Definition absorb (v : challengeVar) (hash : Keccak.t) : M Keccak.t :=
  match v with
  | CAddress hex => ret (Keccak.appendBN hash (JS.fromString16 (JS.slice 2 hex)))
  | CNumber k => ret (Keccak.appendBN hash k)
  | CNotes notes => appendNotes notes hash
  | CFactors blindingFactors =>
      forEach (fun bf hash =>
                 match BlindingFactor.B bf with
                 | Some B => Keccak.append hash B
                 | None => throw TypeError
                 end)
              blindingFactors hash
  end.

(** Modelled from the spec: [proofUtils.computeChallenge(...)] (section
    4.E): every argument is appended, in order, to a fresh transcript, which
    is finalized to a scalar modulo [n]. *)
Definition computeChallenge (vars : list challengeVar) : M Z :=
  hash <- forEach absorb vars Keccak.new ;;
  ret (fst (Keccak.keccak hash bn128.n)).

(** Modelled from the spec: the blinding schema of the bilateral swap
    (sections 4.F and 8), as the callback run on every note: the third and
    fourth notes reuse the blinding scalars of the first and second, and
    every [B] is appended to [finalHash]. *)
Definition swapFactor (i : nat) (note : Note.t) (c : list Z * Keccak.t)
    : M (BlindingFactor.t * (list Z * Keccak.t)) :=
  let '(bkArray, finalHash) := c in
  bk <- bn128.randomGroupScalar ;;
  ba <- bn128.randomGroupScalar ;;
  bk <- (if (i <=? 1)%nat then ret bk else at_index bkArray (i - 2)) ;;
  let B := bn128.add (bn128.mul (Note.gamma note) bk) (bn128.mul bn128.h ba) in
  finalHash <- Keccak.append finalHash B ;;
  ret (BlindingFactor.make bk ba (Some B), (bkArray ++ [bk], finalHash)).

(** Modelled from the spec:
    [proofUtils.getBlindingFactorsAndChallenge(noteArray, finalHash)], which
    is not among the sources: the blinding factors of the swap, and the
    challenge into which [finalHash] is finalized. *)
Definition getBlindingFactorsAndChallenge (noteArray : list Note.t)
    (finalHash : Keccak.t) : M (list BlindingFactor.t * Z) :=
  '(blindingFactors, (_, finalHash)) <-
    mapWithClosure swapFactor 0 noteArray ([], finalHash) ;;
  ret (blindingFactors, fst (Keccak.keccak finalHash bn128.n)).

(** Modelled from the spec: the record
    [[kBar, aBar, gamma.x, gamma.y, sigma.x, sigma.y]] of one note, each slot
    written as 0x and 64 hexadecimal digits (section 3). *)
Definition noteRecord (note : Note.t) (kBar aBar : Z) : M (list string) :=
  gx <- coordX (Note.gamma note) ;;
  gy <- coordY (Note.gamma note) ;;
  sx <- coordX (Note.sigma note) ;;
  sy <- coordY (Note.sigma note) ;;
  ret [hex64 (JS.toString16 kBar);
       hex64 (JS.toString16 aBar);
       hex64 (JS.toString16 gx);
       hex64 (JS.toString16 gy);
       hex64 (JS.toString16 sx);
       hex64 (JS.toString16 sy)].

(** Modelled from the spec: the responses of one note (section 4.F,
    step 4): kBar = k c + bk and aBar = a c + ba, modulo [n]. *)
Definition kBarResponse (note : Note.t) (challenge : Z) (bf : BlindingFactor.t) : Z :=
  bn128.redAdd (bn128.redMul (Note.k note) challenge) (BlindingFactor.bk bf).
Definition aBarResponse (note : Note.t) (challenge : Z) (bf : BlindingFactor.t) : Z :=
  bn128.redAdd (bn128.redMul (Note.a note) challenge) (BlindingFactor.ba bf).

(** Modelled from the spec: the callback
    [(blindingFactor, i) => [kBar, aBar, ...]] of the shared skeleton
    (section 4.F), reading [notes[i]]. *)
Definition responseRecord (notes : list Note.t) (challenge : Z)
    (i : nat) (blindingFactor : BlindingFactor.t) : M (list string) :=
  note <- at_index notes i ;;
  noteRecord note (kBarResponse note challenge blindingFactor)
                  (aBarResponse note challenge blindingFactor).

End proofUtils.

(** What a proof constructor returns. *)
Module Proof.
Record t : Type := make {
  proofData : list (list string);
  challenge : string
}.
End Proof.

(* ===================================================================== *)
(** ** privateRange                                                       *)
(* ===================================================================== *)

Module privateRange.

(** The variables that the callback of [constructBlindingFactors] closes
    over and assigns: [bkArray], [B], [x], and the transcript
    [rollingHash] it mutates. *)
Record closure : Type := mkClosure {
  bkArray : list Z;
  B : option bn128.Point;
  x : Z;
  rollingHash : Keccak.t
}.

(** The callback [(note, i) => { ... }] of [constructBlindingFactors], from
    the closure before the call to the record and the closure after it. *)
Definition blindingFactor (i : nat) (note : Note.t) (c : closure)
    : M (BlindingFactor.t * closure) :=
  ba <- bn128.randomGroupScalar ;;
  bk <- bn128.randomGroupScalar ;;
  '(bk, c) <-
    (if (i =? 0)%nat then
       let B := bn128.add (bn128.mul (Note.gamma note) bk)
                          (bn128.mul bn128.h ba) in
       ret (bk, mkClosure (bkArray c) (Some B) (x c) (rollingHash c))
     else if (i =? 1)%nat then
       let '(x, rollingHash) := Keccak.keccak (rollingHash c) bn128.n in
       let xbk := bn128.redMul bk x in
       let xba := bn128.redMul ba x in
       let B := bn128.add (bn128.mul (Note.gamma note) xbk)
                          (bn128.mul bn128.h xba) in
       ret (bk, mkClosure (bkArray c) (Some B) x rollingHash)
     else if (i =? 2)%nat then
       bk0 <- at_index (bkArray c) (i - 2) ;;
       bk1 <- at_index (bkArray c) (i - 1) ;;
       let bk := bn128.redSub bk0 bk1 in
       let '(x, rollingHash) := Keccak.keccak (rollingHash c) bn128.n in
       let xbk := bn128.redMul bk x in
       let xba := bn128.redMul ba x in
       let B := bn128.add (bn128.mul (Note.gamma note) xbk)
                          (bn128.mul bn128.h xba) in
       ret (bk, mkClosure (bkArray c) (Some B) x rollingHash)
     else ret (bk, c)) ;;
  ret (BlindingFactor.make bk ba (B c),
       mkClosure (bkArray c ++ [bk]) (B c) (x c) (rollingHash c)).

(** [constructBlindingFactors(notes, rollingHash)]: the blinding factors,
    and the state in which the caller's [rollingHash] is left. *)
Definition constructBlindingFactors (notes : list Note.t) (rollingHash : Keccak.t)
    : M (list BlindingFactor.t * Keccak.t) :=
  '(factors, c) <-
    mapWithClosure blindingFactor 0 notes (mkClosure [] None 0 rollingHash) ;;
  ret (factors, privateRange.rollingHash c).

(** The callback [(blindingFactor, i) => { ... }] of [constructProof]: the
    record of note [i]. *)
Definition proofRecord (notes : list Note.t) (challenge : Z)
    (i : nat) (blindingFactor : BlindingFactor.t) : M (list string) :=
  kBar <-
    (if (i <=? 1)%nat then
       note <- at_index notes i ;;
       ret (IsBN (bn128.redAdd (bn128.redMul (Note.k note) challenge)
                               (BlindingFactor.bk blindingFactor)))
     else
       bytes <- randomBytes 32 ;;
       ret (IsString (JS.padLeft
                        (JS.toString16 (JS.fromBytes bytes mod bn128.n)) 64))) ;;
  note <- at_index notes i ;;
  let aBar := bn128.redAdd (bn128.redMul (Note.a note) challenge)
                           (BlindingFactor.ba blindingFactor) in
  gx <- coordX (Note.gamma note) ;;
  gy <- coordY (Note.gamma note) ;;
  sx <- coordX (Note.sigma note) ;;
  sy <- coordY (Note.sigma note) ;;
  ret [hex64 (toString16 kBar);
       hex64 (JS.toString16 aBar);
       hex64 (JS.toString16 gx);
       hex64 (JS.toString16 gy);
       hex64 (JS.toString16 sx);
       hex64 (JS.toString16 sy)].

(** [constructProof(notes, sender)]. *)
Definition constructProof (notes : list Note.t) (sender : string) : M Proof.t :=
  let rollingHash := Keccak.new in
  _ <- proofUtils.parseInputs notes sender None None ;;
  rollingHash <- appendNotes notes rollingHash ;;
  '(blindingFactors, _) <- constructBlindingFactors notes rollingHash ;;
  challenge <-
    proofUtils.computeChallenge
      [proofUtils.CAddress sender; proofUtils.CNotes notes;
       proofUtils.CFactors blindingFactors] ;;
  proofData <- mapWithIndex (proofRecord notes challenge) 0 blindingFactors ;;
  ret (Proof.make proofData (hex64 (JS.toString16 challenge))).

(** [devUtils.constants.addresses.ZERO_ADDRESS]. *)
Definition ZERO_ADDRESS : string := "0x0000000000000000000000000000000000000000".

(** The object handed to [outputCoder.encodeProofOutputs]. *)
Record ProofOutput : Type := mkProofOutput {
  inputNotes : list Note.t;
  outputNotes : list Note.t;
  publicOwner : string;
  publicValue : Z;
  challenge : string
}.

(** What [encodePrivateRangeTransaction] returns. *)
Record Transaction : Type := mkTransaction {
  proofData : string;
  expectedOutput : string
}.

Section Coders.

(** The ABI coders [inputCoder.privateRange] and
    [outputCoder.encodeProofOutputs] are not among the sources; the
    encoder of a transaction is parametric in them. *)
Variable inputCoder_privateRange :
  list (list string) -> string -> list string -> list string ->
  list Note.t -> M string.
Variable outputCoder_encodeProofOutputs : list ProofOutput -> M string.

(** [encodePrivateRangeTransaction({ originalNote, comparisonNote,
    utilityNote, senderAddress })]; the three note arguments are spread,
    hence arrays of notes. *)
Definition encodePrivateRangeTransaction
    (originalNote comparisonNote utilityNote : list Note.t)
    (senderAddress : string) : M Transaction :=
  let inputNotes := originalNote ++ comparisonNote in
  let outputNotes := utilityNote in
  let inputOwners := map Note.owner inputNotes in
  let outputOwners := map Note.owner outputNotes in
  proof <- constructProof (inputNotes ++ outputNotes) senderAddress ;;
  let proofDataRaw := Proof.proofData proof in
  let challenge := Proof.challenge proof in
  proofData <- inputCoder_privateRange proofDataRaw challenge
                 inputOwners outputOwners outputNotes ;;
  let publicOwner := ZERO_ADDRESS in
  let publicValue := 0 in
  encoded <- outputCoder_encodeProofOutputs
               [mkProofOutput inputNotes outputNotes publicOwner
                              publicValue challenge] ;;
  let expectedOutput := ("0x" ++ JS.slice 66 encoded)%string in
  ret (mkTransaction proofData expectedOutput).

End Coders.

End privateRange.

(* ===================================================================== *)
(** ** The constructors known through their tests                         *)
(* ===================================================================== *)

(** The blinding-factor algebra of a proof kind, as a plug-in of the shared
    skeleton (spec, sections 4.F and 9): the callback run on every note, with
    the variables it closes over as the state [St]. *)
Definition Schema (St : Type) : Type :=
  nat -> Note.t -> St -> M (BlindingFactor.t * St).

(** Modelled from the spec: the standard position of a schema (section
    4.F, step 2): fresh [bk] and [ba], and B = bk gamma + ba h. *)
Definition standardSchema : Schema unit :=
  fun _ note _ =>
    bk <- bn128.randomGroupScalar ;;
    ba <- bn128.randomGroupScalar ;;
    ret (BlindingFactor.make bk ba
           (Some (bn128.add (bn128.mul (Note.gamma note) bk)
                            (bn128.mul bn128.h ba))),
         tt).

Module joinSplit.
Section WithSchema.

Context {St : Type}.
(** The specification leaves the join-split constraint on the blinding
    scalars underdetermined; the constructor is parametric in it. *)
Variable init : Keccak.t -> Z -> Z -> St.
Variable schema : Schema St.

(** Modelled from the spec: the record of note [i] (section 4.F, step 4):
    the responses, except that the last record stores [kPublic] in its kBar
    slot. *)
Definition proofRecord (notes : list Note.t) (kPublic challenge : Z)
    (i : nat) (blindingFactor : BlindingFactor.t) : M (list string) :=
  note <- at_index notes i ;;
  let kBar :=
    if (S i =? List.length notes)%nat then kPublic
    else proofUtils.kBarResponse note challenge blindingFactor in
  proofUtils.noteRecord note kBar
    (proofUtils.aBarResponse note challenge blindingFactor).

(** Modelled from the spec: [joinSplit.constructProof(notes, m, sender,
    kPublic)] (section 4.F), which is not among the sources: validation,
    rolling hash over the notes, blinding factors, challenge, responses,
    with [kPublic] stored in the last record's kBar slot. *)
Definition constructProof (notes : list Note.t) (m : Z) (sender : string)
    (kPublic : Z) : M Proof.t :=
  _ <- proofUtils.parseInputs notes sender (Some m) (Some kPublic) ;;
  rollingHash <- appendNotes notes Keccak.new ;;
  '(blindingFactors, _) <-
    mapWithClosure schema 0 notes (init rollingHash m kPublic) ;;
  challenge <-
    proofUtils.computeChallenge
      [proofUtils.CAddress sender; proofUtils.CNumber kPublic;
       proofUtils.CNumber m; proofUtils.CNotes notes;
       proofUtils.CFactors blindingFactors] ;;
  proofData <-
    mapWithIndex (proofRecord notes kPublic challenge) 0 blindingFactors ;;
  ret (Proof.make proofData (hex64 (JS.toString16 challenge))).

End WithSchema.
End joinSplit.

Module dividendComputation.

(** What [dividendComputation.constructProof] returns, as its test reads
    it. *)
Record Result : Type := mkResult {
  proofDataUnformatted : list (list string);
  proofData : list string;
  challenge : string
}.

Section WithSchema.

Context {St : Type}.
(** The specification states which relation the blinding scalars of a
    dividend proof enforce, not how; the constructor is parametric in
    the schema. *)
Variable init : Keccak.t -> Z -> Z -> St.
Variable schema : Schema St.

(** Modelled from the spec: [dividendComputation.constructProof(notes, za,
    zb, sender)] (section 4.F), which is not among the sources: the
    shared skeleton, returning the per-note records, their flattening and
    the challenge. *)
Definition constructProof (notes : list Note.t) (za zb : Z) (sender : string)
    : M Result :=
  _ <- proofUtils.parseInputs notes sender None None ;;
  rollingHash <- appendNotes notes Keccak.new ;;
  '(blindingFactors, _) <-
    mapWithClosure schema 0 notes (init rollingHash za zb) ;;
  challenge <-
    proofUtils.computeChallenge
      [proofUtils.CAddress sender; proofUtils.CNumber za;
       proofUtils.CNumber zb; proofUtils.CNotes notes;
       proofUtils.CFactors blindingFactors] ;;
  proofDataUnformatted <-
    mapWithIndex (proofUtils.responseRecord notes challenge) 0
                 blindingFactors ;;
  ret (mkResult proofDataUnformatted (List.concat proofDataUnformatted)
                (hex64 (JS.toString16 challenge))).

End WithSchema.
End dividendComputation.

Module bilateralSwap.

(** Modelled from the spec: [bilateralSwap.constructProof(notes, sender)]
    (section 4.F), which is not among the sources: the transcript absorbs
    the sender and the notes, the swap schema adds every [B] and yields the
    challenge, and every note answers with kBar and aBar. *)
Definition constructProof (notes : list Note.t) (sender : string) : M Proof.t :=
  _ <- proofUtils.parseInputs notes sender None None ;;
  finalHash <- proofUtils.absorb (proofUtils.CAddress sender) Keccak.new ;;
  finalHash <- appendNotes notes finalHash ;;
  '(blindingFactors, challenge) <-
    proofUtils.getBlindingFactorsAndChallenge notes finalHash ;;
  proofData <-
    mapWithIndex (proofUtils.responseRecord notes challenge) 0
                 blindingFactors ;;
  ret (Proof.make proofData (hex64 (JS.toString16 challenge))).

End bilateralSwap.

Module mint.
Section WithSchema.

Context {St : Type}.
Variable init : Keccak.t -> Z -> Z -> St.
Variable schema : Schema St.

(** Modelled from the spec: [mint.constructProof] (section 4.F), which is
    not among the sources: structurally a join-split restricted to one
    input note (the current total), followed by one output note (the new
    total) and the minted notes, whose public kPublic slot holds the hash
    of the commitment to the new total minted.  The specification does not
    say how that hash is computed from the notes: it is an argument
    here. *)
Definition constructProof (notes : list Note.t) (sender : string)
    (newTotalMinted : Z) : M Proof.t :=
  joinSplit.constructProof init schema notes 1 sender newTotalMinted.

End WithSchema.
End mint.

Module burn.
Section WithSchema.

Context {St : Type}.
Variable init : Keccak.t -> Z -> Z -> St.
Variable schema : Schema St.

(** Modelled from the spec: [burn.constructProof] (section 4.F), which is
    not among the sources: structurally a join-split restricted to one
    input note (the current total), followed by one output note (the new
    total) and the burned notes, whose public kPublic slot holds the hash
    of the commitment to the new total burned, an argument here as it is
    for a mint. *)
Definition constructProof (notes : list Note.t) (sender : string)
    (newTotalBurned : Z) : M Proof.t :=
  joinSplit.constructProof init schema notes 1 sender newTotalBurned.

End WithSchema.
End burn.

(* ===================================================================== *)
(** ** Well-formed notes and targeted malformations                       *)
(* ===================================================================== *)

(** The invariants of a note (spec, section 3): a in (0, n), k in
    [0, K_MAX], gamma and sigma on the curve (hence not the identity). *)
Definition validNote (note : Note.t) : bool :=
  (0 <? Note.a note) && (Note.a note <? bn128.n)
  && (0 <=? Note.k note) && (Note.k note <=? proofUtils.K_MAX)
  && bn128.validateOnCurve (Note.gamma note)
  && bn128.validateOnCurve (Note.sigma note).

(** The assignments [note.k = ...], [note.a = ...], [note.gamma = ...] of
    the failure tests. *)
Definition setK (note : Note.t) (k : Z) : Note.t :=
  Note.make k (Note.a note) (Note.gamma note) (Note.sigma note) (Note.owner note).
Definition setA (note : Note.t) (a : Z) : Note.t :=
  Note.make (Note.k note) a (Note.gamma note) (Note.sigma note) (Note.owner note).
Definition setGamma (note : Note.t) (gamma : bn128.Point) : Note.t :=
  Note.make (Note.k note) (Note.a note) gamma (Note.sigma note) (Note.owner note).

(** The assignment [note.gamma.x = x] of the test on a point off the
    curve. *)
Definition setGammaX (note : Note.t) (x : Z) : Note.t :=
  match Note.gamma note with
  | bn128.Affine _ y => setGamma note (bn128.Affine x y)
  | bn128.Infinity => note
  end.

(* ===================================================================== *)
(** ** Reading a transcript back                                          *)
(* ===================================================================== *)

(** [new BN(hex.slice(2), 16)], as the tests decode a slot. *)
Definition decode (slot : string) : Z := JS.fromString16 (JS.slice 2 slot).

(** The kBar and aBar slots of a record (empty when the record is too
    short). *)
Definition kBarSlot (record : list string) : string := nth 0 record EmptyString.
Definition aBarSlot (record : list string) : string := nth 1 record EmptyString.

(** A scalar of the group: a number in [[0, n)]. *)
Definition isGroupScalar (v : Z) : Prop := 0 <= v < bn128.n.

(** A slot as the constructors write it and the tests read it: [0x]
    followed by 64 hexadecimal digits. *)
Definition isWord (s : string) : bool :=
  match s with
  | String "0" (String "x" digits) =>
      JS.isHexString digits && (String.length digits =? 64)%nat
  | _ => false
  end.

(** Element [j] of a record is there ([record[j]] is not [undefined]), is
    such a word, and the word reads as a group scalar. *)
Definition scalarSlot (record : list string) (j : nat) : Prop :=
  exists word,
    nth_error record j = Some word /\
    isWord word = true /\
    isGroupScalar (decode word).

(** Every record of a transcript carries a kBar slot (element 0) and an aBar
    slot (element 1), and both hold group scalars. *)
Definition allGroupScalars (records : list (list string)) : Prop :=
  Forall (fun r => scalarSlot r 0 /\ scalarSlot r 1) records.

(** The blinding point of a note whose scalars are weighted by [x]:
    (bk x) gamma + (ba x) h. *)
Definition weighted (note : Note.t) (bk ba x : Z) : bn128.Point :=
  bn128.add (bn128.mul (Note.gamma note) (bn128.redMul bk x))
            (bn128.mul bn128.h (bn128.redMul ba x)).

(** The 32 bytes that a private-range proof over three notes reads from the
    tape once its six blinding scalars have been drawn. *)
Definition fillerBytes : M (list byte) :=
  _ <- bn128.randomGroupScalar ;;
  _ <- bn128.randomGroupScalar ;;
  _ <- bn128.randomGroupScalar ;;
  _ <- bn128.randomGroupScalar ;;
  _ <- bn128.randomGroupScalar ;;
  _ <- bn128.randomGroupScalar ;;
  randomBytes 32.

(* ===================================================================== *)
(** ** Computations that leave the entropy tape alone                     *)
(* ===================================================================== *)

(** A computation that never reads the entropy tape: whenever it returns, it
    returns the same value on every tape and leaves the tape as it was. *)
Definition deterministic {A : Type} (m : M A) : Prop :=
  forall t a t', m t = Returns a t' ->
    t' = t /\ forall u, m u = Returns a u.

(** A computation that returns, and the same value, on every tape. *)
Definition succeeds {A : Type} (m : M A) : Prop :=
  exists a, forall u, m u = Returns a u.

(* ===================================================================== *)
(** ** JavaScript numbers                                                 *)
(* ===================================================================== *)

(** The numbers of JavaScript are the binary64 numbers of IEEE 754: 53 bits
    of precision, exponents up to 1024, every operation rounded to the
    nearest number, ties to even. *)
Module JSNumber.

Definition prec : Z := 53.
Definition emax : Z := 1024.

Definition t : Type := spec_float.

(** The number nearest to an integer: the integer itself up to 2^53. *)
Definition ofZ (z : Z) : t := binary_normalize prec emax z 0 false.

(** The significand and the exponent of the number of a positive integer
    below 2^53: the integer shifted to 53 bits. *)
Definition mantissa (V : positive) : positive :=
  match (53 - Zpos (Pos.size V))%Z with
  | Zpos j => Pos.iter xO V j
  | _ => V
  end.

Definition exponent (V : positive) : Z := Zpos (Pos.size V) - 53.

(** [x + y] and [x - y]. *)
Definition add (x y : t) : t := SFadd prec emax x y.
Definition sub (x y : t) : t := SFsub prec emax x y.

(** [new BN(x)] of bn.js for a number: the words of the magnitude, taken
    with bit operations that drop the fraction, and the sign; the
    constructor asserts that the magnitude is below 2^53 and throws
    otherwise ([None]), as it does for NaN and the infinities. *)
Definition newBN (x : t) : option Z :=
  match x with
  | S754_zero _ => Some 0
  | S754_finite s m e =>
      let v := Z.shiftl (Zpos m) e in
      if v <? 2 ^ 53 then Some (if s then - v else v) else None
  | _ => None
  end.

End JSNumber.

(** The sum of the absolute values of a list of integers. *)
Definition mass (l : list Z) : Z := fold_right (fun v acc => Z.abs v + acc) 0 l.

(* ===================================================================== *)
(** ** The helpers of the join-split test                                 *)
(* ===================================================================== *)

(** The functions that the test of the join-split proof defines for itself
    (test/proof/joinSplit/proof.js, lines 13-46) and the public value it
    derives from them (lines 54-55). *)
Module joinSplitTest.

(** [buffer.toString('hex')]: two lower-case digits for every byte. *)
Fixpoint toStringHex (bs : list byte) : string :=
  match bs with
  | [] => EmptyString
  | b :: bs' =>
      let v := Z.of_N (Byte.to_N b) in
      String (JS.hexChar (v / 16))
             (String (JS.hexChar (v mod 16)) (toStringHex bs'))
  end.

(** [generateNoteValue()]; the result is below 2^53, where [toNumber()] is
    exact. *)
Definition generateNoteValue : M Z :=
  bytes <- randomBytes 32 ;;
  ret (JS.fromBytes bytes mod proofUtils.K_MAX).

(** [getKPublic(kIn, kOut)]: both reductions run in the arithmetic of
    JavaScript numbers, from the number 0. *)
Definition getKPublic (kIn kOut : list JSNumber.t) : JSNumber.t :=
  fold_left (fun acc v => JSNumber.sub acc v) kOut
            (fold_left (fun acc v => JSNumber.add acc v) kIn (JSNumber.ofZ 0)).

(** [randomAddress()]. *)
Definition randomAddress : M string :=
  bytes <- randomBytes 20 ;;
  ret (hex64 (toStringHex bytes)).

(** [validateGroupElement(xHex, yHex)]: [true] when every expectation holds,
    [false] when one of them fails (and chai throws). *)
Definition validateGroupElement (xHex yHex : string) : bool :=
  let x := JS.fromString16 (JS.slice 2 xHex) in
  let y := JS.fromString16 (JS.slice 2 yHex) in
  let lhs := x * x * x + 3 in
  let rhs := y * y in
  (0 <? x) && (0 <? y) && (x <? bn128.p) && (y <? bn128.p)
  && (lhs mod bn128.p =? rhs mod bn128.p).

(** [validateGroupScalar(hex, canBeZero = false)], likewise. *)
Definition validateGroupScalar (hex : string) (canBeZero : bool) : bool :=
  let scalar := JS.fromString16 (JS.slice 2 hex) in
  (scalar <? bn128.n) && (canBeZero || (0 <? scalar)).

(** The public value of the test of well-formed outputs:
    [bn128.curve.n.add(new BN(k)).umod(bn128.curve.n)] for
    [k = getKPublic(kIn, kOut)]; there is none when [new BN(k)] throws. *)
Definition kPublic (kIn kOut : list JSNumber.t) : option Z :=
  match JSNumber.newBN (getKPublic kIn kOut) with
  | Some k => Some ((bn128.n + k) mod bn128.n)
  | None => None
  end.

End joinSplitTest.

(* ===================================================================== *)
(** ** The test of the private-range validator                            *)
(* ===================================================================== *)

(** What the test of the validator contract assembles by hand from three
    notes before it calls the contract
    (test/ACE/validators/privateRange/abiEncoder.js, lines 40-63). *)
Module privateRangeValidatorTest.

Section Coders.

Variable inputCoder_privateRange :
  list (list string) -> string -> list string -> list string ->
  list Note.t -> M string.
Variable outputCoder_encodeProofOutputs :
  list privateRange.ProofOutput -> M string.

(** The pair [(proofData, expectedOutput)] of the test. *)
Definition assemble (originalNote comparisonNote utilityNote : Note.t)
    (senderAddress : string) : M (string * string) :=
  proof <- privateRange.constructProof
             [originalNote; comparisonNote; utilityNote] senderAddress ;;
  let proofDataRaw := Proof.proofData proof in
  let challenge := Proof.challenge proof in
  let inputNotes := [originalNote; comparisonNote] in
  let outputNotes := [utilityNote] in
  let inputOwners := map Note.owner inputNotes in
  let outputOwner := [Note.owner utilityNote] in
  proofData <- inputCoder_privateRange proofDataRaw challenge
                 inputOwners outputOwner outputNotes ;;
  let publicOwner := privateRange.ZERO_ADDRESS in
  let publicValue := 0 in
  expectedOutput <- outputCoder_encodeProofOutputs
                      [privateRange.mkProofOutput inputNotes outputNotes
                         publicOwner publicValue challenge] ;;
  ret (proofData, expectedOutput).

End Coders.

End privateRangeValidatorTest.

(* ===================================================================== *)
(** ** Reading a transcript back, slot by slot                            *)
(* ===================================================================== *)

(** Slot [j] of a record (empty when the record is too short). *)
Definition slot (j : nat) (record : list string) : string :=
  nth j record EmptyString.

(** [k] successive calls of [bn128.randomGroupScalar()], and the scalars they
    return. *)
Fixpoint drawScalars (k : nat) : M (list Z) :=
  match k with
  | O => ret []
  | S k' =>
      v <- bn128.randomGroupScalar ;;
      vs <- drawScalars k' ;;
      ret (v :: vs)
  end.

(** A blinding factor whose point [B] is defined and is not the identity. *)
Definition hasPoint (f : BlindingFactor.t) : Prop :=
  exists P, BlindingFactor.B f = Some P /\ bn128.isInfinity P = false.

(* ===================================================================== *)
(** ** A worked scenario                                                  *)
(* ===================================================================== *)

Module Scenario.

(** A note of value [k] and viewing key [a] on the base
    gamma = seed g: sigma = k h + a gamma (section 3). *)
Definition mkNote (k a seed : Z) (owner : string) : Note.t :=
  let gamma := bn128.mul bn128.g seed in
  Note.make k a gamma
    (bn128.add (bn128.mul bn128.h k) (bn128.mul gamma a)) owner.

Definition alice : string := "0x00000000000000000000000000000000000000a1".
Definition bob : string := "0x00000000000000000000000000000000000000b2".
Definition carol : string := "0x00000000000000000000000000000000000000c3".

(** The notes of values 10, 4 and 6 of the private-range scenario:
    original, comparison and utility note. *)
Definition original : Note.t := Eval vm_compute in mkNote 10 1234567 11 alice.
Definition comparison : Note.t := Eval vm_compute in mkNote 4 7654321 22 bob.
Definition utility : Note.t := Eval vm_compute in mkNote 6 1111111 33 carol.
Definition notes : list Note.t := [original; comparison; utility].

(** Two inputs of values 10 and 20, three outputs of values 5, 15, 10. *)
Definition input0 : Note.t := Eval vm_compute in mkNote 10 101 3 alice.
Definition input1 : Note.t := Eval vm_compute in mkNote 20 102 5 alice.
Definition output0 : Note.t := Eval vm_compute in mkNote 5 103 7 bob.
Definition output1 : Note.t := Eval vm_compute in mkNote 15 104 9 bob.
Definition output2 : Note.t := Eval vm_compute in mkNote 10 105 13 carol.
Definition joinSplitNotes : list Note.t :=
  [input0; input1; output0; output1; output2].

(** Notes of values 10, 20, 10, 20 for a swap. *)
Definition swapNotes : list Note.t :=
  Eval vm_compute in
    [mkNote 10 201 3 alice; mkNote 20 202 5 bob;
     mkNote 10 203 7 bob; mkNote 20 204 9 alice].

(** Notes of values 90, 4, 50 for a dividend computation. *)
Definition dividendNotes : list Note.t :=
  Eval vm_compute in
    [mkNote 90 301 3 alice; mkNote 4 302 5 alice; mkNote 50 303 7 bob].

Definition sender : string := "0x00000000000000000000000000000000000000a1".

Definition block (v : Z) : list byte := JS.toBytesBE 32 v.

(** An entropy tape; its second and sixth blocks are rejected by
    [randomGroupScalar] (too big, zero). *)
Definition tape : Entropy :=
  Eval vm_compute in
    [block 1000003; block (2 ^ 256 - 1); block 2000003; block 3000017;
     block 4000037; block 0; block 5000011; block 6000047;
     block 123456789012345678901234567890; block 99; block 77; block 55].

(** The rolling hash of the private-range scenario once the notes are
    absorbed. *)
Definition rollingHash : Keccak.t :=
  Eval vm_compute in
    match appendNotes notes Keccak.new tape with
    | Returns hash _ => hash
    | _ => Keccak.new
    end.

(** The blinding factors the constructor derives from the tape, and what
    it leaves of the transcript and of the tape. *)
Definition factors :=
  Eval vm_compute in
    match privateRange.constructBlindingFactors notes rollingHash tape with
    | Returns (fs, _) _ => fs
    | _ => []
    end.

Definition factorsHash :=
  Eval vm_compute in
    match privateRange.constructBlindingFactors notes rollingHash tape with
    | Returns (_, hash) _ => hash
    | _ => Keccak.new
    end.

Definition factorsRest :=
  Eval vm_compute in
    match privateRange.constructBlindingFactors notes rollingHash tape with
    | Returns _ rest => rest
    | _ => []
    end.

(** The private-range proof of the scenario and the unread tape. *)
Definition proof :=
  Eval vm_compute in
    match privateRange.constructProof notes sender tape with
    | Returns p _ => p
    | _ => Proof.make [] EmptyString
    end.

Definition rest :=
  Eval vm_compute in
    match privateRange.constructProof notes sender tape with
    | Returns _ r => r
    | _ => []
    end.

(** Stand-ins for the ABI coders, listing what they are given. *)
Definition listingInputCoder (proofData : list (list string)) (challenge : string)
    (inputOwners outputOwners : list string) (outputNotes : list Note.t)
    : M string :=
  ret (String.concat "," (challenge :: List.concat proofData
                            ++ inputOwners ++ outputOwners)).

Definition listingOutputCoder (outputs : list privateRange.ProofOutput) : M string :=
  ret (JS.replicate 66 "0"
       ++ String.concat ";"
            (map (fun o =>
                    privateRange.publicOwner o ++ ","
                    ++ JS.toString16 (privateRange.publicValue o) ++ ","
                    ++ privateRange.challenge o)
                 outputs))%string.

(** The transaction encoded from the three notes with these coders. *)
Definition transaction :=
  Eval vm_compute in
    match privateRange.encodePrivateRangeTransaction listingInputCoder
            listingOutputCoder [original] [comparison] [utility] sender tape with
    | Returns tx _ => tx
    | _ => privateRange.mkTransaction EmptyString EmptyString
    end.

(** The join-split proof of the five notes, with no public value, under
    the standard schema. *)
Definition joinSplitInit (_ : Keccak.t) (_ _ : Z) : unit := tt.

Definition joinSplitRun (notes : list Note.t) (m kPublic : Z) : completion Proof.t :=
  joinSplit.constructProof joinSplitInit standardSchema notes m sender kPublic
    tape.

Definition joinSplitProof :=
  Eval vm_compute in
    match joinSplit.constructProof joinSplitInit standardSchema
            joinSplitNotes 2 sender 0 tape with
    | Returns p _ => p
    | _ => Proof.make [] EmptyString
    end.

Definition joinSplitRest :=
  Eval vm_compute in
    match joinSplit.constructProof joinSplitInit standardSchema
            joinSplitNotes 2 sender 0 tape with
    | Returns _ r => r
    | _ => []
    end.

(** The dividend computation with za = 100 and zb = 5, under the standard
    schema. *)
Definition dividendResult :=
  Eval vm_compute in
    match dividendComputation.constructProof joinSplitInit standardSchema
            dividendNotes 100 5 sender tape with
    | Returns r _ => r
    | _ => dividendComputation.mkResult [] [] EmptyString
    end.

Definition dividendRest :=
  Eval vm_compute in
    match dividendComputation.constructProof joinSplitInit standardSchema
            dividendNotes 100 5 sender tape with
    | Returns _ r => r
    | _ => []
    end.

(** The transcript of the swap notes, and the blinding factors and
    challenge of the swap. *)
Definition swapHash :=
  Eval vm_compute in
    match appendNotes swapNotes Keccak.new tape with
    | Returns hash _ => hash
    | _ => Keccak.new
    end.

Definition swapFactors :=
  Eval vm_compute in
    match proofUtils.getBlindingFactorsAndChallenge swapNotes swapHash tape with
    | Returns (fs, _) _ => fs
    | _ => []
    end.

Definition swapChallenge :=
  Eval vm_compute in
    match proofUtils.getBlindingFactorsAndChallenge swapNotes swapHash tape with
    | Returns (_, c) _ => c
    | _ => 0
    end.

Definition swapRest :=
  Eval vm_compute in
    match proofUtils.getBlindingFactorsAndChallenge swapNotes swapHash tape with
    | Returns _ r => r
    | _ => []
    end.

Definition swapProof :=
  Eval vm_compute in
    match bilateralSwap.constructProof swapNotes sender tape with
    | Returns p _ => p
    | _ => Proof.make [] EmptyString
    end.

Definition swapProofRest :=
  Eval vm_compute in
    match bilateralSwap.constructProof swapNotes sender tape with
    | Returns _ r => r
    | _ => []
    end.

End Scenario.

(** A private-range scenario with a fourth note. *)
Module ScenarioFour.

Definition notes : list Note.t :=
  [Scenario.original; Scenario.comparison; Scenario.utility; Scenario.input0].

(** The rolling hash once the four notes are absorbed. *)
Definition rollingHash : Keccak.t :=
  Eval vm_compute in
    match appendNotes notes Keccak.new Scenario.tape with
    | Returns hash _ => hash
    | _ => Keccak.new
    end.

(** The outcome of [constructBlindingFactors] on the four notes. *)
Definition factorsRun :=
  Eval vm_compute in
    privateRange.constructBlindingFactors notes rollingHash Scenario.tape.

End ScenarioFour.

(** A mint that takes the total from 0 to 30 with notes of values 10 and 20
    (section 8, scenario 5), and a burn that takes a total from 30 to 10
    with a note of value 20, both under the standard schema. *)
Module ScenarioSupply.

(** Modelled from the spec: the hash of a note (section 3), which none of
    the sources computes: Keccak-256 of gamma.x, gamma.y, sigma.x and
    sigma.y, read as a scalar of the group. *)
Definition commitmentHash (note : Note.t) : Z :=
  match appendNotes [note] Keccak.new [] with
  | Returns hash _ => fst (Keccak.keccak hash bn128.n)
  | _ => 0
  end.

Definition currentTotalMinted : Note.t :=
  Eval vm_compute in Scenario.mkNote 0 401 3 Scenario.alice.
Definition newTotalMinted : Note.t :=
  Eval vm_compute in Scenario.mkNote 30 402 5 Scenario.alice.
Definition mintNotes : list Note.t :=
  Eval vm_compute in
    [currentTotalMinted; newTotalMinted;
     Scenario.mkNote 10 403 7 Scenario.bob;
     Scenario.mkNote 20 404 9 Scenario.carol].

Definition mintRun : completion Proof.t :=
  Eval vm_compute in
    mint.constructProof Scenario.joinSplitInit standardSchema mintNotes
      Scenario.sender (commitmentHash newTotalMinted) Scenario.tape.

Definition mintProof : Proof.t :=
  Eval vm_compute in
    match mintRun with
    | Returns p _ => p
    | _ => Proof.make [] EmptyString
    end.

Definition currentTotalBurned : Note.t :=
  Eval vm_compute in Scenario.mkNote 30 501 3 Scenario.alice.
Definition newTotalBurned : Note.t :=
  Eval vm_compute in Scenario.mkNote 10 502 5 Scenario.alice.
Definition burnNotes : list Note.t :=
  Eval vm_compute in
    [currentTotalBurned; newTotalBurned;
     Scenario.mkNote 20 503 7 Scenario.bob].

Definition burnRun : completion Proof.t :=
  Eval vm_compute in
    burn.constructProof Scenario.joinSplitInit standardSchema burnNotes
      Scenario.sender (commitmentHash newTotalBurned) Scenario.tape.

Definition burnProof : Proof.t :=
  Eval vm_compute in
    match burnRun with
    | Returns p _ => p
    | _ => Proof.make [] EmptyString
    end.

End ScenarioSupply.

(* ===================================================================== *)
(** * Properties                                                          *)
(* ===================================================================== *)

(** ** Known answers of the primitives *)

(** The digests of the empty message and of the message abc. *)
Example keccak256_empty :
  JS.fromBytes (Keccak256.digest []) =
  0xc5d2460186f7233c927e7db2dcc703c0e500b653ca82273b7bfad8045d85a470.
Proof. vm_compute. reflexivity. Qed.

Example keccak256_abc :
  JS.fromBytes (Keccak256.digest [x61; x62; x63]) =
  0x4e03657aea45a94fc7d47ba826c8d667c0d1e6e33a64a036ec44f58fa12d6c45.
Proof. vm_compute. reflexivity. Qed.

(** Sanity checks of the curve arithmetic. *)
Example bn128_generators_on_curve :
  bn128.validateOnCurve bn128.g = true /\ bn128.validateOnCurve bn128.h = true.
Proof. split; vm_compute; reflexivity. Qed.

Example bn128_group_order :
  bn128.mul bn128.g bn128.n = bn128.Infinity /\
  bn128.mul bn128.h bn128.n = bn128.Infinity /\
  bn128.mul bn128.h (bn128.n - 1) = bn128.neg bn128.h.
Proof. repeat apply conj; vm_compute; reflexivity. Qed.

Example bn128_mul_agrees_with_add :
  bn128.mul bn128.h 2 = bn128.add bn128.h bn128.h /\
  bn128.mul bn128.h 3 = bn128.add bn128.h (bn128.add bn128.h bn128.h) /\
  bn128.add (bn128.mul bn128.h 5) (bn128.mul bn128.g 7) =
    bn128.add (bn128.mul bn128.g 7) (bn128.mul bn128.h 5) /\
  bn128.add (bn128.mul bn128.h 123456789) (bn128.mul bn128.h 987654321) =
    bn128.mul bn128.h 1111111110 /\
  bn128.validateOnCurve (bn128.add (bn128.mul bn128.h 5) (bn128.mul bn128.g 7)) = true /\
  bn128.add bn128.h (bn128.neg bn128.h) = bn128.Infinity.
Proof. repeat apply conj; vm_compute; reflexivity. Qed.

(** ** Hexadecimal numerals *)

Module HexFacts.
Import JS.

Lemma length_append (s1 s2 : string) :
  String.length (s1 ++ s2) = (String.length s1 + String.length s2)%nat.
Proof. induction s1 as [|c s1 IH]; simpl; [reflexivity | now rewrite IH]. Qed.

Lemma length_replicate (k : nat) (c : ascii) : String.length (replicate k c) = k.
Proof. induction k as [|k IH]; simpl; [reflexivity | now rewrite IH]. Qed.

Lemma hexChar_value (d : Z) : 0 <= d < 16 -> digitVal (hexChar d) = d.
Proof.
  intros Hd. unfold hexChar.
  assert (Hk : d = Z.of_nat (Z.to_nat d)) by lia.
  assert (Hlt : (Z.to_nat d < 16)%nat) by lia.
  rewrite Hk at 2. generalize dependent (Z.to_nat d). intros k _ Hlt.
  do 16 (destruct k as [|k]; [reflexivity|]). lia.
Qed.

Lemma hexChar_lower (d : Z) : isLowerHexChar (hexChar d) = true.
Proof.
  unfold hexChar. generalize (Z.to_nat d). intros k.
  do 17 (destruct k as [|k]; [reflexivity|]). reflexivity.
Qed.

Lemma parseHex_acc (s : string) (acc : Z) :
  parseHex s acc = acc * 16 ^ Z.of_nat (String.length s) + parseHex s 0.
Proof.
  revert acc. induction s as [|c s IH]; intros acc.
  - simpl. lia.
  - cbn [parseHex String.length]. rewrite IH, (IH (0 * 16 + digitVal c)).
    rewrite Nat2Z.inj_succ, Z.pow_succ_r by lia. ring.
Qed.

Lemma parseHex_append (s1 s2 : string) (acc : Z) :
  parseHex (s1 ++ s2) acc = parseHex s2 (parseHex s1 acc).
Proof. revert acc. induction s1 as [|c s1 IH]; intros acc; simpl; auto. Qed.

Lemma parseHex_zeros (k : nat) : parseHex (replicate k "0") 0 = 0.
Proof. induction k as [|k IH]; simpl; auto. Qed.

(** The digits pushed by [hexDigits] read back as the number. *)
Lemma hexDigits_value (fuel : nat) :
  forall v acc, 0 <= v < 16 ^ Z.of_nat fuel ->
    parseHex (hexDigits fuel v acc) 0 =
    v * 16 ^ Z.of_nat (String.length acc) + parseHex acc 0.
Proof.
  induction fuel as [|fuel IH]; intros v acc Hv.
  - simpl in Hv. assert (v = 0) by lia. subst v. simpl. lia.
  - cbn [hexDigits]. destruct (v <? 16) eqn:Hsmall.
    + apply Z.ltb_lt in Hsmall.
      cbn [parseHex]. rewrite parseHex_acc.
      rewrite Z.mod_small by lia. rewrite hexChar_value by lia. lia.
    + apply Z.ltb_ge in Hsmall.
      rewrite Nat2Z.inj_succ, Z.pow_succ_r in Hv by lia.
      rewrite IH by (split; [apply Z.div_pos; lia | apply Z.div_lt_upper_bound; lia]).
      cbn [parseHex String.length]. rewrite (parseHex_acc acc).
      rewrite hexChar_value by (apply Z.mod_pos_bound; lia).
      rewrite Nat2Z.inj_succ, Z.pow_succ_r by lia.
      pose proof (Z.div_mod v 16 ltac:(lia)) as Hdm.
      rewrite Hdm at 3. ring.
Qed.

Lemma hexDigits_length (fuel : nat) :
  forall v acc k, 0 <= v < 16 ^ Z.of_nat k -> (1 <= k)%nat ->
    (String.length (hexDigits fuel v acc) <= k + String.length acc)%nat.
Proof.
  induction fuel as [|fuel IH]; intros v acc k Hv Hk.
  - simpl. lia.
  - cbn [hexDigits]. destruct (v <? 16) eqn:Hsmall.
    + simpl. lia.
    + apply Z.ltb_ge in Hsmall.
      destruct k as [|[|k]].
      * lia.
      * simpl in Hv. lia.
      * rewrite Nat2Z.inj_succ, Z.pow_succ_r in Hv by lia.
        specialize (IH (v / 16) (String (hexChar (v mod 16)) acc) (S k)).
        cbn [String.length] in IH.
        assert (0 <= v / 16 < 16 ^ Z.of_nat (S k))
          by (split; [apply Z.div_pos; lia | apply Z.div_lt_upper_bound; lia]).
        specialize (IH ltac:(assumption) ltac:(lia)). lia.
Qed.

Lemma hexDigits_isHex (fuel : nat) :
  forall v acc, isHexString acc = true -> isHexString (hexDigits fuel v acc) = true.
Proof.
  induction fuel as [|fuel IH]; intros v acc Hacc; [assumption|].
  assert (Hacc' : isHexString (String (hexChar (v mod 16)) acc) = true)
    by (cbn [isHexString]; rewrite hexChar_lower, Hacc; reflexivity).
  cbn [hexDigits]. destruct (v <? 16); auto.
Qed.

Lemma fuel_suffices (v : Z) :
  0 <= v -> v < 16 ^ Z.of_nat (S (Z.to_nat (Z.log2 v))).
Proof.
  intros Hv. pose proof (Z.log2_nonneg v) as Hl.
  replace (Z.of_nat (S (Z.to_nat (Z.log2 v)))) with (Z.succ (Z.log2 v)) by lia.
  assert (Hb : v < 2 ^ Z.succ (Z.log2 v)).
  { destruct (Z.eq_dec v 0) as [->|Hnz].
    - simpl. lia.
    - apply Z.log2_spec. lia. }
  assert (2 ^ Z.succ (Z.log2 v) <= 16 ^ Z.succ (Z.log2 v))
    by (apply Z.pow_le_mono_l; lia).
  lia.
Qed.

Lemma toString16_value (v : Z) : 0 <= v -> fromString16 (toString16 v) = v.
Proof.
  intros Hv. unfold fromString16, toString16.
  rewrite hexDigits_value by (split; [assumption | now apply fuel_suffices]).
  simpl. lia.
Qed.

Lemma toString16_length (v : Z) (k : nat) :
  0 <= v < 16 ^ Z.of_nat k -> (1 <= k)%nat ->
  (String.length (toString16 v) <= k)%nat.
Proof.
  intros Hv Hk. unfold toString16.
  pose proof (hexDigits_length (S (Z.to_nat (Z.log2 v))) v EmptyString k Hv Hk) as H.
  cbn [String.length] in H. rewrite Nat.add_0_r in H. exact H.
Qed.

Lemma toString16_isHex (v : Z) : isHexString (toString16 v) = true.
Proof. unfold toString16. now apply hexDigits_isHex. Qed.

Lemma lowerHex_not_x (c : ascii) :
  isLowerHexChar c = true -> (Ascii.eqb c "x" || Ascii.eqb c "X")%char = false.
Proof.
  destruct c as [b0 b1 b2 b3 b4 b5 b6 b7].
  destruct b0, b1, b2, b3, b4, b5, b6, b7; vm_compute; congruence.
Qed.

Lemma hex_has_no_prefix (s : string) :
  isHexString s = true -> hasHexPrefix s = false.
Proof.
  destruct s as [|c0 [|c1 s]]; intros H; try reflexivity.
  - unfold hasHexPrefix. destruct c0 as [[] [] [] [] [] [] [] []]; reflexivity.
  - cbn [isHexString] in H.
    apply andb_true_iff in H as [_ H]. apply andb_true_iff in H as [H1 _].
    apply lowerHex_not_x in H1.
    unfold hasHexPrefix.
    destruct c0 as [[] [] [] [] [] [] [] []]; try reflexivity. exact H1.
Qed.

Lemma padLeft_hex (s : string) (chars : nat) :
  isHexString s = true ->
  padLeft s chars = (replicate (chars - String.length s) "0" ++ s)%string.
Proof.
  intros H. unfold padLeft. rewrite (hex_has_no_prefix s H). reflexivity.
Qed.

Lemma isHex_append (s1 s2 : string) :
  isHexString s1 = true -> isHexString s2 = true ->
  isHexString (s1 ++ s2) = true.
Proof.
  induction s1 as [|c s1 IH]; simpl; intros H1 H2; [assumption|].
  apply andb_true_iff in H1 as [Hc H1]. rewrite Hc. simpl. auto.
Qed.

Lemma isHex_zeros (k : nat) : isHexString (replicate k "0") = true.
Proof. induction k as [|k IH]; simpl; auto. Qed.

Lemma padLeft_isHex (s : string) (chars : nat) :
  isHexString s = true -> isHexString (padLeft s chars) = true.
Proof.
  intros H. rewrite padLeft_hex by assumption.
  apply isHex_append; [apply isHex_zeros | assumption].
Qed.

Lemma padLeft_length (s : string) (chars : nat) :
  isHexString s = true -> (String.length s <= chars)%nat ->
  String.length (padLeft s chars) = chars.
Proof.
  intros H Hl. rewrite padLeft_hex by assumption.
  rewrite length_append, length_replicate. lia.
Qed.

Lemma padLeft_value (s : string) (chars : nat) :
  isHexString s = true -> fromString16 (padLeft s chars) = fromString16 s.
Proof.
  intros H. rewrite padLeft_hex by assumption. unfold fromString16.
  rewrite parseHex_append, parseHex_zeros. reflexivity.
Qed.

(** Padding a string that is already 64 digits long changes nothing. *)
Lemma padLeft_again (s : string) (chars : nat) :
  isHexString s = true -> (String.length s <= chars)%nat ->
  padLeft (padLeft s chars) chars = padLeft s chars.
Proof.
  intros H Hl.
  rewrite (padLeft_hex (padLeft s chars)) by now apply padLeft_isHex.
  rewrite padLeft_length by assumption.
  rewrite Nat.sub_diag. reflexivity.
Qed.

End HexFacts.

(** A slot [hex64 (toString16 v)] decodes to [v]. *)
Lemma decode_hex64 (v : Z) : 0 <= v -> decode (hex64 (JS.toString16 v)) = v.
Proof.
  intros Hv. unfold decode, hex64. cbn [String.append JS.slice].
  rewrite HexFacts.padLeft_value by apply HexFacts.toString16_isHex.
  now apply HexFacts.toString16_value.
Qed.

(** A slot holding a number below 2^256 is 0x followed by 64 digits. *)
Lemma length_hex64 (v : Z) :
  0 <= v < 2 ^ 256 -> String.length (hex64 (JS.toString16 v)) = 66%nat.
Proof.
  intros Hv. unfold hex64. cbn [String.append String.length].
  rewrite HexFacts.padLeft_length; [reflexivity | apply HexFacts.toString16_isHex |].
  apply HexFacts.toString16_length; [|lia].
  change (16 ^ Z.of_nat 64) with (2 ^ 256). exact Hv.
Qed.

Lemma group_scalar_fits (v : Z) : isGroupScalar v -> 0 <= v < 2 ^ 256.
Proof. unfold isGroupScalar, bn128.n. intros H. split; [lia|]. 
  eapply Z.lt_trans; [apply H|]. reflexivity. Qed.

Lemma mod_n_scalar (v : Z) : isGroupScalar (v mod bn128.n).
Proof. unfold isGroupScalar. apply Z.mod_pos_bound. reflexivity. Qed.

(** A slot holding a number below 2^256 is a word. *)
Lemma isWord_hex64 (v : Z) :
  0 <= v < 2 ^ 256 -> isWord (hex64 (JS.toString16 v)) = true.
Proof.
  intros Hv. unfold hex64, isWord. cbn [String.append].
  rewrite HexFacts.padLeft_isHex by apply HexFacts.toString16_isHex.
  rewrite HexFacts.padLeft_length; [reflexivity | apply HexFacts.toString16_isHex |].
  apply HexFacts.toString16_length; [|lia].
  change (16 ^ Z.of_nat 64) with (2 ^ 256). exact Hv.
Qed.

(** A record of six elements whose first two are the slots of two group
    scalars carries a kBar and an aBar slot that hold group scalars. *)
Lemma scalar_slots (r : list string) (kBar aBar : Z) :
  List.length r = 6%nat ->
  kBarSlot r = hex64 (JS.toString16 kBar) ->
  aBarSlot r = hex64 (JS.toString16 aBar) ->
  isGroupScalar kBar -> isGroupScalar aBar ->
  scalarSlot r 0 /\ scalarSlot r 1.
Proof.
  intros Hlen Hk Ha Sk Sa.
  destruct r as [|s0 [|s1 r']]; try discriminate Hlen.
  cbn [kBarSlot aBarSlot nth] in Hk, Ha. subst s0 s1.
  split; eexists; (split; [reflexivity|]); split;
    try (apply isWord_hex64; now apply group_scalar_fits).
  - rewrite decode_hex64 by apply Sk. exact Sk.
  - rewrite decode_hex64 by apply Sa. exact Sa.
Qed.

(** ** The computation monad *)

Lemma bind_returns {A B : Type} (m : M A) (f : A -> M B) t b t' :
  bind m f t = Returns b t' ->
  exists a t1, m t = Returns a t1 /\ f a t1 = Returns b t'.
Proof.
  unfold bind. destruct (m t) as [a t1| |]; intros H; try discriminate.
  exists a, t1. split; [reflexivity | exact H].
Qed.

Lemma ret_returns {A : Type} (a b : A) t t' :
  ret a t = Returns b t' -> a = b /\ t = t'.
Proof. unfold ret. intros H. inversion H. split; reflexivity. Qed.

Lemma throw_returns {A : Type} (e : exn) t (b : A) t' :
  throw e t = Returns b t' -> False.
Proof. unfold throw. discriminate. Qed.

Lemma bind_of_returns {A B : Type} (m : M A) (f : A -> M B) t a t1 :
  m t = Returns a t1 -> bind m f t = f a t1.
Proof. unfold bind. intros ->. reflexivity. Qed.

Lemma bind_of_throws {A B : Type} (m : M A) (f : A -> M B) t e :
  m t = Throws e -> bind m f t = Throws e.
Proof. unfold bind. intros ->. reflexivity. Qed.

(** Splits a goal into its conjuncts, and nothing else. *)
Ltac conjuncts := repeat match goal with |- _ /\ _ => split end.

(** Splits a hypothesis [x <- m ;; k = Returns _ _] into the two runs. *)
Ltac split_bind H :=
  let a := fresh "a" in
  let t := fresh "t" in
  let Hm := fresh "Hm" in
  apply bind_returns in H as (a & t & Hm & H).

Tactic Notation "unbind" hyp(H) "as" simple_intropattern(a) ident(t) ident(Hm) :=
  apply bind_returns in H as (a & t & Hm & H).

Ltac inv_ret H :=
  let E1 := fresh "E" in
  let E2 := fresh "E" in
  apply ret_returns in H as (E1 & E2).

Lemma deterministic_ret {A : Type} (a : A) : deterministic (ret a).
Proof. intros t b t' H. inv_ret H. subst. split; reflexivity. Qed.

Lemma deterministic_throw {A : Type} (e : exn) : deterministic (@throw A e).
Proof. intros t b t' H. destruct (throw_returns _ _ _ _ H). Qed.

Lemma deterministic_bind {A B : Type} (m : M A) (f : A -> M B) :
  deterministic m -> (forall a, deterministic (f a)) -> deterministic (bind m f).
Proof.
  intros Hm Hf t b t' H. split_bind H.
  destruct (Hm _ _ _ Hm0) as [-> Hm1]. destruct (Hf _ _ _ _ H) as [-> Hf1].
  split; [reflexivity|]. intros u. rewrite (bind_of_returns _ _ _ _ _ (Hm1 u)). apply Hf1.
Qed.

Lemma deterministic_forEach {A St : Type} (f : A -> St -> M St) (l : list A) :
  (forall v s, deterministic (f v s)) -> forall s, deterministic (forEach f l s).
Proof.
  intros Hf. induction l as [|v l IH]; intros s; cbn [forEach].
  - apply deterministic_ret.
  - apply deterministic_bind; [apply Hf | intros s1; apply IH].
Qed.

Lemma deterministic_mapWithIndex {A B : Type} (f : nat -> A -> M B) (l : list A) :
  (forall i v, deterministic (f i v)) -> forall i, deterministic (mapWithIndex f i l).
Proof.
  intros Hf. induction l as [|v l IH]; intros i; cbn [mapWithIndex].
  - apply deterministic_ret.
  - apply deterministic_bind; [apply Hf | intros b].
    apply deterministic_bind; [apply IH | intros bs; apply deterministic_ret].
Qed.

Lemma deterministic_at_index {A : Type} (l : list A) i : deterministic (at_index l i).
Proof.
  unfold at_index. destruct (nth_error l i);
    [apply deterministic_ret | apply deterministic_throw].
Qed.

Lemma deterministic_coordX P : deterministic (coordX P).
Proof. destruct P; [apply deterministic_throw | apply deterministic_ret]. Qed.

Lemma deterministic_coordY P : deterministic (coordY P).
Proof. destruct P; [apply deterministic_throw | apply deterministic_ret]. Qed.

Lemma deterministic_append hash P : deterministic (Keccak.append hash P).
Proof.
  unfold Keccak.append.
  apply deterministic_bind; [apply deterministic_coordX | intros x].
  apply deterministic_bind; [apply deterministic_coordY | intros y].
  apply deterministic_ret.
Qed.

Lemma deterministic_appendNotes notes hash : deterministic (appendNotes notes hash).
Proof.
  unfold appendNotes. apply deterministic_forEach. intros note h.
  apply deterministic_bind; [apply deterministic_append | intros h1].
  apply deterministic_append.
Qed.

Lemma deterministic_absorb v hash : deterministic (proofUtils.absorb v hash).
Proof.
  destruct v as [hex|k|notes|bfs]; cbn [proofUtils.absorb].
  - apply deterministic_ret.
  - apply deterministic_ret.
  - apply deterministic_appendNotes.
  - apply deterministic_forEach. intros bf h.
    destruct (BlindingFactor.B bf);
      [apply deterministic_append | apply deterministic_throw].
Qed.

Lemma deterministic_computeChallenge vars :
  deterministic (proofUtils.computeChallenge vars).
Proof.
  unfold proofUtils.computeChallenge.
  apply deterministic_bind; [|intros h; apply deterministic_ret].
  apply deterministic_forEach. intros v h. apply deterministic_absorb.
Qed.

Lemma deterministic_parseNote note : deterministic (proofUtils.parseNote note).
Proof.
  unfold proofUtils.parseNote.
  repeat match goal with
         | |- deterministic (if ?b then _ else _) => destruct b
         end;
    first [apply deterministic_throw | apply deterministic_ret].
Qed.

Lemma deterministic_parseInputs notes sender m kPublic :
  deterministic (proofUtils.parseInputs notes sender m kPublic).
Proof.
  unfold proofUtils.parseInputs.
  apply deterministic_bind.
  { apply deterministic_forEach. intros note []. apply deterministic_parseNote. }
  intros _. apply deterministic_bind.
  { destruct kPublic as [kp|]; [|apply deterministic_ret].
    destruct (_ && _); [apply deterministic_ret | apply deterministic_throw]. }
  intros _. destruct m as [mv|]; [|apply deterministic_ret].
  destruct (_ && _); [apply deterministic_ret | apply deterministic_throw].
Qed.

Lemma deterministic_noteRecord note kBar aBar :
  deterministic (proofUtils.noteRecord note kBar aBar).
Proof.
  unfold proofUtils.noteRecord.
  apply deterministic_bind; [apply deterministic_coordX | intros gx].
  apply deterministic_bind; [apply deterministic_coordY | intros gy].
  apply deterministic_bind; [apply deterministic_coordX | intros sx].
  apply deterministic_bind; [apply deterministic_coordY | intros sy].
  apply deterministic_ret.
Qed.

(** Results of a map, element by element. *)
Lemma mapWithIndex_Forall {A B : Type} (f : nat -> A -> M B) (P : B -> Prop) :
  (forall i v t b t', f i v t = Returns b t' -> P b) ->
  forall l i t bs t', mapWithIndex f i l t = Returns bs t' -> Forall P bs.
Proof.
  intros Hf. induction l as [|v l IH]; intros i t bs t' H; cbn [mapWithIndex] in H.
  - inv_ret H. subst bs. constructor.
  - split_bind H. split_bind H. inv_ret H. subst bs.
    constructor; [eapply Hf; eassumption | eapply IH; eassumption].
Qed.

Lemma mapWithIndex_length {A B : Type} (f : nat -> A -> M B) :
  forall l i t bs t', mapWithIndex f i l t = Returns bs t' ->
    List.length bs = List.length l.
Proof.
  induction l as [|v l IH]; intros i t bs t' H; cbn [mapWithIndex] in H.
  - inv_ret H. subst bs. reflexivity.
  - split_bind H. split_bind H. inv_ret H. subst bs.
    cbn [List.length]. f_equal. eapply IH; eassumption.
Qed.

Lemma mapWithClosure_length {A B St : Type} (f : nat -> A -> St -> M (B * St)) :
  forall l i s t bs s' t', mapWithClosure f i l s t = Returns (bs, s') t' ->
    List.length bs = List.length l.
Proof.
  induction l as [|v l IH]; intros i s t bs s' t' H; cbn [mapWithClosure] in H.
  - inv_ret H. inversion E. reflexivity.
  - split_bind H. destruct a as [b s1]. split_bind H. destruct a as [bs1 s2].
    inv_ret H. inversion E. subst.
    cbn [List.length]. f_equal. eapply IH; eassumption.
Qed.

(** ** privateRange: what the constructor computes *)

Arguments bn128.mul : simpl never.
Arguments bn128.add : simpl never.
Arguments bn128.randomGroupScalar : simpl never.
Arguments Keccak.keccak : simpl never.
Arguments JS.toString16 : simpl never.
Arguments JS.padLeft : simpl never.

Module PrivateRangeFacts.
Import privateRange.

Lemma blindingFactor_0 note c t f c' t' :
  blindingFactor 0 note c t = Returns (f, c') t' ->
  exists ba bk t1,
    bn128.randomGroupScalar t = Returns ba t1 /\
    bn128.randomGroupScalar t1 = Returns bk t' /\
    let P := bn128.add (bn128.mul (Note.gamma note) bk) (bn128.mul bn128.h ba) in
    f = BlindingFactor.make bk ba (Some P) /\
    c' = mkClosure (bkArray c ++ [bk]) (Some P) (x c) (rollingHash c).
Proof.
  intros H. unfold blindingFactor in H.
  unbind H as ba t1 Hba. unbind H as bk t2 Hbk.
  cbn [Nat.eqb] in H.
  unbind H as [bk' c1] t3 Hbranch.
  apply ret_returns in Hbranch as [Eb ->]. apply ret_returns in H as [Er ->].
  inversion Eb. inversion Er. subst.
  exists ba, bk', t1. conjuncts; auto.
Qed.

Lemma blindingFactor_1 note c t f c' t' :
  blindingFactor 1 note c t = Returns (f, c') t' ->
  exists ba bk t1,
    bn128.randomGroupScalar t = Returns ba t1 /\
    bn128.randomGroupScalar t1 = Returns bk t' /\
    let x1 := fst (Keccak.keccak (rollingHash c) bn128.n) in
    let P := weighted note bk ba x1 in
    f = BlindingFactor.make bk ba (Some P) /\
    c' = mkClosure (bkArray c ++ [bk]) (Some P) x1
           (snd (Keccak.keccak (rollingHash c) bn128.n)).
Proof.
  intros H. unfold blindingFactor in H.
  unbind H as ba t1 Hba. unbind H as bk t2 Hbk.
  cbn [Nat.eqb] in H.
  unbind H as [bk' c1] t3 Hbranch.
  destruct (Keccak.keccak (rollingHash c) bn128.n) as [x1 h1] eqn:Ek.
  apply ret_returns in Hbranch as [Eb ->]. apply ret_returns in H as [Er ->].
  inversion Eb. inversion Er. subst.
  exists ba, bk', t1. conjuncts; auto.
Qed.

Lemma blindingFactor_2 note c t f c' t' :
  blindingFactor 2 note c t = Returns (f, c') t' ->
  exists ba drawn bk0 bk1 t1,
    bn128.randomGroupScalar t = Returns ba t1 /\
    bn128.randomGroupScalar t1 = Returns drawn t' /\
    nth_error (bkArray c) 0 = Some bk0 /\
    nth_error (bkArray c) 1 = Some bk1 /\
    let bk := bn128.redSub bk0 bk1 in
    let x2 := fst (Keccak.keccak (rollingHash c) bn128.n) in
    let P := weighted note bk ba x2 in
    f = BlindingFactor.make bk ba (Some P) /\
    c' = mkClosure (bkArray c ++ [bk]) (Some P) x2
           (snd (Keccak.keccak (rollingHash c) bn128.n)).
Proof.
  intros H. unfold blindingFactor in H.
  unbind H as ba t1 Hba. unbind H as drawn t2 Hbk.
  cbn [Nat.eqb Nat.sub] in H.
  unbind H as [bk' c1] t3 Hbranch.
  unbind Hbranch as bk0 t4 H0. unbind Hbranch as bk1 t5 H1.
  unfold at_index in H0, H1.
  destruct (nth_error (bkArray c) 0) as [b0|] eqn:E0;
    [|destruct (throw_returns _ _ _ _ H0)].
  destruct (nth_error (bkArray c) 1) as [b1|] eqn:E1;
    [|destruct (throw_returns _ _ _ _ H1)].
  apply ret_returns in H0 as [-> ->]. apply ret_returns in H1 as [-> ->].
  destruct (Keccak.keccak (rollingHash c) bn128.n) as [x2 h2] eqn:Ek.
  apply ret_returns in Hbranch as [Eb ->]. apply ret_returns in H as [Er ->].
  inversion Eb. inversion Er. subst.
  exists ba, drawn, bk0, bk1, t1. conjuncts; auto.
Qed.

(** What [constructBlindingFactors] computes on three notes. *)
Lemma constructBlindingFactors_three n0 n1 n2 hash t fs hash' t' :
  constructBlindingFactors [n0; n1; n2] hash t = Returns (fs, hash') t' ->
  exists ba0 bk0 ba1 bk1 ba2 drawn t1 t2 t3 t4 t5 f0 f1 f2,
    bn128.randomGroupScalar t = Returns ba0 t1 /\
    bn128.randomGroupScalar t1 = Returns bk0 t2 /\
    bn128.randomGroupScalar t2 = Returns ba1 t3 /\
    bn128.randomGroupScalar t3 = Returns bk1 t4 /\
    bn128.randomGroupScalar t4 = Returns ba2 t5 /\
    bn128.randomGroupScalar t5 = Returns drawn t' /\
    fs = [f0; f1; f2] /\
    f0 = BlindingFactor.make bk0 ba0
           (Some (bn128.add (bn128.mul (Note.gamma n0) bk0)
                            (bn128.mul bn128.h ba0))) /\
    f1 = BlindingFactor.make bk1 ba1
           (Some (weighted n1 bk1 ba1 (fst (Keccak.keccak hash bn128.n)))) /\
    f2 = BlindingFactor.make (bn128.redSub bk0 bk1) ba2
           (Some (weighted n2 (bn128.redSub bk0 bk1) ba2
                    (fst (Keccak.keccak (snd (Keccak.keccak hash bn128.n))
                                        bn128.n)))) /\
    hash' = snd (Keccak.keccak (snd (Keccak.keccak hash bn128.n)) bn128.n).
Proof.
  intros H. unfold constructBlindingFactors in H.
  unbind H as [fs0 c3] u0 Hmap.
  apply ret_returns in H as [E ->]. inversion E; subst; clear E.
  cbn [mapWithClosure] in Hmap.
  unbind Hmap as [f0 c0] u1 Hf0. unbind Hmap as [fs1 c1'] u2 Hrest1.
  unbind Hrest1 as [f1 c1] u3 Hf1. unbind Hrest1 as [fs2 c2'] u4 Hrest2.
  unbind Hrest2 as [f2 c2] u5 Hf2. unbind Hrest2 as [fs3 c3'] u6 Hrest3.
  apply ret_returns in Hrest3 as [E3 ->]. apply ret_returns in Hrest2 as [E2 ->].
  apply ret_returns in Hrest1 as [E1 ->]. apply ret_returns in Hmap as [E0 ->].
  inversion E3; inversion E2; inversion E1; inversion E0; subst; clear E3 E2 E1 E0.
  apply blindingFactor_0 in Hf0 as (ba0 & bk0 & t1 & R0 & R1 & Ef0 & Ec0).
  apply blindingFactor_1 in Hf1 as (ba1 & bk1 & t3 & R2 & R3 & Ef1 & Ec1).
  apply blindingFactor_2 in Hf2
    as (ba2 & drawn & b0 & b1 & t5 & R4 & R5 & N0 & N1 & Ef2 & Ec2).
  cbv zeta in Ef0, Ef1, Ef2, Ec0, Ec1, Ec2.
  rewrite Ec0 in Ef1, Ec1. cbn [bkArray rollingHash x B] in Ef1, Ec1.
  rewrite Ec1 in Ef2, Ec2, N0, N1.
  cbn [bkArray rollingHash x B app nth_error] in Ef2, Ec2, N0, N1.
  injection N0 as <-. injection N1 as <-.
  rewrite Ec2. cbn [rollingHash].
  exists ba0, bk0, ba1, bk1, ba2, drawn, t1, u1, t3, u3, t5, f0, f1, f2.
  conjuncts; auto.
Qed.

End PrivateRangeFacts.

Module PrivateRangeRecords.
Import privateRange.

Lemma noteRecord_slots note kBar aBar t r t' :
  proofUtils.noteRecord note kBar aBar t = Returns r t' ->
  t' = t /\ List.length r = 6%nat /\
  kBarSlot r = hex64 (JS.toString16 kBar) /\
  aBarSlot r = hex64 (JS.toString16 aBar).
Proof.
  intros H. unfold proofUtils.noteRecord in H.
  unbind H as gx t1 Hgx. unbind H as gy t2 Hgy.
  unbind H as sx t3 Hsx. unbind H as sy t4 Hsy.
  apply ret_returns in H as [<- <-].
  apply deterministic_coordX in Hgx as [-> _].
  apply deterministic_coordY in Hgy as [-> _].
  apply deterministic_coordX in Hsx as [-> _].
  apply deterministic_coordY in Hsy as [-> _].
  conjuncts; reflexivity.
Qed.

(** The slots of one record of [constructProof]: aBar is always the
    response; kBar is the response for the first two records and the
    padded random filler afterwards. *)
Lemma proofRecord_slots notes c i bf t r t' :
  proofRecord notes c i bf t = Returns r t' ->
  exists note,
    nth_error notes i = Some note /\
    List.length r = 6%nat /\
    aBarSlot r = hex64 (JS.toString16
                          (bn128.redAdd (bn128.redMul (Note.a note) c)
                                        (BlindingFactor.ba bf))) /\
    (((i <= 1)%nat /\ t' = t /\
      kBarSlot r = hex64 (JS.toString16
                            (bn128.redAdd (bn128.redMul (Note.k note) c)
                                          (BlindingFactor.bk bf))))
     \/
     ((2 <= i)%nat /\ exists bytes,
        randomBytes 32 t = Returns bytes t' /\
        kBarSlot r =
          hex64 (JS.padLeft (JS.toString16 (JS.fromBytes bytes mod bn128.n)) 64))).
Proof.
  intros H. unfold proofRecord in H.
  unbind H as kBar t1 HkBar. unbind H as note t2 Hnote.
  unbind H as gx t3 Hgx. unbind H as gy t4 Hgy.
  unbind H as sx t5 Hsx. unbind H as sy t6 Hsy.
  apply ret_returns in H as [<- <-].
  apply deterministic_coordX in Hgx as [-> _].
  apply deterministic_coordY in Hgy as [-> _].
  apply deterministic_coordX in Hsx as [-> _].
  apply deterministic_coordY in Hsy as [-> _].
  unfold at_index in Hnote.
  destruct (nth_error notes i) as [nt|] eqn:En;
    [|destruct (throw_returns _ _ _ _ Hnote)].
  apply ret_returns in Hnote as [-> ->].
  exists note. split; [reflexivity|]. split; [reflexivity|].
  split; [reflexivity|].
  destruct (i <=? 1)%nat eqn:Ei.
  - left. apply Nat.leb_le in Ei.
    unbind HkBar as note' t7 Hnote'. unfold at_index in Hnote'. rewrite En in Hnote'.
    apply ret_returns in Hnote' as [-> ->].
    apply ret_returns in HkBar as [<- ->].
    conjuncts; auto.
  - right. apply Nat.leb_gt in Ei. split; [lia|].
    unbind HkBar as bytes t7 Hbytes.
    apply ret_returns in HkBar as [<- ->].
    exists bytes. split; [assumption | reflexivity].
Qed.

Lemma filler_slot (v : Z) :
  isGroupScalar v ->
  hex64 (JS.padLeft (JS.toString16 v) 64) = hex64 (JS.toString16 v).
Proof.
  intros Hv. unfold hex64. f_equal.
  apply HexFacts.padLeft_again; [apply HexFacts.toString16_isHex|].
  apply HexFacts.toString16_length; [|lia].
  change (16 ^ Z.of_nat 64) with (2 ^ 256). now apply group_scalar_fits.
Qed.

(** Every record carries both scalar slots, and both hold group scalars. *)
Lemma proofRecord_scalars notes c i bf t r t' :
  proofRecord notes c i bf t = Returns r t' ->
  scalarSlot r 0 /\ scalarSlot r 1.
Proof.
  intros H. apply proofRecord_slots in H
    as (note & _ & Hlen & Ha & [(_ & _ & Hk) | (_ & bytes & _ & Hk)]).
  - eapply scalar_slots; [exact Hlen | exact Hk | exact Ha | |];
      unfold bn128.redAdd; apply mod_n_scalar.
  - rewrite filler_slot in Hk by apply mod_n_scalar.
    eapply scalar_slots; [exact Hlen | exact Hk | exact Ha | |];
      unfold bn128.redAdd; apply mod_n_scalar.
Qed.

(** The run of [constructProof] on three notes, step by step. *)
Lemma constructProof_three n0 n1 n2 sender t proof t' :
  constructProof [n0; n1; n2] sender t = Returns proof t' ->
  exists hash f0 f1 f2 hash' t6 c bytes r0 r1 r2,
    appendNotes [n0; n1; n2] Keccak.new t = Returns hash t /\
    constructBlindingFactors [n0; n1; n2] hash t =
      Returns ([f0; f1; f2], hash') t6 /\
    proofUtils.computeChallenge
      [proofUtils.CAddress sender; proofUtils.CNotes [n0; n1; n2];
       proofUtils.CFactors [f0; f1; f2]] t6 = Returns c t6 /\
    randomBytes 32 t6 = Returns bytes t' /\
    proof = Proof.make [r0; r1; r2] (hex64 (JS.toString16 c)) /\
    kBarSlot r0 = hex64 (JS.toString16 (proofUtils.kBarResponse n0 c f0)) /\
    kBarSlot r1 = hex64 (JS.toString16 (proofUtils.kBarResponse n1 c f1)) /\
    kBarSlot r2 = hex64 (JS.toString16 (JS.fromBytes bytes mod bn128.n)) /\
    aBarSlot r0 = hex64 (JS.toString16 (proofUtils.aBarResponse n0 c f0)) /\
    aBarSlot r1 = hex64 (JS.toString16 (proofUtils.aBarResponse n1 c f1)) /\
    aBarSlot r2 = hex64 (JS.toString16 (proofUtils.aBarResponse n2 c f2)).
Proof.
  intros H. unfold constructProof in H.
  unbind H as u t1 Hparse.
  apply deterministic_parseInputs in Hparse as [-> _].
  unbind H as hash t2 Hhash.
  pose proof (deterministic_appendNotes _ _ _ _ _ Hhash) as [-> _].
  unbind H as [fs hash'] t6 Hfs.
  unbind H as c t7 Hc.
  pose proof (deterministic_computeChallenge _ _ _ _ Hc) as [-> _].
  unbind H as records t8 Hrec.
  apply ret_returns in H as [<- ->].
  pose proof (PrivateRangeFacts.constructBlindingFactors_three _ _ _ _ _ _ _ _ Hfs)
    as (ba0 & bk0 & ba1 & bk1 & ba2 & drawn & u1 & u2 & u3 & u4 & u5
        & f0 & f1 & f2 & _ & _ & _ & _ & _ & _ & Efs & _).
  subst fs.
  cbn [mapWithIndex] in Hrec.
  unbind Hrec as r0 v1 Hr0. unbind Hrec as rs1 v2 Hrest1.
  unbind Hrest1 as r1 v3 Hr1. unbind Hrest1 as rs2 v4 Hrest2.
  unbind Hrest2 as r2 v5 Hr2. unbind Hrest2 as rs3 v6 Hrest3.
  apply ret_returns in Hrest3 as [<- ->]. apply ret_returns in Hrest2 as [<- ->].
  apply ret_returns in Hrest1 as [<- ->]. apply ret_returns in Hrec as [<- ->].
  apply proofRecord_slots in Hr0
    as (m0 & E0 & _ & Ha0 & [(_ & -> & Hk0) | (Hi & _)]); [|lia].
  apply proofRecord_slots in Hr1
    as (m1 & E1 & _ & Ha1 & [(_ & -> & Hk1) | (Hi & _)]); [|lia].
  apply proofRecord_slots in Hr2
    as (m2 & E2 & _ & Ha2 & [(Hi & _) | (_ & bytes & Hbytes & Hk2)]); [lia|].
  cbn [nth_error] in E0, E1, E2.
  inversion E0; inversion E1; inversion E2; subst m0 m1 m2.
  rewrite filler_slot in Hk2 by apply mod_n_scalar.
  exists hash, f0, f1, f2, hash', t6, c, bytes, r0, r1, r2.
  conjuncts; first [assumption | reflexivity].
Qed.

End PrivateRangeRecords.

(** ** The worked scenario, evaluated *)

Lemma Scenario_rollingHash :
  appendNotes Scenario.notes Keccak.new Scenario.tape =
  Returns Scenario.rollingHash Scenario.tape.
Proof. vm_compute. reflexivity. Qed.

Lemma Scenario_factors :
  privateRange.constructBlindingFactors Scenario.notes Scenario.rollingHash
    Scenario.tape =
  Returns (Scenario.factors, Scenario.factorsHash) Scenario.factorsRest.
Proof. vm_compute. reflexivity. Qed.

Lemma Scenario_run :
  privateRange.constructProof Scenario.notes Scenario.sender Scenario.tape =
  Returns Scenario.proof Scenario.rest.
Proof. vm_compute. reflexivity. Qed.

(** ** privateRange: the claims *)

Lemma redResponse (k c b : Z) :
  bn128.redAdd (bn128.redMul k c) b = (k * c + b) mod bn128.n.
Proof. unfold bn128.redAdd, bn128.redMul. apply Zplus_mod_idemp_l. Qed.

(** C1.  In a private-range proof over three notes, the kBar slots of the
    first two records hold k_i c + bk_i modulo n and the aBar slots of all
    three records hold a_i c + ba_i modulo n, where c is the challenge the
    proof reports and (bk_i, ba_i) are the blinding scalars that
    [constructBlindingFactors] produced for note i. *)
Theorem privateRange_responses n0 n1 n2 sender t proof t' :
  privateRange.constructProof [n0; n1; n2] sender t = Returns proof t' ->
  exists hash f0 f1 f2 hash' t6 c r0 r1 r2,
    appendNotes [n0; n1; n2] Keccak.new t = Returns hash t /\
    privateRange.constructBlindingFactors [n0; n1; n2] hash t =
      Returns ([f0; f1; f2], hash') t6 /\
    proofUtils.computeChallenge
      [proofUtils.CAddress sender; proofUtils.CNotes [n0; n1; n2];
       proofUtils.CFactors [f0; f1; f2]] t6 = Returns c t6 /\
    Proof.challenge proof = hex64 (JS.toString16 c) /\
    Proof.proofData proof = [r0; r1; r2] /\
    decode (kBarSlot r0) = (Note.k n0 * c + BlindingFactor.bk f0) mod bn128.n /\
    decode (kBarSlot r1) = (Note.k n1 * c + BlindingFactor.bk f1) mod bn128.n /\
    decode (aBarSlot r0) = (Note.a n0 * c + BlindingFactor.ba f0) mod bn128.n /\
    decode (aBarSlot r1) = (Note.a n1 * c + BlindingFactor.ba f1) mod bn128.n /\
    decode (aBarSlot r2) = (Note.a n2 * c + BlindingFactor.ba f2) mod bn128.n.
Proof.
  intros H.
  apply PrivateRangeRecords.constructProof_three in H
    as (hash & f0 & f1 & f2 & hash' & t6 & c & bytes & r0 & r1 & r2
        & Hhash & Hfs & Hc & _ & -> & Hk0 & Hk1 & _ & Ha0 & Ha1 & Ha2).
  exists hash, f0, f1, f2, hash', t6, c, r0, r1, r2.
  rewrite Hk0, Hk1, Ha0, Ha1, Ha2.
  unfold proofUtils.kBarResponse, proofUtils.aBarResponse.
  rewrite !decode_hex64 by (apply Z.mod_pos_bound; reflexivity).
  rewrite !redResponse.
  conjuncts; auto.
Qed.

Lemma privateRange_responses_witness :
  privateRange.constructProof Scenario.notes Scenario.sender Scenario.tape =
    Returns Scenario.proof Scenario.rest /\
  exists c r0 r1 r2 f0 f1 f2,
    Proof.challenge Scenario.proof = hex64 (JS.toString16 c) /\
    Proof.proofData Scenario.proof = [r0; r1; r2] /\
    decode (kBarSlot r0) = (10 * c + BlindingFactor.bk f0) mod bn128.n /\
    decode (kBarSlot r1) = (4 * c + BlindingFactor.bk f1) mod bn128.n /\
    decode (aBarSlot r2) = (1111111 * c + BlindingFactor.ba f2) mod bn128.n.
Proof.
  split; [exact Scenario_run|].
  destruct (privateRange_responses _ _ _ _ _ _ _ Scenario_run)
    as (hash & f0 & f1 & f2 & hash' & t6 & c & r0 & r1 & r2
        & _ & _ & _ & Hc & Hd & Hk0 & Hk1 & _ & _ & Ha2).
  exists c, r0, r1, r2, f0, f1, f2. conjuncts; assumption.
Defined.

Lemma differ_when_eq_fails (P Q : bn128.Point) :
  bn128.eq P Q = false -> Some P <> Some Q.
Proof.
  intros H E. injection E as ->.
  destruct Q as [|x y]; cbn [bn128.eq] in H; [discriminate|].
  rewrite !Z.eqb_refl in H. discriminate.
Qed.

(** C9.  For three notes, the records returned by
    [constructBlindingFactors] satisfy bk_2 = bk_0 - bk_1 modulo n: the
    difference is stored in the third record itself. *)
Theorem privateRange_third_bk n0 n1 n2 hash t f0 f1 f2 hash' t' :
  privateRange.constructBlindingFactors [n0; n1; n2] hash t =
    Returns ([f0; f1; f2], hash') t' ->
  BlindingFactor.bk f2 =
  (BlindingFactor.bk f0 - BlindingFactor.bk f1) mod bn128.n.
Proof.
  intros H.
  apply PrivateRangeFacts.constructBlindingFactors_three in H
    as (ba0 & bk0 & ba1 & bk1 & ba2 & drawn & t1 & t2 & t3 & t4 & t5
        & g0 & g1 & g2 & _ & _ & _ & _ & _ & _ & Efs & E0 & E1 & E2 & _).
  injection Efs as -> -> ->. rewrite E0, E1, E2.
  cbn [BlindingFactor.bk]. reflexivity.
Qed.

Lemma privateRange_third_bk_witness :
  privateRange.constructBlindingFactors Scenario.notes Scenario.rollingHash
    Scenario.tape =
    Returns (Scenario.factors, Scenario.factorsHash) Scenario.factorsRest /\
  exists f0 f1 f2,
    Scenario.factors = [f0; f1; f2] /\
    BlindingFactor.bk f0 = 2000003 /\
    BlindingFactor.bk f1 = 4000037 /\
    BlindingFactor.bk f2 = (2000003 - 4000037) mod bn128.n.
Proof.
  split; [exact Scenario_factors|].
  eexists _, _, _. split; [reflexivity|].
  split; [reflexivity|]. split; [reflexivity|].
  exact (privateRange_third_bk _ _ _ _ _ _ _ _ _ _ Scenario_factors).
Defined.

(** C2, as amended.  For three notes, B_0 = bk_0 gamma_0 + ba_0 h carries no
    rolling-hash factor; B_1 = (bk_1 x_1) gamma_1 + (ba_1 x_1) h, where x_1 is
    the digest of the rolling hash over the notes, reduced modulo n; and
    B_2 = ((bk_0 - bk_1) x_2) gamma_2 + (ba_2 x_2) h, where x_2 is the result
    of finalizing the rolling hash a second time, that is the digest of the
    32-byte digest the first finalization left in the buffer, reduced
    modulo n. *)
Theorem privateRange_blinding_points n0 n1 n2 hash t f0 f1 f2 hash' t' :
  privateRange.constructBlindingFactors [n0; n1; n2] hash t =
    Returns ([f0; f1; f2], hash') t' ->
  let x1 := JS.fromBytes (Keccak256.digest hash) mod bn128.n in
  let x2 := JS.fromBytes (Keccak256.digest (Keccak256.digest hash)) mod bn128.n in
  BlindingFactor.B f0 =
    Some (bn128.add (bn128.mul (Note.gamma n0) (BlindingFactor.bk f0))
                    (bn128.mul bn128.h (BlindingFactor.ba f0))) /\
  BlindingFactor.B f1 =
    Some (bn128.add
            (bn128.mul (Note.gamma n1) (bn128.redMul (BlindingFactor.bk f1) x1))
            (bn128.mul bn128.h (bn128.redMul (BlindingFactor.ba f1) x1))) /\
  BlindingFactor.B f2 =
    Some (bn128.add
            (bn128.mul (Note.gamma n2)
               (bn128.redMul
                  (bn128.redSub (BlindingFactor.bk f0) (BlindingFactor.bk f1)) x2))
            (bn128.mul bn128.h (bn128.redMul (BlindingFactor.ba f2) x2))).
Proof.
  intros H.
  apply PrivateRangeFacts.constructBlindingFactors_three in H
    as (ba0 & bk0 & ba1 & bk1 & ba2 & drawn & t1 & t2 & t3 & t4 & t5
        & g0 & g1 & g2 & _ & _ & _ & _ & _ & _ & Efs & E0 & E1 & E2 & _).
  injection Efs as -> -> ->. rewrite E0, E1, E2. cbv zeta.
  cbn [BlindingFactor.B BlindingFactor.bk BlindingFactor.ba].
  conjuncts; reflexivity.
Qed.

Lemma privateRange_blinding_points_witness :
  privateRange.constructBlindingFactors Scenario.notes Scenario.rollingHash
    Scenario.tape =
    Returns (Scenario.factors, Scenario.factorsHash) Scenario.factorsRest /\
  exists f0 f1 f2,
    Scenario.factors = [f0; f1; f2] /\
    BlindingFactor.B f2 =
      Some (weighted Scenario.utility
              (bn128.redSub (BlindingFactor.bk f0) (BlindingFactor.bk f1))
              (BlindingFactor.ba f2)
              (JS.fromBytes (Keccak256.digest (Keccak256.digest Scenario.rollingHash))
               mod bn128.n)).
Proof.
  split; [exact Scenario_factors|].
  eexists _, _, _. split; [reflexivity|].
  exact (proj2 (proj2
    (privateRange_blinding_points _ _ _ _ _ _ _ _ _ _ Scenario_factors))).
Defined.

(** C2, as stated, fails: on the scenario's notes the third blinding point
    is not ((bk_0 - bk_1) x) gamma_2 + (ba_2 x) h for the scalar x that
    finalizing the rolling hash over the notes yields (the x of B_1). *)
Lemma privateRange_blinding_points_counterexample :
  exists f0 f1 f2 hash' rest,
    appendNotes Scenario.notes Keccak.new Scenario.tape =
      Returns Scenario.rollingHash Scenario.tape /\
    privateRange.constructBlindingFactors Scenario.notes Scenario.rollingHash
      Scenario.tape = Returns ([f0; f1; f2], hash') rest /\
    let x := JS.fromBytes (Keccak256.digest Scenario.rollingHash) mod bn128.n in
    BlindingFactor.B f1 =
      Some (weighted Scenario.comparison (BlindingFactor.bk f1)
              (BlindingFactor.ba f1) x) /\
    BlindingFactor.B f2 <>
      Some (weighted Scenario.utility
              (bn128.redSub (BlindingFactor.bk f0) (BlindingFactor.bk f1))
              (BlindingFactor.ba f2) x).
Proof.
  eexists _, _, _, _, _.
  split; [exact Scenario_rollingHash|].
  split; [exact Scenario_factors|].
  cbv zeta. split.
  - destruct (PrivateRangeFacts.constructBlindingFactors_three _ _ _ _ _ _ _ _
                Scenario_factors)
      as (ba0 & bk0 & ba1 & bk1 & ba2 & drawn & t1 & t2 & t3 & t4 & t5
          & g0 & g1 & g2 & _ & _ & _ & _ & _ & _ & Efs & _ & E1 & _).
    injection Efs as _ <- _. rewrite E1. reflexivity.
  - apply differ_when_eq_fails. vm_compute. reflexivity.
Qed.

(** The third kBar slot of a proof over three notes is read off the entropy
    tape alone. *)
Lemma privateRange_filler n0 n1 n2 sender t proof t' :
  privateRange.constructProof [n0; n1; n2] sender t = Returns proof t' ->
  exists bytes r0 r1 r2,
    fillerBytes t = Returns bytes t' /\
    Proof.proofData proof = [r0; r1; r2] /\
    kBarSlot r2 = hex64 (JS.toString16 (JS.fromBytes bytes mod bn128.n)).
Proof.
  intros H.
  apply PrivateRangeRecords.constructProof_three in H
    as (hash & f0 & f1 & f2 & hash' & t6 & c & bytes & r0 & r1 & r2
        & _ & Hfs & _ & Hbytes & -> & _ & _ & Hk2 & _).
  apply PrivateRangeFacts.constructBlindingFactors_three in Hfs
    as (ba0 & bk0 & ba1 & bk1 & ba2 & drawn & t1 & t2 & t3 & t4 & t5
        & g0 & g1 & g2 & R0 & R1 & R2 & R3 & R4 & R5 & _).
  exists bytes, r0, r1, r2. split; [|split; [reflexivity | exact Hk2]].
  unfold fillerBytes.
  rewrite (bind_of_returns _ _ _ _ _ R0), (bind_of_returns _ _ _ _ _ R1),
    (bind_of_returns _ _ _ _ _ R2), (bind_of_returns _ _ _ _ _ R3),
    (bind_of_returns _ _ _ _ _ R4), (bind_of_returns _ _ _ _ _ R5).
  exact Hbytes.
Qed.

(** C5.  In a private-range proof over three notes the third record's kBar
    slot is a filler: the 32 fresh bytes read from the entropy tape once the
    six blinding scalars have been drawn, reduced modulo n, hence a scalar
    in [0, n); any other proof built from the same tape, whatever its notes
    and sender (and so whatever its values and challenge), carries the same
    filler. *)
Theorem privateRange_third_kBar_is_filler n0 n1 n2 sender t proof t' :
  privateRange.constructProof [n0; n1; n2] sender t = Returns proof t' ->
  exists bytes r0 r1 r2,
    fillerBytes t = Returns bytes t' /\
    Proof.proofData proof = [r0; r1; r2] /\
    kBarSlot r2 = hex64 (JS.toString16 (JS.fromBytes bytes mod bn128.n)) /\
    decode (kBarSlot r2) = JS.fromBytes bytes mod bn128.n /\
    isGroupScalar (decode (kBarSlot r2)) /\
    forall m0 m1 m2 sender' proof' t'',
      privateRange.constructProof [m0; m1; m2] sender' t = Returns proof' t'' ->
      exists s0 s1 s2,
        Proof.proofData proof' = [s0; s1; s2] /\ kBarSlot s2 = kBarSlot r2.
Proof.
  intros H.
  destruct (privateRange_filler _ _ _ _ _ _ _ H)
    as (bytes & r0 & r1 & r2 & Hfill & Hdata & Hk2).
  exists bytes, r0, r1, r2.
  assert (Hdec : decode (kBarSlot r2) = JS.fromBytes bytes mod bn128.n).
  { rewrite Hk2. apply decode_hex64. apply Z.mod_pos_bound. reflexivity. }
  do 4 (split; [assumption|]).
  split.
  - rewrite Hdec. apply mod_n_scalar.
  - intros m0 m1 m2 sender' proof' t'' H'.
    destruct (privateRange_filler _ _ _ _ _ _ _ H')
      as (bytes' & s0 & s1 & s2 & Hfill' & Hdata' & Hk2').
    rewrite Hfill in Hfill'. injection Hfill' as <- <-.
    exists s0, s1, s2. split; [assumption|]. rewrite Hk2, Hk2'. reflexivity.
Qed.

Lemma privateRange_third_kBar_is_filler_witness :
  privateRange.constructProof Scenario.notes Scenario.sender Scenario.tape =
    Returns Scenario.proof Scenario.rest /\
  exists bytes r0 r1 r2,
    fillerBytes Scenario.tape = Returns bytes Scenario.rest /\
    Proof.proofData Scenario.proof = [r0; r1; r2] /\
    decode (kBarSlot r2) = JS.fromBytes bytes mod bn128.n /\
    isGroupScalar (decode (kBarSlot r2)).
Proof.
  split; [exact Scenario_run|].
  destruct (privateRange_third_kBar_is_filler _ _ _ _ _ _ _ Scenario_run)
    as (bytes & r0 & r1 & r2 & Hfill & Hdata & _ & Hdec & Hrange & _).
  exists bytes, r0, r1, r2. do 3 (split; [assumption|]). exact Hrange.
Defined.

(** In the scenario the filler is the ninth block of the tape (two blocks
    are rejected on the way) and differs from the response k_2 c + bk_2 that
    the slot would otherwise hold. *)
Example Scenario_filler :
  exists r0 r1 r2 f0 f1 f2,
    Proof.proofData Scenario.proof = [r0; r1; r2] /\
    Scenario.factors = [f0; f1; f2] /\
    decode (kBarSlot r2) = 123456789012345678901234567890 /\
    decode (kBarSlot r2) <>
      (Note.k Scenario.utility * decode (Proof.challenge Scenario.proof)
       + BlindingFactor.bk f2) mod bn128.n.
Proof.
  eexists _, _, _, _, _, _.
  split; [reflexivity|]. split; [reflexivity|].
  split; [vm_compute; reflexivity|].
  apply Z.eqb_neq. vm_compute. reflexivity.
Qed.

(** Every record of a private-range proof, over any number of notes, holds
    group scalars in its kBar and aBar slots. *)
Lemma privateRange_scalars notes sender t proof t' :
  privateRange.constructProof notes sender t = Returns proof t' ->
  allGroupScalars (Proof.proofData proof).
Proof.
  intros H. unfold privateRange.constructProof in H.
  unbind H as u t1 Hparse. unbind H as hash t2 Hhash.
  unbind H as [fs hash'] t6 Hfs. unbind H as c t7 Hc.
  unbind H as records t8 Hrec.
  apply ret_returns in H as [<- _]. cbn [Proof.proofData].
  eapply mapWithIndex_Forall; [|exact Hrec].
  intros i bf u0 r u1 Hr.
  eapply PrivateRangeRecords.proofRecord_scalars; exact Hr.
Qed.

(** C10.  Whatever the notes and the sender, and whatever the ABI coders,
    [encodePrivateRangeTransaction] derives the expected output from the
    encoding of a single proof output whose public owner is the zero address
    and whose public value is 0; its input notes are the original and the
    comparison notes, its output notes the utility notes, and its challenge
    the challenge of the proof. *)
Theorem encodePrivateRangeTransaction_public_fields
    (inputCoder : list (list string) -> string -> list string -> list string ->
                  list Note.t -> M string)
    (outputCoder : list privateRange.ProofOutput -> M string)
    originalNote comparisonNote utilityNote senderAddress t tx t' :
  privateRange.encodePrivateRangeTransaction inputCoder outputCoder
    originalNote comparisonNote utilityNote senderAddress t = Returns tx t' ->
  exists proof t1 t2 encoded,
    privateRange.constructProof
      ((originalNote ++ comparisonNote) ++ utilityNote) senderAddress t =
      Returns proof t1 /\
    outputCoder
      [privateRange.mkProofOutput (originalNote ++ comparisonNote) utilityNote
         "0x0000000000000000000000000000000000000000" 0
         (Proof.challenge proof)] t2 = Returns encoded t' /\
    privateRange.expectedOutput tx = ("0x" ++ JS.slice 66 encoded)%string.
Proof.
  intros H. unfold privateRange.encodePrivateRangeTransaction in H.
  unbind H as proof t1 Hproof. unbind H as data t2 Hdata.
  unbind H as encoded t3 Hencoded.
  apply ret_returns in H as [<- <-].
  exists proof, t1, t2, encoded. conjuncts; [assumption | assumption | reflexivity].
Qed.

Lemma Scenario_transaction :
  privateRange.encodePrivateRangeTransaction Scenario.listingInputCoder
    Scenario.listingOutputCoder [Scenario.original] [Scenario.comparison]
    [Scenario.utility] Scenario.sender Scenario.tape =
  Returns Scenario.transaction Scenario.rest.
Proof.
  unfold privateRange.encodePrivateRangeTransaction. cbn [app].
  etransitivity; [exact (bind_of_returns _ _ _ _ _ Scenario_run)|].
  vm_compute. reflexivity.
Qed.

Lemma encodePrivateRangeTransaction_public_fields_witness :
  privateRange.encodePrivateRangeTransaction Scenario.listingInputCoder
    Scenario.listingOutputCoder [Scenario.original] [Scenario.comparison]
    [Scenario.utility] Scenario.sender Scenario.tape =
    Returns Scenario.transaction Scenario.rest /\
  exists proof t2 encoded,
    Scenario.listingOutputCoder
      [privateRange.mkProofOutput [Scenario.original; Scenario.comparison]
         [Scenario.utility] "0x0000000000000000000000000000000000000000" 0
         (Proof.challenge proof)] t2 = Returns encoded Scenario.rest /\
    privateRange.expectedOutput Scenario.transaction =
      ("0x" ++ JS.slice 66 encoded)%string.
Proof.
  split; [exact Scenario_transaction|].
  destruct (encodePrivateRangeTransaction_public_fields _ _ _ _ _ _ _ _ _
              Scenario_transaction) as (proof & t1 & t2 & encoded & _ & Henc & Hout).
  exists proof, t2, encoded. split; [exact Henc | exact Hout].
Defined.

(** ** The constructors known through their tests *)

Lemma computeChallenge_scalar vars t c t' :
  proofUtils.computeChallenge vars t = Returns c t' -> isGroupScalar c.
Proof.
  intros H. unfold proofUtils.computeChallenge in H.
  unbind H as hash t1 Hhash. apply ret_returns in H as [<- _].
  unfold Keccak.keccak. cbn [fst]. apply mod_n_scalar.
Qed.

Lemma length_challenge (c : Z) :
  isGroupScalar c -> String.length (hex64 (JS.toString16 c)) = 66%nat.
Proof. intros H. apply length_hex64. now apply group_scalar_fits. Qed.

Lemma response_scalars note c bf :
  isGroupScalar (proofUtils.kBarResponse note c bf) /\
  isGroupScalar (proofUtils.aBarResponse note c bf).
Proof.
  unfold proofUtils.kBarResponse, proofUtils.aBarResponse, bn128.redAdd.
  split; apply mod_n_scalar.
Qed.

Lemma responseRecord_slots notes c i bf t r t' :
  proofUtils.responseRecord notes c i bf t = Returns r t' ->
  exists note,
    nth_error notes i = Some note /\
    List.length r = 6%nat /\
    kBarSlot r = hex64 (JS.toString16 (proofUtils.kBarResponse note c bf)) /\
    aBarSlot r = hex64 (JS.toString16 (proofUtils.aBarResponse note c bf)).
Proof.
  intros H. unfold proofUtils.responseRecord in H.
  unbind H as note t1 Hnote. unfold at_index in Hnote.
  destruct (nth_error notes i) as [nt|] eqn:En;
    [|destruct (throw_returns _ _ _ _ Hnote)].
  apply ret_returns in Hnote as [-> ->].
  apply PrivateRangeRecords.noteRecord_slots in H as (_ & Hl & Hk & Ha).
  exists note. conjuncts; auto.
Qed.

Lemma responseRecord_scalars notes c i bf t r t' :
  proofUtils.responseRecord notes c i bf t = Returns r t' ->
  scalarSlot r 0 /\ scalarSlot r 1.
Proof.
  intros H. apply responseRecord_slots in H as (note & _ & Hlen & Hk & Ha).
  destruct (response_scalars note c bf) as [Sk Sa].
  eapply scalar_slots; eassumption.
Qed.

(** The record at position [j] of a map is the callback's result there. *)
Lemma mapWithIndex_nth {A B : Type} (f : nat -> A -> M B) :
  forall l i t bs t', mapWithIndex f i l t = Returns bs t' ->
    forall j b, nth_error bs j = Some b ->
      exists v u u', nth_error l j = Some v /\ f (i + j)%nat v u = Returns b u'.
Proof.
  induction l as [|v l IH]; intros i t bs t' H j b Hj; cbn [mapWithIndex] in H.
  - apply ret_returns in H as [<- _]. destruct j; discriminate.
  - unbind H as b0 t1 Hb0. unbind H as bs0 t2 Hrest.
    apply ret_returns in H as [<- _].
    destruct j as [|j]; cbn [nth_error] in Hj |- *.
    + injection Hj as <-. exists v, t, t1. rewrite Nat.add_0_r. split; auto.
    + destruct (IH _ _ _ _ Hrest _ _ Hj) as (w & u & u' & Hw & Hf).
      exists w, u, u'. split; [assumption|].
      replace (i + S j)%nat with (S i + j)%nat by lia. assumption.
Qed.

Module JoinSplitFacts.

Lemma parseInputs_kPublic notes sender m kPublic t u t' :
  proofUtils.parseInputs notes sender m (Some kPublic) t = Returns u t' ->
  isGroupScalar kPublic.
Proof.
  intros H. unfold proofUtils.parseInputs in H.
  unbind H as u1 t1 Hnotes. unbind H as u2 t2 Hk.
  destruct ((0 <=? kPublic) && (kPublic <? bn128.n)) eqn:E;
    [|destruct (throw_returns _ _ _ _ Hk)].
  apply andb_true_iff in E as [E1 E2].
  apply Z.leb_le in E1. apply Z.ltb_lt in E2. split; assumption.
Qed.

Lemma joinSplit_record_slots notes kPublic c i bf t r t' :
  joinSplit.proofRecord notes kPublic c i bf t = Returns r t' ->
  exists note,
    nth_error notes i = Some note /\
    List.length r = 6%nat /\
    kBarSlot r =
      hex64 (JS.toString16
               (if (S i =? List.length notes)%nat then kPublic
                else proofUtils.kBarResponse note c bf)) /\
    aBarSlot r = hex64 (JS.toString16 (proofUtils.aBarResponse note c bf)).
Proof.
  intros H. unfold joinSplit.proofRecord in H.
  unbind H as note t1 Hnote. unfold at_index in Hnote.
  destruct (nth_error notes i) as [nt|] eqn:En;
    [|destruct (throw_returns _ _ _ _ Hnote)].
  apply ret_returns in Hnote as [-> ->].
  apply PrivateRangeRecords.noteRecord_slots in H as (_ & Hl & Hk & Ha).
  exists note. conjuncts; auto.
Qed.

Lemma joinSplit_record_scalars notes kPublic c i bf t r t' :
  isGroupScalar kPublic ->
  joinSplit.proofRecord notes kPublic c i bf t = Returns r t' ->
  scalarSlot r 0 /\ scalarSlot r 1.
Proof.
  intros HkP H. apply joinSplit_record_slots in H as (note & _ & Hlen & Hk & Ha).
  destruct (response_scalars note c bf) as [Sk Sa].
  eapply scalar_slots; [exact Hlen | exact Hk | exact Ha | | exact Sa].
  destruct (S i =? List.length notes)%nat; assumption.
Qed.

(** The run of the join-split constructor, step by step. *)
Lemma constructProof_steps {St : Type} (init : Keccak.t -> Z -> Z -> St)
    (schema : Schema St) notes m sender kPublic t proof t' :
  joinSplit.constructProof init schema notes m sender kPublic t =
    Returns proof t' ->
  exists blindingFactors c t1 t2,
    isGroupScalar kPublic /\ isGroupScalar c /\
    List.length blindingFactors = List.length notes /\
    mapWithIndex (joinSplit.proofRecord notes kPublic c) 0 blindingFactors t1 =
      Returns (Proof.proofData proof) t2 /\
    Proof.challenge proof = hex64 (JS.toString16 c).
Proof.
  intros H. unfold joinSplit.constructProof in H.
  unbind H as u t1 Hparse. unbind H as hash t2 Hhash.
  unbind H as [fs st] t3 Hfs. unbind H as c t4 Hc.
  unbind H as records t5 Hrec.
  apply ret_returns in H as [<- _].
  exists fs, c, t4, t5. conjuncts.
  - eapply parseInputs_kPublic; exact Hparse.
  - eapply computeChallenge_scalar; exact Hc.
  - eapply mapWithClosure_length; exact Hfs.
  - exact Hrec.
  - reflexivity.
Qed.

End JoinSplitFacts.

(** C4.  A join-split proof over N notes has N records of six slots and a
    challenge string of 66 characters; kPublic is a scalar in [0, n), and the
    last record's kBar slot is kPublic written on 64 digits, so that it
    decodes to kPublic (to 0 when kPublic is 0).  This holds for every
    blinding-factor schema. *)
Theorem joinSplit_well_formed {St : Type} (init : Keccak.t -> Z -> Z -> St)
    (schema : Schema St) notes m sender kPublic t proof t' :
  joinSplit.constructProof init schema notes m sender kPublic t =
    Returns proof t' ->
  List.length (Proof.proofData proof) = List.length notes /\
  Forall (fun r => List.length r = 6%nat) (Proof.proofData proof) /\
  String.length (Proof.challenge proof) = 66%nat /\
  isGroupScalar kPublic /\
  (notes <> [] ->
   exists r,
     nth_error (Proof.proofData proof) (List.length notes - 1) = Some r /\
     kBarSlot r = hex64 (JS.toString16 kPublic) /\
     decode (kBarSlot r) = kPublic).
Proof.
  intros H.
  destruct (JoinSplitFacts.constructProof_steps _ _ _ _ _ _ _ _ _ H)
    as (fs & c & t1 & t2 & HkP & Hc & Hlen & Hrec & Hch).
  pose proof (mapWithIndex_length _ _ _ _ _ _ Hrec) as Hlen'.
  split; [congruence|]. split.
  { eapply mapWithIndex_Forall; [|exact Hrec].
    intros i bf u r u' Hr.
    apply JoinSplitFacts.joinSplit_record_slots in Hr as (note & _ & Hl & _). exact Hl. }
  split; [rewrite Hch; now apply length_challenge|].
  split; [exact HkP|].
  intros Hne.
  assert (Hpos : (List.length notes - 1 < List.length (Proof.proofData proof))%nat).
  { destruct notes; [congruence|]. cbn [List.length] in *. lia. }
  destruct (nth_error (Proof.proofData proof) (List.length notes - 1)) as [r|] eqn:Er;
    [|apply nth_error_None in Er; lia].
  exists r. split; [reflexivity|].
  destruct (mapWithIndex_nth _ _ _ _ _ _ Hrec _ _ Er) as (bf & u & u' & _ & Hr).
  apply JoinSplitFacts.joinSplit_record_slots in Hr as (note & _ & _ & Hk & _).
  cbn [Nat.add] in Hk.
  replace (S (List.length notes - 1) =? List.length notes)%nat with true in Hk
    by (symmetry; apply Nat.eqb_eq; lia).
  split; [exact Hk|]. rewrite Hk. apply decode_hex64. apply HkP.
Qed.

Lemma Scenario_joinSplit :
  joinSplit.constructProof Scenario.joinSplitInit standardSchema
    Scenario.joinSplitNotes 2 Scenario.sender 0 Scenario.tape =
  Returns Scenario.joinSplitProof Scenario.joinSplitRest.
Proof. vm_compute. reflexivity. Qed.

Lemma joinSplit_well_formed_witness :
  joinSplit.constructProof Scenario.joinSplitInit standardSchema
    Scenario.joinSplitNotes 2 Scenario.sender 0 Scenario.tape =
    Returns Scenario.joinSplitProof Scenario.joinSplitRest /\
  List.length (Proof.proofData Scenario.joinSplitProof) = 5%nat /\
  String.length (Proof.challenge Scenario.joinSplitProof) = 66%nat /\
  exists r,
    nth_error (Proof.proofData Scenario.joinSplitProof) 4 = Some r /\
    decode (kBarSlot r) = 0.
Proof.
  split; [exact Scenario_joinSplit|].
  destruct (joinSplit_well_formed _ _ _ _ _ _ _ _ _ Scenario_joinSplit)
    as (Hlen & _ & Hch & _ & Hlast).
  split; [exact Hlen|]. split; [exact Hch|].
  destruct (Hlast ltac:(discriminate)) as (r & Hr & _ & Hd).
  exists r. split; [exact Hr | exact Hd].
Defined.

(** C8.  A dividend-computation proof over three notes returns three records
    of six slots each, a flattened proof data of 18 elements and a challenge
    string of 66 characters.  This holds for every blinding-factor schema. *)
Theorem dividendComputation_well_formed {St : Type}
    (init : Keccak.t -> Z -> Z -> St) (schema : Schema St)
    n0 n1 n2 za zb sender t result t' :
  dividendComputation.constructProof init schema [n0; n1; n2] za zb sender t =
    Returns result t' ->
  List.length (dividendComputation.proofDataUnformatted result) = 3%nat /\
  Forall (fun r => List.length r = 6%nat)
         (dividendComputation.proofDataUnformatted result) /\
  List.length (dividendComputation.proofData result) = 18%nat /\
  String.length (dividendComputation.challenge result) = 66%nat.
Proof.
  intros H. unfold dividendComputation.constructProof in H.
  unbind H as u t1 Hparse. unbind H as hash t2 Hhash.
  unbind H as [fs st] t3 Hfs. unbind H as c t4 Hc.
  unbind H as records t5 Hrec.
  apply ret_returns in H as [<- _].
  cbn [dividendComputation.proofDataUnformatted dividendComputation.proofData
       dividendComputation.challenge].
  pose proof (mapWithClosure_length _ _ _ _ _ _ _ _ Hfs) as Hlen.
  pose proof (mapWithIndex_length _ _ _ _ _ _ Hrec) as Hlen'.
  assert (Hsix : Forall (fun r => List.length r = 6%nat) records).
  { eapply mapWithIndex_Forall; [|exact Hrec].
    intros i bf u0 r u1 Hr.
    apply responseRecord_slots in Hr as (note & _ & Hl & _). exact Hl. }
  split; [cbn [List.length] in Hlen; congruence|]. split; [exact Hsix|].
  split.
  - destruct records as [|r0 [|r1 [|r2 [|r3 rs]]]];
      cbn [List.length] in Hlen, Hlen'; try congruence.
    inversion Hsix as [|? ? H0 Hsix1]; subst.
    inversion Hsix1 as [|? ? H1 Hsix2]; subst.
    inversion Hsix2 as [|? ? H2 _]; subst.
    cbn [List.concat]. rewrite !length_app, H0, H1, H2. reflexivity.
  - apply length_challenge. eapply computeChallenge_scalar; exact Hc.
Qed.

Lemma Scenario_dividend :
  dividendComputation.constructProof Scenario.joinSplitInit standardSchema
    Scenario.dividendNotes 100 5 Scenario.sender Scenario.tape =
  Returns Scenario.dividendResult Scenario.dividendRest.
Proof. vm_compute. reflexivity. Qed.

Lemma dividendComputation_well_formed_witness :
  dividendComputation.constructProof Scenario.joinSplitInit standardSchema
    Scenario.dividendNotes 100 5 Scenario.sender Scenario.tape =
    Returns Scenario.dividendResult Scenario.dividendRest /\
  List.length (dividendComputation.proofDataUnformatted Scenario.dividendResult)
    = 3%nat /\
  List.length (dividendComputation.proofData Scenario.dividendResult) = 18%nat /\
  String.length (dividendComputation.challenge Scenario.dividendResult) = 66%nat.
Proof.
  split; [exact Scenario_dividend|].
  destruct (dividendComputation_well_formed _ _ _ _ _ _ _ _ _ _ _ Scenario_dividend)
    as (H3 & _ & H18 & H66).
  split; [exact H3|]. split; [exact H18 | exact H66].
Defined.

Module SwapFacts.

Lemma swapFactor_spec i note bkArray hash t f bkArray' hash' t' :
  proofUtils.swapFactor i note (bkArray, hash) t =
    Returns (f, (bkArray', hash')) t' ->
  bkArray' = bkArray ++ [BlindingFactor.bk f] /\
  ((2 <= i)%nat -> nth_error bkArray (i - 2) = Some (BlindingFactor.bk f)).
Proof.
  intros H. unfold proofUtils.swapFactor in H.
  unbind H as bk t1 Hbk. unbind H as ba t2 Hba. unbind H as bk' t3 Hbk'.
  unbind H as hash1 t4 Hhash.
  apply ret_returns in H as [E _]. injection E as <- <- <-.
  cbn [BlindingFactor.bk]. split; [reflexivity|].
  intros Hi. destruct (i <=? 1)%nat eqn:Ei; [apply Nat.leb_le in Ei; lia|].
  unfold at_index in Hbk'.
  destruct (nth_error bkArray (i - 2)) as [b|];
    [|destruct (throw_returns _ _ _ _ Hbk')].
  apply ret_returns in Hbk' as [-> _]. reflexivity.
Qed.

End SwapFacts.

(** C6.  For four notes, the blinding factors that
    [getBlindingFactorsAndChallenge] returns share their scalars pairwise:
    the first and the third have the same bk, and so have the second and the
    fourth. *)
Theorem bilateralSwap_shared_scalars n1 n2 n3 n4 finalHash t f1 f2 f3 f4 c t' :
  proofUtils.getBlindingFactorsAndChallenge [n1; n2; n3; n4] finalHash t =
    Returns ([f1; f2; f3; f4], c) t' ->
  BlindingFactor.bk f1 = BlindingFactor.bk f3 /\
  BlindingFactor.bk f2 = BlindingFactor.bk f4.
Proof.
  intros H. unfold proofUtils.getBlindingFactorsAndChallenge in H.
  unbind H as [fs [arr hash]] t1 Hmap.
  apply ret_returns in H as [E _]. apply pair_equal_spec in E as [-> _].
  cbn [mapWithClosure] in Hmap.
  unbind Hmap as [g1 [a1 h1]] u1 H1. unbind Hmap as [fs1 s1] u2 Hrest1.
  unbind Hrest1 as [g2 [a2 h2]] u3 H2. unbind Hrest1 as [fs2 s2] u4 Hrest2.
  unbind Hrest2 as [g3 [a3 h3]] u5 H3. unbind Hrest2 as [fs3 s3] u6 Hrest3.
  unbind Hrest3 as [g4 [a4 h4]] u7 H4. unbind Hrest3 as [fs4 s4] u8 Hrest4.
  apply ret_returns in Hrest4 as [E4 _]. apply ret_returns in Hrest3 as [E3 _].
  apply ret_returns in Hrest2 as [E2 _]. apply ret_returns in Hrest1 as [E1 _].
  apply ret_returns in Hmap as [E0 _].
  injection E4 as <- _. injection E3 as <- _. injection E2 as <- _.
  injection E1 as <- _. injection E0 as <- <- <- <- _.
  apply SwapFacts.swapFactor_spec in H1 as [A1 _].
  apply SwapFacts.swapFactor_spec in H2 as [A2 _].
  apply SwapFacts.swapFactor_spec in H3 as [A3 N3].
  apply SwapFacts.swapFactor_spec in H4 as [_ N4].
  subst a1 a2 a3. cbn [app Nat.sub nth_error] in N3, N4.
  specialize (N3 ltac:(lia)). specialize (N4 ltac:(lia)).
  injection N3 as N3. injection N4 as N4. split; assumption.
Qed.

Lemma Scenario_swap :
  proofUtils.getBlindingFactorsAndChallenge Scenario.swapNotes Scenario.swapHash
    Scenario.tape =
  Returns (Scenario.swapFactors, Scenario.swapChallenge) Scenario.swapRest.
Proof. vm_compute. reflexivity. Qed.

Lemma bilateralSwap_shared_scalars_witness :
  proofUtils.getBlindingFactorsAndChallenge Scenario.swapNotes Scenario.swapHash
    Scenario.tape =
    Returns (Scenario.swapFactors, Scenario.swapChallenge) Scenario.swapRest /\
  exists f1 f2 f3 f4,
    Scenario.swapFactors = [f1; f2; f3; f4] /\
    BlindingFactor.bk f1 = BlindingFactor.bk f3 /\
    BlindingFactor.bk f2 = BlindingFactor.bk f4.
Proof.
  split; [exact Scenario_swap|].
  eexists _, _, _, _. split; [reflexivity|].
  exact (bilateralSwap_shared_scalars _ _ _ _ _ _ _ _ _ _ _ _ Scenario_swap).
Defined.

(** ** Validation errors of the join-split constructor *)

Module ParseFacts.

Lemma validNote_fields note :
  validNote note = true ->
  (0 <? Note.a note) && (Note.a note <? bn128.n) = true /\
  (0 <=? Note.k note) && (Note.k note <=? proofUtils.K_MAX) = true /\
  bn128.validateOnCurve (Note.gamma note) = true /\
  bn128.validateOnCurve (Note.sigma note) = true.
Proof.
  unfold validNote. intros H.
  repeat (apply andb_true_iff in H as [H ?]).
  conjuncts; try assumption; apply andb_true_iff; split; assumption.
Qed.

Lemma on_curve_not_infinity P :
  bn128.validateOnCurve P = true -> bn128.isInfinity P = false.
Proof. destruct P; [discriminate | reflexivity]. Qed.

Lemma parseNote_valid note t :
  validNote note = true -> proofUtils.parseNote note t = Returns tt t.
Proof.
  intros H. apply validNote_fields in H as (Ha & Hk & Hg & Hs).
  unfold proofUtils.parseNote.
  rewrite Ha, Hk, Hg, Hs, (on_curve_not_infinity _ Hg), (on_curve_not_infinity _ Hs).
  reflexivity.
Qed.

Lemma parseNotes_valid notes t :
  forallb validNote notes = true ->
  forEach (fun note _ => proofUtils.parseNote note) notes tt t = Returns tt t.
Proof.
  induction notes as [|note notes IH]; intros H; cbn [forEach].
  - reflexivity.
  - cbn [forallb] in H. apply andb_true_iff in H as [H1 H2].
    rewrite (bind_of_returns _ _ _ _ _ (parseNote_valid _ t H1)). now apply IH.
Qed.

Lemma parseNotes_bad pre bad post t e :
  forallb validNote pre = true ->
  proofUtils.parseNote bad t = Throws e ->
  forEach (fun note _ => proofUtils.parseNote note) (pre ++ bad :: post) tt t =
    Throws e.
Proof.
  induction pre as [|note pre IH]; intros H Hbad; cbn [forEach app].
  - now apply bind_of_throws.
  - cbn [forallb] in H. apply andb_true_iff in H as [H1 H2].
    rewrite (bind_of_returns _ _ _ _ _ (parseNote_valid _ t H1)). now apply IH.
Qed.

Lemma forallb_app_cons (pre : list Note.t) note post :
  forallb validNote pre = true -> validNote note = true ->
  forallb validNote post = true ->
  forallb validNote (pre ++ note :: post) = true.
Proof.
  intros H1 H2 H3. rewrite forallb_app. cbn [forallb]. now rewrite H1, H2, H3.
Qed.

(** The outcome of the join-split constructor when validation throws. *)
Lemma constructProof_throws {St : Type} (init : Keccak.t -> Z -> Z -> St)
    (schema : Schema St) notes m sender kPublic t e :
  proofUtils.parseInputs notes sender (Some m) (Some kPublic) t = Throws e ->
  joinSplit.constructProof init schema notes m sender kPublic t = Throws e.
Proof. intros H. unfold joinSplit.constructProof. now apply bind_of_throws. Qed.

Lemma parseInputs_bad_note pre bad post sender m kPublic t e :
  forallb validNote pre = true ->
  proofUtils.parseNote bad t = Throws e ->
  proofUtils.parseInputs (pre ++ bad :: post) sender m kPublic t = Throws e.
Proof.
  intros H Hbad. unfold proofUtils.parseInputs.
  apply bind_of_throws. now apply parseNotes_bad.
Qed.

Lemma dbl_of_order_two x : bn128.dbl (bn128.Affine x 0) = bn128.Infinity.
Proof.
  unfold bn128.dbl.
  replace (bn128.fzero (bn128.fadd (BigZ.of_Z 0) (BigZ.of_Z 0))) with true
    by (vm_compute; reflexivity).
  reflexivity.
Qed.

(** A point of the curve added to its opposite is the identity. *)
Lemma add_neg P :
  bn128.validateOnCurve P = true -> bn128.add P (bn128.neg P) = bn128.Infinity.
Proof.
  destruct P as [|x y]; [discriminate|]. intros H.
  cbn [bn128.validateOnCurve] in H.
  repeat (apply andb_true_iff in H as [H ?]).
  match goal with Hy : (0 <=? y) = true |- _ => apply Z.leb_le in Hy end.
  match goal with Hy : (y <? bn128.p) = true |- _ => apply Z.ltb_lt in Hy end.
  cbn [bn128.neg]. unfold bn128.add. rewrite Z.eqb_refl. cbn [andb].
  destruct (y =? (bn128.p - y) mod bn128.p) eqn:Ey; [|reflexivity].
  apply Z.eqb_eq in Ey.
  destruct (Z.eq_dec y 0) as [->|Hnz]; [apply dbl_of_order_two|].
  rewrite Z.mod_small in Ey by lia. unfold bn128.p in *. lia.
Qed.

End ParseFacts.

(** C3.  Starting from well-formed join-split inputs (valid notes, m within
    the number of notes, kPublic in [0, n)), each targeted malformation makes
    [constructProof] throw its own named error, for every blinding-factor
    schema: KPUBLIC_MALFORMED when kPublic >= n; M_TOO_BIG when m exceeds
    the number of notes; NOT_ON_CURVE when a note's gamma.x >= p;
    POINT_AT_INFINITY when a note's gamma is the identity, in particular
    gamma + (-gamma); VIEWING_KEY_MALFORMED when a note's viewing key is 0;
    NOTE_VALUE_TOO_BIG when a note's value is K_MAX + 1. *)
Theorem joinSplit_named_errors {St : Type} (init : Keccak.t -> Z -> Z -> St)
    (schema : Schema St) pre note post m sender kPublic t :
  forallb validNote pre = true ->
  validNote note = true ->
  forallb validNote post = true ->
  0 <= m <= Z.of_nat (List.length (pre ++ note :: post)) ->
  0 <= kPublic < bn128.n ->
  let run := fun notes m kPublic =>
    joinSplit.constructProof init schema notes m sender kPublic t in
  (forall kPublic', bn128.n <= kPublic' ->
     run (pre ++ note :: post) m kPublic' = Throws (Named KPUBLIC_MALFORMED)) /\
  (forall m', Z.of_nat (List.length (pre ++ note :: post)) < m' ->
     run (pre ++ note :: post) m' kPublic = Throws (Named M_TOO_BIG)) /\
  (forall x y, bn128.p <= x ->
     run (pre ++ setGamma note (bn128.Affine x y) :: post) m kPublic =
       Throws (Named NOT_ON_CURVE)) /\
  run (pre ++ setGamma note bn128.Infinity :: post) m kPublic =
    Throws (Named POINT_AT_INFINITY) /\
  run (pre ++ setGamma note
                (bn128.add (Note.gamma note) (bn128.neg (Note.gamma note)))
           :: post) m kPublic =
    Throws (Named POINT_AT_INFINITY) /\
  run (pre ++ setA note 0 :: post) m kPublic =
    Throws (Named VIEWING_KEY_MALFORMED) /\
  run (pre ++ setK note (proofUtils.K_MAX + 1) :: post) m kPublic =
    Throws (Named NOTE_VALUE_TOO_BIG).
Proof.
  intros Hpre Hnote Hpost Hm HkP run. subst run. cbv beta.
  pose proof (ParseFacts.forallb_app_cons _ _ _ Hpre Hnote Hpost) as Hall.
  destruct (ParseFacts.validNote_fields _ Hnote) as (Ha & Hk & Hg & Hs).
  pose proof (ParseFacts.on_curve_not_infinity _ Hs) as Hsi.
  assert (Hinf : proofUtils.parseNote (setGamma note bn128.Infinity) t =
                 Throws (Named POINT_AT_INFINITY)).
  { unfold proofUtils.parseNote, setGamma. cbn [Note.a Note.k Note.gamma Note.sigma].
    rewrite Ha, Hk. reflexivity. }
  conjuncts.
  - intros kPublic' Hbig. apply ParseFacts.constructProof_throws.
    unfold proofUtils.parseInputs.
    rewrite (bind_of_returns _ _ _ _ _ (ParseFacts.parseNotes_valid _ t Hall)).
    apply bind_of_throws.
    replace ((0 <=? kPublic') && (kPublic' <? bn128.n)) with false; [reflexivity|].
    symmetry. apply andb_false_iff. right. apply Z.ltb_ge. exact Hbig.
  - intros m' Hbig. apply ParseFacts.constructProof_throws.
    unfold proofUtils.parseInputs.
    rewrite (bind_of_returns _ _ _ _ _ (ParseFacts.parseNotes_valid _ t Hall)).
    replace ((0 <=? kPublic) && (kPublic <? bn128.n)) with true
      by (symmetry; apply andb_true_iff; split;
          [apply Z.leb_le | apply Z.ltb_lt]; lia).
    rewrite (bind_of_returns _ _ t tt t eq_refl).
    replace ((0 <=? m') && (m' <=? Z.of_nat (List.length (pre ++ note :: post))))
      with false; [reflexivity|].
    symmetry. apply andb_false_iff. right. apply Z.leb_gt. exact Hbig.
  - intros x y Hx. apply ParseFacts.constructProof_throws.
    rewrite length_app in *. cbn [List.length] in *.
    apply ParseFacts.parseInputs_bad_note; [exact Hpre|].
    unfold proofUtils.parseNote, setGamma. cbn [Note.a Note.k Note.gamma Note.sigma].
    rewrite Ha, Hk, Hsi. cbn [negb bn128.isInfinity orb].
    replace (bn128.validateOnCurve (bn128.Affine x y)) with false; [reflexivity|].
    symmetry. cbn [bn128.validateOnCurve].
    replace (x <? bn128.p) with false by (symmetry; apply Z.ltb_ge; exact Hx).
    rewrite andb_false_r. reflexivity.
  - apply ParseFacts.constructProof_throws.
    apply ParseFacts.parseInputs_bad_note; [exact Hpre | exact Hinf].
  - rewrite (ParseFacts.add_neg _ Hg).
    apply ParseFacts.constructProof_throws.
    apply ParseFacts.parseInputs_bad_note; [exact Hpre | exact Hinf].
  - apply ParseFacts.constructProof_throws.
    apply ParseFacts.parseInputs_bad_note; [exact Hpre|].
    unfold proofUtils.parseNote, setA. cbn [Note.a]. reflexivity.
  - apply ParseFacts.constructProof_throws.
    apply ParseFacts.parseInputs_bad_note; [exact Hpre|].
    unfold proofUtils.parseNote, setK. cbn [Note.a Note.k].
    rewrite Ha. reflexivity.
Qed.

Lemma joinSplit_named_errors_witness :
  Scenario.joinSplitRun
    [Scenario.input0; Scenario.input1;
     Scenario.output0; Scenario.output1; Scenario.output2]
    2 (bn128.n + 100) = Throws (Named KPUBLIC_MALFORMED) /\
  Scenario.joinSplitRun
    [Scenario.input0; Scenario.input1;
     Scenario.output0; Scenario.output1; Scenario.output2]
    500 0 = Throws (Named M_TOO_BIG) /\
  Scenario.joinSplitRun
    [Scenario.input0; setGamma Scenario.input1 (bn128.Affine (bn128.p + 100) 2);
     Scenario.output0; Scenario.output1; Scenario.output2]
    2 0 = Throws (Named NOT_ON_CURVE) /\
  Scenario.joinSplitRun
    [Scenario.input0;
     setGamma Scenario.input1
       (bn128.add (Note.gamma Scenario.input1)
                  (bn128.neg (Note.gamma Scenario.input1)));
     Scenario.output0; Scenario.output1; Scenario.output2]
    2 0 = Throws (Named POINT_AT_INFINITY) /\
  Scenario.joinSplitRun
    [Scenario.input0; setA Scenario.input1 0;
     Scenario.output0; Scenario.output1; Scenario.output2]
    2 0 = Throws (Named VIEWING_KEY_MALFORMED) /\
  Scenario.joinSplitRun
    [Scenario.input0; setK Scenario.input1 (proofUtils.K_MAX + 1);
     Scenario.output0; Scenario.output1; Scenario.output2]
    2 0 = Throws (Named NOTE_VALUE_TOO_BIG).
Proof.
  unfold Scenario.joinSplitRun.
  assert (Hpre : forallb validNote [Scenario.input0] = true)
    by (vm_compute; reflexivity).
  assert (Hnote : validNote Scenario.input1 = true) by (vm_compute; reflexivity).
  assert (Hpost : forallb validNote
                    [Scenario.output0; Scenario.output1; Scenario.output2] = true)
    by (vm_compute; reflexivity).
  assert (Hm : 0 <= 2 <= Z.of_nat (List.length
                 ([Scenario.input0] ++ Scenario.input1 ::
                  [Scenario.output0; Scenario.output1; Scenario.output2])))
    by (cbn [List.length app]; lia).
  assert (HkP : 0 <= 0 < bn128.n) by (unfold bn128.n; lia).
  pose proof (joinSplit_named_errors Scenario.joinSplitInit standardSchema
                [Scenario.input0] Scenario.input1
                [Scenario.output0; Scenario.output1; Scenario.output2]
                2 Scenario.sender 0 Scenario.tape Hpre Hnote Hpost Hm HkP) as H.
  cbv zeta beta in H. cbn [app] in H.
  destruct H as (EkP & Em & Ecurve & _ & Einf & Ea & Ek).
  split; [exact (EkP (bn128.n + 100) ltac:(lia))|].
  split; [exact (Em 500 ltac:(cbn [List.length]; lia))|].
  split; [exact (Ecurve (bn128.p + 100) 2 ltac:(lia))|].
  split; [exact Einf|]. split; [exact Ea | exact Ek].
Defined.

(** ** Scalars of every transcript *)

Lemma responseRecords_scalars notes c fs t records t' :
  mapWithIndex (proofUtils.responseRecord notes c) 0 fs t = Returns records t' ->
  allGroupScalars records.
Proof.
  intros H. eapply mapWithIndex_Forall; [|exact H].
  intros i bf u r u' Hr. eapply responseRecord_scalars; exact Hr.
Qed.

(** Every record of a join-split proof, under any schema, holds group
    scalars in its kBar and aBar slots: the public value that the last
    record stores has passed the validation. *)
Lemma joinSplit_scalars {St : Type} (init : Keccak.t -> Z -> Z -> St)
    (schema : Schema St) notes m sender kPublic t proof t' :
  joinSplit.constructProof init schema notes m sender kPublic t =
    Returns proof t' ->
  allGroupScalars (Proof.proofData proof).
Proof.
  intros H.
  destruct (JoinSplitFacts.constructProof_steps _ _ _ _ _ _ _ _ _ H)
    as (fs & c & t1 & t2 & HkP & _ & _ & Hrec & _).
  eapply mapWithIndex_Forall; [|exact Hrec].
  intros i bf u r u' Hr.
  eapply JoinSplitFacts.joinSplit_record_scalars; [exact HkP | exact Hr].
Qed.

(** C7.  In every proof a constructor returns, every record carries a kBar
    and an aBar slot, each of them a word of 64 hexadecimal digits that
    reads as a scalar in [0, n): for the private-range constructor, for
    the join-split and the dividend-computation constructor under every
    blinding-factor schema, for the bilateral-swap constructor, and for
    the mint and the burn constructor under every schema and whatever the
    hash stored as their public value. *)
Theorem constructors_emit_group_scalars :
  (forall notes sender t proof t',
     privateRange.constructProof notes sender t = Returns proof t' ->
     allGroupScalars (Proof.proofData proof)) /\
  (forall (St : Type) (init : Keccak.t -> Z -> Z -> St) (schema : Schema St)
          notes m sender kPublic t proof t',
     joinSplit.constructProof init schema notes m sender kPublic t =
       Returns proof t' ->
     allGroupScalars (Proof.proofData proof)) /\
  (forall (St : Type) (init : Keccak.t -> Z -> Z -> St) (schema : Schema St)
          notes za zb sender t result t',
     dividendComputation.constructProof init schema notes za zb sender t =
       Returns result t' ->
     allGroupScalars (dividendComputation.proofDataUnformatted result)) /\
  (forall notes sender t proof t',
     bilateralSwap.constructProof notes sender t = Returns proof t' ->
     allGroupScalars (Proof.proofData proof)) /\
  (forall (St : Type) (init : Keccak.t -> Z -> Z -> St) (schema : Schema St)
          notes sender newTotalMinted t proof t',
     mint.constructProof init schema notes sender newTotalMinted t =
       Returns proof t' ->
     allGroupScalars (Proof.proofData proof)) /\
  (forall (St : Type) (init : Keccak.t -> Z -> Z -> St) (schema : Schema St)
          notes sender newTotalBurned t proof t',
     burn.constructProof init schema notes sender newTotalBurned t =
       Returns proof t' ->
     allGroupScalars (Proof.proofData proof)).
Proof.
  conjuncts.
  - intros notes sender t proof t' H. now apply privateRange_scalars in H.
  - intros St init schema notes m sender kPublic t proof t' H.
    eapply joinSplit_scalars; exact H.
  - intros St init schema notes za zb sender t result t' H.
    unfold dividendComputation.constructProof in H.
    unbind H as u t1 Hparse. unbind H as hash t2 Hhash.
    unbind H as [fs st] t3 Hfs. unbind H as c t4 Hc.
    unbind H as records t5 Hrec.
    apply ret_returns in H as [<- _].
    cbn [dividendComputation.proofDataUnformatted].
    eapply responseRecords_scalars; exact Hrec.
  - intros notes sender t proof t' H.
    unfold bilateralSwap.constructProof in H.
    unbind H as u t1 Hparse. unbind H as hash1 t2 Hsender.
    unbind H as hash2 t3 Hhash. unbind H as [fs c] t4 Hfs.
    unbind H as records t5 Hrec.
    apply ret_returns in H as [<- _]. cbn [Proof.proofData].
    eapply responseRecords_scalars; exact Hrec.
  - intros St init schema notes sender newTotalMinted t proof t' H.
    unfold mint.constructProof in H. eapply joinSplit_scalars; exact H.
  - intros St init schema notes sender newTotalBurned t proof t' H.
    unfold burn.constructProof in H. eapply joinSplit_scalars; exact H.
Qed.

Lemma Scenario_swapProof :
  bilateralSwap.constructProof Scenario.swapNotes Scenario.sender Scenario.tape =
  Returns Scenario.swapProof Scenario.swapProofRest.
Proof. vm_compute. reflexivity. Qed.

Lemma ScenarioSupply_mint :
  mint.constructProof Scenario.joinSplitInit standardSchema
    ScenarioSupply.mintNotes Scenario.sender
    (ScenarioSupply.commitmentHash ScenarioSupply.newTotalMinted)
    Scenario.tape =
  ScenarioSupply.mintRun.
Proof. vm_compute. reflexivity. Qed.

Lemma ScenarioSupply_burn :
  burn.constructProof Scenario.joinSplitInit standardSchema
    ScenarioSupply.burnNotes Scenario.sender
    (ScenarioSupply.commitmentHash ScenarioSupply.newTotalBurned)
    Scenario.tape =
  ScenarioSupply.burnRun.
Proof. vm_compute. reflexivity. Qed.

Lemma constructors_emit_group_scalars_witness :
  allGroupScalars (Proof.proofData Scenario.proof) /\
  allGroupScalars (Proof.proofData Scenario.joinSplitProof) /\
  allGroupScalars (dividendComputation.proofDataUnformatted Scenario.dividendResult) /\
  allGroupScalars (Proof.proofData Scenario.swapProof) /\
  allGroupScalars (Proof.proofData ScenarioSupply.mintProof) /\
  allGroupScalars (Proof.proofData ScenarioSupply.burnProof).
Proof.
  destruct constructors_emit_group_scalars
    as (Hrange & Hjoin & Hdiv & Hswap & Hmint & Hburn).
  split; [exact (Hrange _ _ _ _ _ Scenario_run)|].
  split; [exact (Hjoin _ _ _ _ _ _ _ _ _ _ Scenario_joinSplit)|].
  split; [exact (Hdiv _ _ _ _ _ _ _ _ _ _ Scenario_dividend)|].
  split; [exact (Hswap _ _ _ _ _ Scenario_swapProof)|].
  split; [exact (Hmint _ _ _ _ _ _ _ _ _ ScenarioSupply_mint)|].
  exact (Hburn _ _ _ _ _ _ _ _ _ ScenarioSupply_burn).
Defined.

(** The mint and the burn of the scenario return: four and three records,
    the last of which stores the hash of the commitment to the new total
    in its kBar slot. *)
Example ScenarioSupply_shapes :
  List.length (Proof.proofData ScenarioSupply.mintProof) = 4%nat /\
  List.length (Proof.proofData ScenarioSupply.burnProof) = 3%nat /\
  option_map (fun r => decode (kBarSlot r))
             (nth_error (Proof.proofData ScenarioSupply.mintProof) 3) =
    Some (ScenarioSupply.commitmentHash ScenarioSupply.newTotalMinted) /\
  option_map (fun r => decode (kBarSlot r))
             (nth_error (Proof.proofData ScenarioSupply.burnProof) 2) =
    Some (ScenarioSupply.commitmentHash ScenarioSupply.newTotalBurned).
Proof. conjuncts; vm_compute; reflexivity. Qed.

(** The scenario's transcripts, read back: the four kinds of proof carry the
    expected number of records. *)
Example Scenario_shapes :
  List.length (Proof.proofData Scenario.proof) = 3%nat /\
  List.length (Proof.proofData Scenario.joinSplitProof) = 5%nat /\
  List.length (dividendComputation.proofData Scenario.dividendResult) = 18%nat /\
  List.length (Proof.proofData Scenario.swapProof) = 4%nat.
Proof. conjuncts; reflexivity. Qed.

(** ** The scenario, read against the tests *)

(** The two scalars that the rolling hash yields for the second and the
    third blinding point of the private-range scenario differ. *)
Example Scenario_rolling_scalars :
  let x1 := fst (Keccak.keccak Scenario.rollingHash bn128.n) in
  let x2 := fst (Keccak.keccak (snd (Keccak.keccak Scenario.rollingHash bn128.n))
                               bn128.n) in
  x1 = 0x074c8c0cb93232a0ca917441ee0ddc19252652e638e63553bcb08fdd504028a4 /\
  x2 = 0x2ede3283c388c47137c79140ef759a3e1be361548bdda0ee10657a1118d23e75 /\
  x1 <> x2.
Proof.
  cbv zeta. split; [vm_compute; reflexivity|].
  split; [vm_compute; reflexivity|].
  apply Z.eqb_neq. vm_compute. reflexivity.
Qed.

(** The failure test on a point off the curve, as written: gamma.x is
    replaced by [p + 100] taken into the base field, and m is 500; the note
    is rejected before m is looked at. *)
Example Scenario_not_on_curve_test :
  Scenario.joinSplitRun
    [setGammaX Scenario.input0 (bn128.toRedP (bn128.p + 100));
     Scenario.input1; Scenario.output0; Scenario.output1; Scenario.output2]
    500 0 = Throws (Named NOT_ON_CURVE).
Proof. vm_compute. reflexivity. Qed.

(** ** privateRange: the constructor returns *)

Module Progress.

Lemma succeeds_ret {A : Type} (a : A) : succeeds (ret a).
Proof. exists a. reflexivity. Qed.

Lemma succeeds_bind {A B : Type} (m : M A) (f : A -> M B) :
  succeeds m -> (forall a, succeeds (f a)) -> succeeds (bind m f).
Proof.
  intros [a Ha] Hf. destruct (Hf a) as [b Hb]. exists b. intros u.
  rewrite (bind_of_returns _ _ _ _ _ (Ha u)). apply Hb.
Qed.

Lemma succeeds_forEach {A St : Type} (f : A -> St -> M St) (l : list A) :
  (forall v, In v l -> forall s, succeeds (f v s)) ->
  forall s, succeeds (forEach f l s).
Proof.
  induction l as [|v l IH]; intros Hf s; cbn [forEach].
  - apply succeeds_ret.
  - apply succeeds_bind; [apply Hf; left; reflexivity|].
    intros s1. apply IH. intros w Hw. apply Hf. right. exact Hw.
Qed.

Lemma succeeds_append hash P :
  bn128.isInfinity P = false -> succeeds (Keccak.append hash P).
Proof.
  destruct P as [|x y]; [discriminate|]. intros _.
  eexists. intros u. reflexivity.
Qed.

Lemma valid_points note :
  validNote note = true ->
  bn128.isInfinity (Note.gamma note) = false /\
  bn128.isInfinity (Note.sigma note) = false.
Proof.
  intros H. apply ParseFacts.validNote_fields in H as (_ & _ & Hg & Hs).
  split; now apply ParseFacts.on_curve_not_infinity.
Qed.

Lemma succeeds_appendNotes notes hash :
  forallb validNote notes = true -> succeeds (appendNotes notes hash).
Proof.
  intros H. unfold appendNotes. apply succeeds_forEach. intros note Hin h.
  rewrite forallb_forall in H. destruct (valid_points _ (H _ Hin)) as [Hg Hs].
  apply succeeds_bind; [now apply succeeds_append|].
  intros h1. now apply succeeds_append.
Qed.

Lemma succeeds_noteRecord note kBar aBar :
  validNote note = true -> succeeds (proofUtils.noteRecord note kBar aBar).
Proof.
  intros H. destruct (valid_points _ H) as [Hg Hs].
  unfold proofUtils.noteRecord.
  destruct (Note.gamma note) as [|gx gy]; [discriminate|].
  destruct (Note.sigma note) as [|sx sy]; [discriminate|].
  eexists. intros u. reflexivity.
Qed.

(** The blinding factors whose point [B] is a point of the curve other than
    the identity. *)
Lemma succeeds_absorb_factors fs hash :
  Forall (fun f => exists P, BlindingFactor.B f = Some P /\
                             bn128.isInfinity P = false) fs ->
  succeeds (proofUtils.absorb (proofUtils.CFactors fs) hash).
Proof.
  intros H. cbn [proofUtils.absorb]. apply succeeds_forEach.
  intros f Hin h. rewrite Forall_forall in H.
  destruct (H _ Hin) as (P & -> & HP). now apply succeeds_append.
Qed.

Lemma succeeds_challenge sender notes fs :
  forallb validNote notes = true ->
  Forall (fun f => exists P, BlindingFactor.B f = Some P /\
                             bn128.isInfinity P = false) fs ->
  succeeds (proofUtils.computeChallenge
              [proofUtils.CAddress sender; proofUtils.CNotes notes;
               proofUtils.CFactors fs]).
Proof.
  intros Hn Hf. unfold proofUtils.computeChallenge.
  apply succeeds_bind; [|intros h; apply succeeds_ret].
  cbn [forEach]. apply succeeds_bind; [apply succeeds_ret|]. intros h1.
  apply succeeds_bind; [now apply succeeds_appendNotes|]. intros h2.
  apply succeeds_bind; [now apply succeeds_absorb_factors|]. intros h3.
  apply succeeds_ret.
Qed.

Lemma succeeds_low_record notes c i bf note :
  (i <= 1)%nat -> nth_error notes i = Some note -> validNote note = true ->
  succeeds (privateRange.proofRecord notes c i bf).
Proof.
  intros Hi En Hv. destruct (valid_points _ Hv) as [Hg Hs].
  unfold privateRange.proofRecord, at_index. rewrite En.
  replace (i <=? 1)%nat with true by (symmetry; now apply Nat.leb_le).
  unfold bind, ret. cbv beta iota.
  destruct (Note.gamma note) as [|gx gy]; [discriminate|].
  destruct (Note.sigma note) as [|sx sy]; [discriminate|].
  eexists. intros u. reflexivity.
Qed.

Lemma filler_record notes c i bf note block rest :
  (2 <= i)%nat -> nth_error notes i = Some note -> validNote note = true ->
  exists r, privateRange.proofRecord notes c i bf (block :: rest) = Returns r rest.
Proof.
  intros Hi En Hv. destruct (valid_points _ Hv) as [Hg Hs].
  unfold privateRange.proofRecord, at_index. rewrite En.
  replace (i <=? 1)%nat with false by (symmetry; apply Nat.leb_gt; lia).
  unfold bind, ret, randomBytes. cbv beta iota.
  destruct (Note.gamma note) as [|gx gy]; [discriminate|].
  destruct (Note.sigma note) as [|sx sy]; [discriminate|].
  eexists. reflexivity.
Qed.

Lemma parseInputs_valid notes sender t :
  forallb validNote notes = true ->
  proofUtils.parseInputs notes sender None None t = Returns tt t.
Proof.
  intros H. unfold proofUtils.parseInputs.
  rewrite (bind_of_returns _ _ _ _ _ (ParseFacts.parseNotes_valid _ t H)).
  reflexivity.
Qed.

Lemma constructBlindingFactors_returns n0 n1 n2 hash t
    ba0 bk0 ba1 bk1 ba2 drawn t1 t2 t3 t4 t5 t6 :
  bn128.randomGroupScalar t = Returns ba0 t1 ->
  bn128.randomGroupScalar t1 = Returns bk0 t2 ->
  bn128.randomGroupScalar t2 = Returns ba1 t3 ->
  bn128.randomGroupScalar t3 = Returns bk1 t4 ->
  bn128.randomGroupScalar t4 = Returns ba2 t5 ->
  bn128.randomGroupScalar t5 = Returns drawn t6 ->
  privateRange.constructBlindingFactors [n0; n1; n2] hash t =
  Returns
    ([BlindingFactor.make bk0 ba0
        (Some (bn128.add (bn128.mul (Note.gamma n0) bk0) (bn128.mul bn128.h ba0)));
      BlindingFactor.make bk1 ba1
        (Some (weighted n1 bk1 ba1 (fst (Keccak.keccak hash bn128.n))));
      BlindingFactor.make (bn128.redSub bk0 bk1) ba2
        (Some (weighted n2 (bn128.redSub bk0 bk1) ba2
                 (fst (Keccak.keccak (snd (Keccak.keccak hash bn128.n)) bn128.n))))],
     snd (Keccak.keccak (snd (Keccak.keccak hash bn128.n)) bn128.n))
    t6.
Proof.
  intros R0 R1 R2 R3 R4 R5.
  unfold privateRange.constructBlindingFactors, privateRange.blindingFactor.
  cbn [mapWithClosure]. unfold bind, ret, at_index.
  rewrite R0; cbv beta iota. rewrite R1; cbv beta iota.
  cbn [Nat.eqb privateRange.bkArray privateRange.B privateRange.x
       privateRange.rollingHash app].
  rewrite R2; cbv beta iota. rewrite R3; cbv beta iota.
  destruct (Keccak.keccak hash bn128.n) as [x1 h1].
  cbn [Nat.eqb privateRange.bkArray privateRange.B privateRange.x
       privateRange.rollingHash app fst snd].
  rewrite R4; cbv beta iota. rewrite R5; cbv beta iota.
  cbn [Nat.eqb Nat.sub nth_error privateRange.bkArray privateRange.B
       privateRange.x privateRange.rollingHash app fst snd].
  destruct (Keccak.keccak h1 bn128.n) as [x2 h2].
  cbn [Nat.eqb privateRange.bkArray privateRange.B privateRange.x
       privateRange.rollingHash app fst snd].
  reflexivity.
Qed.

End Progress.

(** On three valid notes, [constructProof] returns as soon as the tape
    yields six group scalars and one more block, and none of the three
    blinding points is the identity; it then leaves the rest of the tape. *)
Lemma privateRange_constructProof_returns n0 n1 n2 sender t
    ba0 bk0 ba1 bk1 ba2 drawn t1 t2 t3 t4 t5 block rest hash :
  forallb validNote [n0; n1; n2] = true ->
  appendNotes [n0; n1; n2] Keccak.new t = Returns hash t ->
  bn128.randomGroupScalar t = Returns ba0 t1 ->
  bn128.randomGroupScalar t1 = Returns bk0 t2 ->
  bn128.randomGroupScalar t2 = Returns ba1 t3 ->
  bn128.randomGroupScalar t3 = Returns bk1 t4 ->
  bn128.randomGroupScalar t4 = Returns ba2 t5 ->
  bn128.randomGroupScalar t5 = Returns drawn (block :: rest) ->
  bn128.isInfinity
    (bn128.add (bn128.mul (Note.gamma n0) bk0) (bn128.mul bn128.h ba0)) = false ->
  bn128.isInfinity
    (weighted n1 bk1 ba1 (fst (Keccak.keccak hash bn128.n))) = false ->
  bn128.isInfinity
    (weighted n2 (bn128.redSub bk0 bk1) ba2
       (fst (Keccak.keccak (snd (Keccak.keccak hash bn128.n)) bn128.n))) = false ->
  exists proof,
    privateRange.constructProof [n0; n1; n2] sender t = Returns proof rest.
Proof.
  intros Hvalid Hhash R0 R1 R2 R3 R4 R5 HB0 HB1 HB2.
  pose proof (Progress.constructBlindingFactors_returns n0 n1 n2 hash _ _ _ _ _ _ _
                _ _ _ _ _ _ R0 R1 R2 R3 R4 R5) as Hfs.
  pose proof Hvalid as Hv. cbn [forallb] in Hv.
  apply andb_true_iff in Hv as [Hv0 Hv].
  apply andb_true_iff in Hv as [Hv1 Hv].
  apply andb_true_iff in Hv as [Hv2 _].
  unfold privateRange.constructProof.
  rewrite (bind_of_returns _ _ _ _ _ (Progress.parseInputs_valid _ sender t Hvalid)).
  rewrite (bind_of_returns _ _ _ _ _ Hhash).
  rewrite (bind_of_returns _ _ _ _ _ Hfs).
  match goal with
  | |- context [proofUtils.computeChallenge ?vars] =>
      destruct (Progress.succeeds_challenge sender [n0; n1; n2]
                  [BlindingFactor.make bk0 ba0
                     (Some (bn128.add (bn128.mul (Note.gamma n0) bk0)
                                      (bn128.mul bn128.h ba0)));
                   BlindingFactor.make bk1 ba1
                     (Some (weighted n1 bk1 ba1 (fst (Keccak.keccak hash bn128.n))));
                   BlindingFactor.make (bn128.redSub bk0 bk1) ba2
                     (Some (weighted n2 (bn128.redSub bk0 bk1) ba2
                        (fst (Keccak.keccak (snd (Keccak.keccak hash bn128.n))
                                            bn128.n))))]
                  Hvalid) as [c Hc]
  end.
  { repeat constructor; eexists; (split; [reflexivity | assumption]). }
  rewrite (bind_of_returns _ _ _ _ _ (Hc _)).
  cbn [mapWithIndex].
  destruct (Progress.succeeds_low_record [n0; n1; n2] c 0
              (BlindingFactor.make bk0 ba0
                 (Some (bn128.add (bn128.mul (Note.gamma n0) bk0)
                                  (bn128.mul bn128.h ba0))))
              n0 ltac:(lia) eq_refl Hv0) as [r0 Hr0].
  destruct (Progress.succeeds_low_record [n0; n1; n2] c 1
              (BlindingFactor.make bk1 ba1
                 (Some (weighted n1 bk1 ba1 (fst (Keccak.keccak hash bn128.n)))))
              n1 ltac:(lia) eq_refl Hv1) as [r1 Hr1].
  destruct (Progress.filler_record [n0; n1; n2] c 2
              (BlindingFactor.make (bn128.redSub bk0 bk1) ba2
                 (Some (weighted n2 (bn128.redSub bk0 bk1) ba2
                    (fst (Keccak.keccak (snd (Keccak.keccak hash bn128.n))
                                        bn128.n)))))
              n2 block rest ltac:(lia) eq_refl Hv2) as [r2 Hr2].
  eexists. unfold bind, ret.
  rewrite (Hr0 (block :: rest)); cbv beta iota.
  rewrite (Hr1 (block :: rest)); cbv beta iota.
  rewrite Hr2; cbv beta iota.
  reflexivity.
Qed.

(* ===================================================================== *)
(** * Further properties of the embedded code *)

(** ** constructBlindingFactors on any number of notes *)

Lemma randomGroupScalar_cons block rest :
  bn128.randomGroupScalar (block :: rest) =
  let v := JS.fromBytes (firstn 32 block) in
  if (0 <? v) && (v <? bn128.n) then Returns v rest
  else bn128.randomGroupScalar rest.
Proof. reflexivity. Qed.

(** A scalar drawn by [randomGroupScalar] lies in (0, n). *)
Lemma randomGroupScalar_range t v t' :
  bn128.randomGroupScalar t = Returns v t' -> 0 < v < bn128.n.
Proof.
  induction t as [|block rest IH]; [discriminate|].
  rewrite randomGroupScalar_cons. cbv zeta.
  destruct ((0 <? JS.fromBytes (firstn 32 block))
            && (JS.fromBytes (firstn 32 block) <? bn128.n)) eqn:E.
  - intros H. apply andb_true_iff in E as [E1 E2].
    apply Z.ltb_lt in E1. apply Z.ltb_lt in E2.
    assert (Ev : JS.fromBytes (firstn 32 block) = v) by congruence.
    rewrite <- Ev. split; assumption.
  - exact IH.
Qed.

Module BlindingFacts.
Import privateRange.

(** The callback on a note beyond the third: two draws, and nothing else
    changes but [bkArray]. *)
Lemma blindingFactor_later i note c t f c' t' :
  (3 <= i)%nat ->
  blindingFactor i note c t = Returns (f, c') t' ->
  exists ba bk t1,
    bn128.randomGroupScalar t = Returns ba t1 /\
    bn128.randomGroupScalar t1 = Returns bk t' /\
    f = BlindingFactor.make bk ba (B c) /\
    c' = mkClosure (bkArray c ++ [bk]) (B c) (x c) (rollingHash c).
Proof.
  intros Hi H. unfold blindingFactor in H.
  unbind H as ba t1 Hba. unbind H as bk t2 Hbk.
  destruct i as [|[|[|i]]]; try lia. cbn [Nat.eqb] in H.
  unbind H as [bk' c1] t3 Hbranch.
  apply ret_returns in Hbranch as [Eb ->]. apply ret_returns in H as [Er ->].
  inversion Eb. inversion Er. subst.
  exists ba, bk', t1. conjuncts; auto.
Qed.

(** What every call of the callback guarantees, whatever the index. *)
Lemma blindingFactor_any i note c t f c' t' :
  blindingFactor i note c t = Returns (f, c') t' ->
  BlindingFactor.B f = B c' /\
  0 <= BlindingFactor.bk f < bn128.n /\
  0 < BlindingFactor.ba f < bn128.n /\
  ((i <= 2)%nat -> B c' <> None) /\
  ((3 <= i)%nat -> B c' = B c).
Proof.
  intros H.
  destruct i as [|[|[|i]]].
  - apply PrivateRangeFacts.blindingFactor_0 in H
      as (ba & bk & t1 & R0 & R1 & Ef & Ec).
    cbv zeta in Ef, Ec. subst f c'. cbn [BlindingFactor.B BlindingFactor.bk
      BlindingFactor.ba B].
    apply randomGroupScalar_range in R0, R1.
    conjuncts; try lia; [reflexivity | discriminate].
  - apply PrivateRangeFacts.blindingFactor_1 in H
      as (ba & bk & t1 & R0 & R1 & Ef & Ec).
    cbv zeta in Ef, Ec. subst f c'. cbn [BlindingFactor.B BlindingFactor.bk
      BlindingFactor.ba B].
    apply randomGroupScalar_range in R0, R1.
    conjuncts; try lia; [reflexivity | discriminate].
  - apply PrivateRangeFacts.blindingFactor_2 in H
      as (ba & drawn & bk0 & bk1 & t1 & R0 & R1 & _ & _ & Ef & Ec).
    cbv zeta in Ef, Ec. subst f c'. cbn [BlindingFactor.B BlindingFactor.bk
      BlindingFactor.ba B].
    apply randomGroupScalar_range in R0.
    conjuncts; try lia; try reflexivity; try discriminate.
    + unfold bn128.redSub. apply Z.mod_pos_bound. reflexivity.
    + unfold bn128.redSub. apply Z.mod_pos_bound. reflexivity.
  - apply blindingFactor_later in H as (ba & bk & t1 & R0 & R1 & Ef & Ec);
      [|lia].
    subst f c'. cbn [BlindingFactor.B BlindingFactor.bk BlindingFactor.ba B].
    apply randomGroupScalar_range in R0, R1.
    conjuncts; try lia; reflexivity.
Qed.

(** Unfolding one step of the map. *)
Lemma mapWithClosure_cons {A R St : Type} (f : nat -> A -> St -> M (R * St))
    i v l s t bs s' t' :
  mapWithClosure f i (v :: l) s t = Returns (bs, s') t' ->
  exists b s1 t1 bs1,
    f i v s t = Returns (b, s1) t1 /\
    mapWithClosure f (S i) l s1 t1 = Returns (bs1, s') t' /\
    bs = b :: bs1.
Proof.
  intros H. cbn [mapWithClosure] in H.
  unbind H as [b s1] t1 Hb. unbind H as [bs1 s2] t2 Hrest.
  apply ret_returns in H as [E ->]. inversion E; subst.
  exists b, s1, t1, bs1. conjuncts; auto.
Qed.

Lemma mapWithClosure_nil {A R St : Type} (f : nat -> A -> St -> M (R * St))
    i s t bs s' t' :
  mapWithClosure f i [] s t = Returns (bs, s') t' ->
  bs = [] /\ s' = s /\ t' = t.
Proof.
  intros H. cbn [mapWithClosure] in H.
  apply ret_returns in H as [E ->]. inversion E; subst. auto.
Qed.

(** Every record is well formed, provided the closure already holds a
    point when the map starts after the first note. *)
Lemma factors_well_formed notes :
  forall i c t fs c' t',
    (i = 0%nat \/ B c <> None) ->
    mapWithClosure blindingFactor i notes c t = Returns (fs, c') t' ->
    Forall (fun f =>
              0 <= BlindingFactor.bk f < bn128.n /\
              0 < BlindingFactor.ba f < bn128.n /\
              BlindingFactor.B f <> None) fs.
Proof.
  induction notes as [|note notes IH]; intros i c t fs c' t' Hc H.
  - apply mapWithClosure_nil in H as (-> & _ & _). constructor.
  - apply mapWithClosure_cons in H as (f & c1 & t1 & fs1 & Hf & Hrest & ->).
    apply blindingFactor_any in Hf as (EB & Hbk & Hba & Hlow & Hhigh).
    assert (Hc1 : B c1 <> None).
    { destruct (Nat.le_gt_cases i 2) as [Hi|Hi]; [now apply Hlow|].
      rewrite Hhigh by lia. destruct Hc as [->|Hc]; [lia | exact Hc]. }
    constructor.
    + rewrite EB. auto.
    + eapply IH; [right; exact Hc1 | exact Hrest].
Qed.

(** From the fourth note on, every record carries the point that the
    closure holds, and the rolling hash is left alone. *)
Lemma factors_later notes :
  forall i c t fs c' t',
    (3 <= i)%nat ->
    mapWithClosure blindingFactor i notes c t = Returns (fs, c') t' ->
    Forall (fun f => BlindingFactor.B f = B c) fs /\
    B c' = B c /\ rollingHash c' = rollingHash c.
Proof.
  induction notes as [|note notes IH]; intros i c t fs c' t' Hi H.
  - apply mapWithClosure_nil in H as (-> & -> & _). auto.
  - apply mapWithClosure_cons in H as (f & c1 & t1 & fs1 & Hf & Hrest & ->).
    apply blindingFactor_later in Hf as (ba & bk & u & _ & _ & -> & ->);
      [|exact Hi].
    apply IH in Hrest as (Hall & EB & Eh); [|lia].
    cbn [B rollingHash] in Hall, EB, Eh.
    conjuncts; [constructor; [reflexivity | exact Hall] | exact EB | exact Eh].
Qed.

(** From the fourth note on, the callback does not look at the note. *)
Lemma blindingFactor_ignores_note i note note' c t :
  (3 <= i)%nat -> blindingFactor i note c t = blindingFactor i note' c t.
Proof.
  intros Hi. destruct i as [|[|[|i]]]; try lia. reflexivity.
Qed.

Lemma factors_ignore_later_notes notes :
  forall notes' i c t,
    (3 <= i)%nat -> List.length notes = List.length notes' ->
    mapWithClosure blindingFactor i notes c t =
    mapWithClosure blindingFactor i notes' c t.
Proof.
  induction notes as [|note notes IH]; intros [|note' notes'] i c t Hi Hlen;
    try discriminate; [reflexivity|].
  cbn [mapWithClosure]. unfold bind at 1 3.
  rewrite (blindingFactor_ignores_note i note note' c t Hi).
  destruct (blindingFactor i note' c t) as [[f c1] t1| |]; try reflexivity.
  unfold bind. rewrite (IH notes' (S i) c1 t1); [reflexivity | lia |].
  cbn [List.length] in Hlen. lia.
Qed.

(** The first three steps of [constructBlindingFactors] on three notes or
    more, and the map over the remaining notes. *)
Lemma constructBlindingFactors_prefix n0 n1 n2 rest hash t fs hash' t' :
  constructBlindingFactors (n0 :: n1 :: n2 :: rest) hash t =
    Returns (fs, hash') t' ->
  exists f0 f1 f2 fs3 c2 c3 t6,
    fs = f0 :: f1 :: f2 :: fs3 /\
    B c2 = BlindingFactor.B f2 /\
    rollingHash c2 =
      snd (Keccak.keccak (snd (Keccak.keccak hash bn128.n)) bn128.n) /\
    mapWithClosure blindingFactor 3 rest c2 t6 = Returns (fs3, c3) t' /\
    hash' = rollingHash c3.
Proof.
  intros H. unfold constructBlindingFactors in H.
  unbind H as [fs0 c3] u0 Hmap.
  apply ret_returns in H as [E ->]. inversion E; subst; clear E.
  apply mapWithClosure_cons in Hmap as (f0 & c0 & t1 & fs1 & Hf0 & Hmap & ->).
  apply mapWithClosure_cons in Hmap as (f1 & c1 & t2 & fs2 & Hf1 & Hmap & ->).
  apply mapWithClosure_cons in Hmap as (f2 & c2 & t3 & fs3 & Hf2 & Hmap & ->).
  apply PrivateRangeFacts.blindingFactor_0 in Hf0
    as (ba0 & bk0 & u1 & _ & _ & _ & Ec0).
  apply PrivateRangeFacts.blindingFactor_1 in Hf1
    as (ba1 & bk1 & u2 & _ & _ & _ & Ec1).
  apply PrivateRangeFacts.blindingFactor_2 in Hf2
    as (ba2 & drawn & b0 & b1 & u3 & _ & _ & _ & _ & Ef2 & Ec2).
  cbv zeta in Ec0, Ec1, Ef2, Ec2.
  rewrite Ec0 in Ec1. cbn [rollingHash] in Ec1.
  rewrite Ec1 in Ec2, Ef2. cbn [rollingHash] in Ec2, Ef2.
  exists f0, f1, f2, fs3, c2, c3, t3.
  split; [reflexivity|]. split; [rewrite Ec2, Ef2; reflexivity|].
  split; [rewrite Ec2; reflexivity|]. split; [exact Hmap | reflexivity].
Qed.

Lemma constructBlindingFactors_length notes hash t fs hash' t' :
  constructBlindingFactors notes hash t = Returns (fs, hash') t' ->
  List.length fs = List.length notes.
Proof.
  intros H. unfold constructBlindingFactors in H.
  unbind H as [fs0 c] u Hmap.
  apply ret_returns in H as [E ->]. inversion E; subst; clear E.
  eapply mapWithClosure_length; exact Hmap.
Qed.

(** The scalars of one record depend on the tape and on [bkArray] only. *)
Lemma blindingFactor_scalars i note note' c d t f c' t' :
  bkArray d = bkArray c ->
  blindingFactor i note c t = Returns (f, c') t' ->
  exists g d',
    blindingFactor i note' d t = Returns (g, d') t' /\
    BlindingFactor.bk g = BlindingFactor.bk f /\
    BlindingFactor.ba g = BlindingFactor.ba f /\
    bkArray d' = bkArray c'.
Proof.
  intros Hd H.
  destruct i as [|[|[|i]]].
  - apply PrivateRangeFacts.blindingFactor_0 in H
      as (ba & bk & t1 & R0 & R1 & Ef & Ec).
    cbv zeta in Ef, Ec. subst f c'.
    unfold blindingFactor.
    rewrite (bind_of_returns _ _ _ _ _ R0), (bind_of_returns _ _ _ _ _ R1).
    cbn [Nat.eqb]. unfold bind, ret. eexists. eexists.
    split; [reflexivity|].
    cbn [BlindingFactor.bk BlindingFactor.ba bkArray]. rewrite ?Hd. auto.
  - apply PrivateRangeFacts.blindingFactor_1 in H
      as (ba & bk & t1 & R0 & R1 & Ef & Ec).
    cbv zeta in Ef, Ec. subst f c'.
    unfold blindingFactor.
    rewrite (bind_of_returns _ _ _ _ _ R0), (bind_of_returns _ _ _ _ _ R1).
    cbn [Nat.eqb]. destruct (Keccak.keccak (rollingHash d) bn128.n) as [x1 h1].
    unfold bind, ret. eexists. eexists.
    split; [reflexivity|].
    cbn [BlindingFactor.bk BlindingFactor.ba bkArray]. rewrite ?Hd. auto.
  - apply PrivateRangeFacts.blindingFactor_2 in H
      as (ba & drawn & bk0 & bk1 & t1 & R0 & R1 & N0 & N1 & Ef & Ec).
    cbv zeta in Ef, Ec. subst f c'.
    unfold blindingFactor.
    rewrite (bind_of_returns _ _ _ _ _ R0), (bind_of_returns _ _ _ _ _ R1).
    cbn [Nat.eqb Nat.sub]. unfold at_index. rewrite !Hd, N0, N1.
    destruct (Keccak.keccak (rollingHash d) bn128.n) as [x1 h1].
    unfold bind, ret. eexists. eexists.
    split; [reflexivity|].
    cbn [BlindingFactor.bk BlindingFactor.ba bkArray]. rewrite ?Hd. auto.
  - apply blindingFactor_later in H as (ba & bk & t1 & R0 & R1 & Ef & Ec);
      [|lia].
    subst f c'.
    unfold blindingFactor.
    rewrite (bind_of_returns _ _ _ _ _ R0), (bind_of_returns _ _ _ _ _ R1).
    cbn [Nat.eqb]. unfold bind, ret. eexists. eexists.
    split; [reflexivity|].
    cbn [BlindingFactor.bk BlindingFactor.ba bkArray]. rewrite ?Hd. auto.
Qed.

Lemma factors_scalars notes :
  forall notes' i c d t fs c' t',
    List.length notes' = List.length notes ->
    bkArray d = bkArray c ->
    mapWithClosure blindingFactor i notes c t = Returns (fs, c') t' ->
    exists gs d',
      mapWithClosure blindingFactor i notes' d t = Returns (gs, d') t' /\
      map BlindingFactor.bk gs = map BlindingFactor.bk fs /\
      map BlindingFactor.ba gs = map BlindingFactor.ba fs.
Proof.
  induction notes as [|note notes IH];
    intros [|note' notes'] i c d t fs c' t' Hlen Hd H; try discriminate.
  - apply mapWithClosure_nil in H as (-> & _ & ->).
    exists [], d. auto.
  - apply mapWithClosure_cons in H as (f & c1 & t1 & fs1 & Hf & Hrest & ->).
    destruct (blindingFactor_scalars i note note' c d t f c1 t1 Hd Hf)
      as (g & d1 & Hg & Ebk & Eba & Hd1).
    destruct (IH notes' (S i) c1 d1 t1 fs1 c' t') as (gs & d' & Hgs & Ebks & Ebas);
      [cbn [List.length] in Hlen; lia | exact Hd1 | exact Hrest |].
    exists (g :: gs), d'. cbn [mapWithClosure map].
    rewrite (bind_of_returns _ _ _ _ _ Hg). cbv beta iota.
    rewrite (bind_of_returns _ _ _ _ _ Hgs). cbv beta iota.
    rewrite Ebk, Eba, Ebks, Ebas. auto.
Qed.

End BlindingFacts.

Lemma ScenarioFour_rollingHash :
  appendNotes ScenarioFour.notes Keccak.new Scenario.tape =
  Returns ScenarioFour.rollingHash Scenario.tape.
Proof. vm_compute. reflexivity. Qed.

Lemma ScenarioFour_factors :
  privateRange.constructBlindingFactors ScenarioFour.notes
    ScenarioFour.rollingHash Scenario.tape = ScenarioFour.factorsRun.
Proof. vm_compute. reflexivity. Qed.

(** X1.  [constructBlindingFactors] returns one record per note, for any
    number of notes; in every record bk is a scalar in [0, n), ba a scalar in
    (0, n), and the point B is defined. *)
Theorem constructBlindingFactors_well_formed notes hash t fs hash' t' :
  privateRange.constructBlindingFactors notes hash t = Returns (fs, hash') t' ->
  List.length fs = List.length notes /\
  Forall (fun f =>
            0 <= BlindingFactor.bk f < bn128.n /\
            0 < BlindingFactor.ba f < bn128.n /\
            BlindingFactor.B f <> None) fs.
Proof.
  intros H. unfold privateRange.constructBlindingFactors in H.
  unbind H as [fs0 c] u Hmap.
  apply ret_returns in H as [E ->]. inversion E; subst; clear E.
  split.
  - eapply mapWithClosure_length; exact Hmap.
  - eapply BlindingFacts.factors_well_formed; [left; reflexivity | exact Hmap].
Qed.

Lemma constructBlindingFactors_well_formed_witness :
  privateRange.constructBlindingFactors Scenario.notes Scenario.rollingHash
    Scenario.tape =
    Returns (Scenario.factors, Scenario.factorsHash) Scenario.factorsRest /\
  List.length Scenario.factors = 3%nat /\
  Forall (fun f =>
            0 <= BlindingFactor.bk f < bn128.n /\
            0 < BlindingFactor.ba f < bn128.n /\
            BlindingFactor.B f <> None) Scenario.factors.
Proof.
  split; [exact Scenario_factors|].
  exact (constructBlindingFactors_well_formed _ _ _ _ _ _ Scenario_factors).
Defined.

(** X2.  From the fourth note on, [constructBlindingFactors] assigns no
    point: the record of such a note carries the point B computed for the
    third note. *)
Theorem constructBlindingFactors_stale_point notes hash t fs hash' t' i f f2 :
  privateRange.constructBlindingFactors notes hash t = Returns (fs, hash') t' ->
  (3 <= i)%nat ->
  nth_error fs i = Some f ->
  nth_error fs 2 = Some f2 ->
  BlindingFactor.B f = BlindingFactor.B f2.
Proof.
  intros H Hi Ef Ef2.
  destruct notes as [|n0 [|n1 [|n2 rest]]].
  1-3: (pose proof (BlindingFacts.constructBlindingFactors_length _ _ _ _ _ _ H)
          as Hlen;
        cbn [List.length] in Hlen;
        assert (Hnone : nth_error fs 2 = None)
          by (apply nth_error_None; lia);
        congruence).
  apply BlindingFacts.constructBlindingFactors_prefix in H
    as (f0 & f1 & f2' & fs3 & c2 & c3 & t6 & -> & EB & _ & Hmap & _).
  cbn [nth_error] in Ef2. injection Ef2 as ->.
  destruct i as [|[|[|i]]]; try lia. cbn [nth_error] in Ef.
  apply BlindingFacts.factors_later in Hmap as (Hall & _ & _); [|lia].
  rewrite Forall_forall in Hall.
  rewrite (Hall f (nth_error_In _ _ Ef)). exact EB.
Qed.

Lemma constructBlindingFactors_stale_point_witness :
  exists fs hash' t' f2 f3,
    privateRange.constructBlindingFactors ScenarioFour.notes
      ScenarioFour.rollingHash Scenario.tape = Returns (fs, hash') t' /\
    nth_error fs 2 = Some f2 /\
    nth_error fs 3 = Some f3 /\
    BlindingFactor.B f3 = BlindingFactor.B f2.
Proof.
  pose proof ScenarioFour_factors as H. unfold ScenarioFour.factorsRun in H.
  eexists _, _, _, _, _. split; [exact H|].
  split; [reflexivity|]. split; [reflexivity|].
  exact (constructBlindingFactors_stale_point _ _ _ _ _ _ 3%nat _ _ H
           (le_n 3) eq_refl eq_refl).
Defined.

(** X3.  Notes beyond the third have no influence on the outcome of
    [constructBlindingFactors]: replacing them by as many other notes gives
    the same records, the same rolling hash and the same unread tape. *)
Theorem constructBlindingFactors_ignores_later_notes
    n0 n1 n2 rest rest' hash t :
  List.length rest = List.length rest' ->
  privateRange.constructBlindingFactors (n0 :: n1 :: n2 :: rest) hash t =
  privateRange.constructBlindingFactors (n0 :: n1 :: n2 :: rest') hash t.
Proof.
  intros Hlen. unfold privateRange.constructBlindingFactors.
  cbn [mapWithClosure]. unfold bind.
  destruct (privateRange.blindingFactor 0 n0 _ t) as [[f0 c0] t1| |];
    try reflexivity.
  destruct (privateRange.blindingFactor 1 n1 c0 t1) as [[f1 c1] t2| |];
    try reflexivity.
  destruct (privateRange.blindingFactor 2 n2 c1 t2) as [[f2 c2] t3| |];
    try reflexivity.
  rewrite (BlindingFacts.factors_ignore_later_notes rest rest' 3 c2 t3
             (le_n 3) Hlen).
  reflexivity.
Qed.

Lemma constructBlindingFactors_ignores_later_notes_witness :
  privateRange.constructBlindingFactors
    [Scenario.original; Scenario.comparison; Scenario.utility; Scenario.output0]
    ScenarioFour.rollingHash Scenario.tape = ScenarioFour.factorsRun.
Proof.
  rewrite (constructBlindingFactors_ignores_later_notes
             Scenario.original Scenario.comparison Scenario.utility
             [Scenario.output0] [Scenario.input0]
             ScenarioFour.rollingHash Scenario.tape eq_refl).
  exact ScenarioFour_factors.
Defined.

(** X4.  [constructBlindingFactors] finalizes the rolling hash once for the
    second note and once more for the third, and never again: the
    transcript it leaves is the digest iterated min(N - 1, 2) times over the
    transcript it was given, N being the number of notes. *)
Theorem constructBlindingFactors_rolling_hash notes hash t fs hash' t' :
  privateRange.constructBlindingFactors notes hash t = Returns (fs, hash') t' ->
  hash' =
  Nat.iter (Nat.min (List.length notes - 1) 2) Keccak256.digest hash.
Proof.
  intros H.
  destruct notes as [|n0 [|n1 [|n2 rest]]].
  - unfold privateRange.constructBlindingFactors in H.
    unbind H as [fs0 c] u Hmap. apply ret_returns in H as [E ->].
    inversion E; subst; clear E.
    apply BlindingFacts.mapWithClosure_nil in Hmap as (_ & -> & _). reflexivity.
  - unfold privateRange.constructBlindingFactors in H.
    unbind H as [fs0 c] u Hmap. apply ret_returns in H as [E ->].
    inversion E; subst; clear E.
    apply BlindingFacts.mapWithClosure_cons in Hmap
      as (f0 & c0 & t1 & fs1 & Hf0 & Hmap & ->).
    apply BlindingFacts.mapWithClosure_nil in Hmap as (_ & -> & _).
    apply PrivateRangeFacts.blindingFactor_0 in Hf0
      as (ba0 & bk0 & u1 & _ & _ & _ & Ec0).
    cbv zeta in Ec0. rewrite Ec0. reflexivity.
  - unfold privateRange.constructBlindingFactors in H.
    unbind H as [fs0 c] u Hmap. apply ret_returns in H as [E ->].
    inversion E; subst; clear E.
    apply BlindingFacts.mapWithClosure_cons in Hmap
      as (f0 & c0 & t1 & fs1 & Hf0 & Hmap & ->).
    apply BlindingFacts.mapWithClosure_cons in Hmap
      as (f1 & c1 & t2 & fs2 & Hf1 & Hmap & ->).
    apply BlindingFacts.mapWithClosure_nil in Hmap as (_ & -> & _).
    apply PrivateRangeFacts.blindingFactor_0 in Hf0
      as (ba0 & bk0 & u1 & _ & _ & _ & Ec0).
    apply PrivateRangeFacts.blindingFactor_1 in Hf1
      as (ba1 & bk1 & u2 & _ & _ & _ & Ec1).
    cbv zeta in Ec0, Ec1. rewrite Ec0 in Ec1. cbn [privateRange.rollingHash] in Ec1.
    rewrite Ec1. reflexivity.
  - apply BlindingFacts.constructBlindingFactors_prefix in H
      as (f0 & f1 & f2 & fs3 & c2 & c3 & t6 & _ & _ & Eh & Hmap & ->).
    apply BlindingFacts.factors_later in Hmap as (_ & _ & ->); [|lia].
    rewrite Eh. cbn [List.length Nat.sub].
    replace (Nat.min (S (S (List.length rest))) 2) with 2%nat by lia.
    reflexivity.
Qed.

Lemma constructBlindingFactors_rolling_hash_witness :
  privateRange.constructBlindingFactors Scenario.notes Scenario.rollingHash
    Scenario.tape =
    Returns (Scenario.factors, Scenario.factorsHash) Scenario.factorsRest /\
  Scenario.factorsHash =
    Keccak256.digest (Keccak256.digest Scenario.rollingHash).
Proof.
  split; [exact Scenario_factors|].
  exact (constructBlindingFactors_rolling_hash _ _ _ _ _ _ Scenario_factors).
Defined.

(** X5.  The blinding scalars never depend on the notes or on the rolling
    hash: on the same tape, [constructBlindingFactors] returns for any other
    notes in the same number and any other transcript, with the same bk and
    ba in every record and the same unread tape. *)
Theorem constructBlindingFactors_scalars_independent
    notes notes' hash hash' t fs h t' :
  List.length notes' = List.length notes ->
  privateRange.constructBlindingFactors notes hash t = Returns (fs, h) t' ->
  exists fs' h',
    privateRange.constructBlindingFactors notes' hash' t =
      Returns (fs', h') t' /\
    map BlindingFactor.bk fs' = map BlindingFactor.bk fs /\
    map BlindingFactor.ba fs' = map BlindingFactor.ba fs.
Proof.
  intros Hlen H. unfold privateRange.constructBlindingFactors in H.
  unbind H as [fs0 c] u Hmap. apply ret_returns in H as [E ->].
  inversion E; subst; clear E.
  destruct (BlindingFacts.factors_scalars notes notes' 0
              (privateRange.mkClosure [] None 0 hash)
              (privateRange.mkClosure [] None 0 hash') _ _ _ _
              Hlen eq_refl Hmap) as (gs & d' & Hgs & Ebk & Eba).
  exists gs, (privateRange.rollingHash d').
  unfold privateRange.constructBlindingFactors.
  rewrite (bind_of_returns _ _ _ _ _ Hgs). auto.
Qed.

Lemma constructBlindingFactors_scalars_independent_witness :
  privateRange.constructBlindingFactors Scenario.notes Scenario.rollingHash
    Scenario.tape =
    Returns (Scenario.factors, Scenario.factorsHash) Scenario.factorsRest /\
  exists fs' h',
    privateRange.constructBlindingFactors Scenario.dividendNotes Keccak.new
      Scenario.tape = Returns (fs', h') Scenario.factorsRest /\
    map BlindingFactor.bk fs' = map BlindingFactor.bk Scenario.factors /\
    map BlindingFactor.ba fs' = map BlindingFactor.ba Scenario.factors.
Proof.
  split; [exact Scenario_factors|].
  exact (constructBlindingFactors_scalars_independent
           Scenario.notes Scenario.dividendNotes Scenario.rollingHash Keccak.new
           _ _ _ _ eq_refl Scenario_factors).
Defined.

Module TotalityFacts.
Import privateRange.

Lemma randomGroupScalar_no_throw t e : bn128.randomGroupScalar t <> Throws e.
Proof.
  induction t as [|block rest IH]; [discriminate|].
  rewrite randomGroupScalar_cons. cbv zeta.
  destruct (_ && _); [discriminate | exact IH].
Qed.

(** The callback throws nothing once [bkArray] holds one scalar for every
    note already visited. *)
Lemma blindingFactor_no_throw i note c t e :
  List.length (bkArray c) = i -> blindingFactor i note c t <> Throws e.
Proof.
  intros Hlen. unfold blindingFactor. unfold bind at 1.
  destruct (bn128.randomGroupScalar t) as [ba t1| e1 |] eqn:R0;
    [|destruct (randomGroupScalar_no_throw _ _ R0) | discriminate].
  unfold bind at 1.
  destruct (bn128.randomGroupScalar t1) as [bk t2| e1 |] eqn:R1;
    [|destruct (randomGroupScalar_no_throw _ _ R1) | discriminate].
  destruct i as [|[|[|i]]]; cbn [Nat.eqb Nat.sub].
  - discriminate.
  - destruct (Keccak.keccak (rollingHash c) bn128.n). discriminate.
  - destruct (bkArray c) as [|b0 [|b1 l]]; try discriminate Hlen.
    unfold at_index. cbn [nth_error].
    destruct (Keccak.keccak (rollingHash c) bn128.n). discriminate.
  - discriminate.
Qed.

Lemma blindingFactor_bkArray i note c t f c' t' :
  blindingFactor i note c t = Returns (f, c') t' ->
  List.length (bkArray c') = S (List.length (bkArray c)).
Proof.
  intros H.
  assert (E : exists bk, bkArray c' = bkArray c ++ [bk]).
  { destruct i as [|[|[|i]]].
    - apply PrivateRangeFacts.blindingFactor_0 in H
        as (ba & bk & t1 & _ & _ & _ & ->). eexists. reflexivity.
    - apply PrivateRangeFacts.blindingFactor_1 in H
        as (ba & bk & t1 & _ & _ & _ & ->). eexists. reflexivity.
    - apply PrivateRangeFacts.blindingFactor_2 in H
        as (ba & drawn & bk0 & bk1 & t1 & _ & _ & _ & _ & _ & ->).
      eexists. reflexivity.
    - apply BlindingFacts.blindingFactor_later in H
        as (ba & bk & t1 & _ & _ & _ & ->); [|lia]. eexists. reflexivity. }
  destruct E as [bk ->]. rewrite length_app. cbn [List.length]. lia.
Qed.

Lemma factors_no_throw notes :
  forall i c t e,
    List.length (bkArray c) = i ->
    mapWithClosure blindingFactor i notes c t <> Throws e.
Proof.
  induction notes as [|note notes IH]; intros i c t e Hlen;
    cbn [mapWithClosure]; [discriminate|].
  unfold bind at 1.
  destruct (blindingFactor i note c t) as [[f c1] t1| e1 |] eqn:Ef;
    [|destruct (blindingFactor_no_throw _ _ _ _ _ Hlen Ef) | discriminate].
  apply blindingFactor_bkArray in Ef.
  unfold bind.
  destruct (mapWithClosure blindingFactor (S i) notes c1 t1)
    as [[fs c2] t2| e1 |] eqn:Erest; try discriminate.
  destruct (IH (S i) c1 t1 e1 ltac:(lia) Erest).
Qed.

(** The two scalars that one call of the callback draws; the second is the
    record's bk unless the note is the third. *)
Lemma blindingFactor_draws i note c t f c' t' :
  blindingFactor i note c t = Returns (f, c') t' ->
  exists ba drawn t1,
    bn128.randomGroupScalar t = Returns ba t1 /\
    bn128.randomGroupScalar t1 = Returns drawn t' /\
    BlindingFactor.ba f = ba /\
    (i <> 2%nat -> BlindingFactor.bk f = drawn).
Proof.
  intros H. destruct i as [|[|[|i]]].
  - apply PrivateRangeFacts.blindingFactor_0 in H
      as (ba & bk & t1 & R0 & R1 & -> & _).
    exists ba, bk, t1. auto.
  - apply PrivateRangeFacts.blindingFactor_1 in H
      as (ba & bk & t1 & R0 & R1 & -> & _).
    exists ba, bk, t1. auto.
  - apply PrivateRangeFacts.blindingFactor_2 in H
      as (ba & drawn & bk0 & bk1 & t1 & R0 & R1 & _ & _ & -> & _).
    exists ba, drawn, t1. conjuncts; auto. intros Hi. now destruct Hi.
  - apply BlindingFacts.blindingFactor_later in H
      as (ba & bk & t1 & R0 & R1 & -> & _); [|lia].
    exists ba, bk, t1. auto.
Qed.

Lemma factors_draws notes :
  forall i c t fs c' t',
    mapWithClosure blindingFactor i notes c t = Returns (fs, c') t' ->
    exists vs,
      drawScalars (2 * List.length notes) t = Returns vs t' /\
      forall j f, nth_error fs j = Some f ->
        nth_error vs (2 * j) = Some (BlindingFactor.ba f) /\
        ((i + j)%nat <> 2%nat ->
         nth_error vs (2 * j + 1) = Some (BlindingFactor.bk f)).
Proof.
  induction notes as [|note notes IH]; intros i c t fs c' t' H.
  - apply BlindingFacts.mapWithClosure_nil in H as (-> & _ & ->).
    exists []. split; [reflexivity|]. intros [|j] f Ef; discriminate.
  - apply BlindingFacts.mapWithClosure_cons in H
      as (f0 & c1 & t1 & fs1 & Hf0 & Hrest & ->).
    apply blindingFactor_draws in Hf0 as (ba & drawn & u & R0 & R1 & Eba & Ebk).
    apply IH in Hrest as (vs & Hvs & Hall).
    exists (ba :: drawn :: vs). split.
    + replace (2 * List.length (note :: notes))%nat
        with (S (S (2 * List.length notes))) by (cbn [List.length]; lia).
      cbn [drawScalars].
      rewrite (bind_of_returns _ _ _ _ _ R0). cbv beta.
      unfold bind at 1. rewrite (bind_of_returns _ _ _ _ _ R1). cbv beta.
      unfold bind at 1. rewrite Hvs. reflexivity.
    + intros [|j] f Ef; cbn [nth_error] in Ef.
      * injection Ef as <-. cbn [Nat.mul Nat.add nth_error].
        rewrite Eba. split; [reflexivity|].
        intros Hi. rewrite Ebk by lia. reflexivity.
      * destruct (Hall j f Ef) as [Ha Hk].
        replace (2 * S j)%nat with (S (S (2 * j))) by lia.
        replace (S (S (2 * j)) + 1)%nat with (S (S (2 * j + 1))) by lia.
        cbn [nth_error]. split; [exact Ha|].
        intros Hi. apply Hk. lia.
Qed.

End TotalityFacts.

(** X6.  [constructBlindingFactors] throws nothing, whatever the notes,
    the transcript and the tape: it returns, unless the tape runs out of
    entropy.  In particular [bkArray[0]] and [bkArray[1]] are always defined
    when the third note reads them. *)
Theorem constructBlindingFactors_throws_nothing notes hash t :
  (exists fs hash' t',
     privateRange.constructBlindingFactors notes hash t =
     Returns (fs, hash') t') \/
  privateRange.constructBlindingFactors notes hash t = Starved.
Proof.
  unfold privateRange.constructBlindingFactors, bind.
  destruct (mapWithClosure privateRange.blindingFactor 0 notes
              (privateRange.mkClosure [] None 0 hash) t)
    as [[fs c] t'| e |] eqn:E.
  - left. exists fs, (privateRange.rollingHash c), t'. reflexivity.
  - destruct (TotalityFacts.factors_no_throw notes 0
                (privateRange.mkClosure [] None 0 hash) t e eq_refl E).
  - right. reflexivity.
Qed.

(** X7.  [constructBlindingFactors] draws two scalars per note and
    nothing else, ba before bk: record i holds the scalar of rank 2 i as ba
    and, unless it is the third record, the scalar of rank 2 i + 1 as bk.
    The sixth scalar is drawn for the third note and not used. *)
Theorem constructBlindingFactors_draws notes hash t fs hash' t' :
  privateRange.constructBlindingFactors notes hash t = Returns (fs, hash') t' ->
  exists vs,
    drawScalars (2 * List.length notes) t = Returns vs t' /\
    forall i f, nth_error fs i = Some f ->
      nth_error vs (2 * i) = Some (BlindingFactor.ba f) /\
      (i <> 2%nat -> nth_error vs (2 * i + 1) = Some (BlindingFactor.bk f)).
Proof.
  intros H. unfold privateRange.constructBlindingFactors in H.
  unbind H as [fs0 c] u Hmap. apply ret_returns in H as [E ->].
  inversion E; subst; clear E.
  apply TotalityFacts.factors_draws in Hmap as (vs & Hvs & Hall).
  exists vs. split; [exact Hvs|]. intros i f Ef.
  destruct (Hall i f Ef) as [Ha Hk]. split; [exact Ha | exact Hk].
Qed.

Lemma constructBlindingFactors_draws_witness :
  privateRange.constructBlindingFactors Scenario.notes Scenario.rollingHash
    Scenario.tape =
    Returns (Scenario.factors, Scenario.factorsHash) Scenario.factorsRest /\
  (exists vs,
     drawScalars 6 Scenario.tape = Returns vs Scenario.factorsRest /\
     forall i f, nth_error Scenario.factors i = Some f ->
       nth_error vs (2 * i) = Some (BlindingFactor.ba f) /\
       (i <> 2%nat -> nth_error vs (2 * i + 1) = Some (BlindingFactor.bk f))) /\
  drawScalars 6 Scenario.tape =
    Returns [1000003; 2000003; 3000017; 4000037; 5000011; 6000047]
      Scenario.factorsRest.
Proof.
  split; [exact Scenario_factors|].
  split; [exact (constructBlindingFactors_draws _ _ _ _ _ _ Scenario_factors)|].
  vm_compute. reflexivity.
Defined.

(** ** constructProof on any number of notes *)

Module TranscriptFacts.
Import privateRange.

(** Notes that pass [parseNote] are well formed. *)
Lemma parseNote_returns note t u t' :
  proofUtils.parseNote note t = Returns u t' -> validNote note = true.
Proof.
  unfold proofUtils.parseNote.
  destruct ((0 <? Note.a note) && (Note.a note <? bn128.n)) eqn:Ea;
    cbn [negb]; [|discriminate].
  destruct ((0 <=? Note.k note) && (Note.k note <=? proofUtils.K_MAX)) eqn:Ek;
    cbn [negb]; [|discriminate].
  destruct (bn128.isInfinity (Note.gamma note)
            || bn128.isInfinity (Note.sigma note)); [discriminate|].
  destruct (bn128.validateOnCurve (Note.gamma note)
            && bn128.validateOnCurve (Note.sigma note)) eqn:E;
    cbn [negb]; [|discriminate].
  intros _. unfold validNote.
  apply andb_true_iff in Ea as [-> ->]. apply andb_true_iff in Ek as [-> ->].
  apply andb_true_iff in E as [-> ->]. reflexivity.
Qed.

Lemma parseNotes_returns notes :
  forall t u t',
    forEach (fun note _ => proofUtils.parseNote note) notes tt t = Returns u t' ->
    forallb validNote notes = true.
Proof.
  induction notes as [|note notes IH]; intros t u t' H; [reflexivity|].
  cbn [forEach] in H. unbind H as v t1 Hnote. destruct v.
  cbn [forallb]. rewrite (parseNote_returns _ _ _ _ Hnote).
  eapply IH; exact H.
Qed.

Lemma parseInputs_returns notes sender m kPublic t u t' :
  proofUtils.parseInputs notes sender m kPublic t = Returns u t' ->
  forallb validNote notes = true.
Proof.
  intros H. unfold proofUtils.parseInputs in H.
  unbind H as v t1 Hnotes. eapply parseNotes_returns; exact Hnotes.
Qed.

(** The coordinates of a point of the curve. *)
Lemma on_curve_coordinates P :
  bn128.validateOnCurve P = true ->
  exists x y, P = bn128.Affine x y /\ 0 <= x < bn128.p /\ 0 <= y < bn128.p.
Proof.
  destruct P as [|x y]; [discriminate|]. intros H.
  cbn [bn128.validateOnCurve] in H.
  repeat (apply andb_true_iff in H as [H ?]).
  exists x, y. split; [reflexivity|].
  repeat match goal with
         | Hb : (_ <=? _) = true |- _ => apply Z.leb_le in Hb
         | Hb : (_ <? _) = true |- _ => apply Z.ltb_lt in Hb
         end.
  lia.
Qed.

Lemma coordinate_fits (v : Z) : 0 <= v < bn128.p -> 0 <= v < 2 ^ 256.
Proof.
  intros H. split; [lia|]. eapply Z.lt_trans; [apply H | reflexivity].
Qed.

(** The run of [constructProof], step by step. *)
Lemma privateRange_steps notes sender t proof t' :
  constructProof notes sender t = Returns proof t' ->
  exists hash fs hash' t6 c,
    forallb validNote notes = true /\
    appendNotes notes Keccak.new t = Returns hash t /\
    constructBlindingFactors notes hash t = Returns (fs, hash') t6 /\
    proofUtils.computeChallenge
      [proofUtils.CAddress sender; proofUtils.CNotes notes;
       proofUtils.CFactors fs] t6 = Returns c t6 /\
    mapWithIndex (proofRecord notes c) 0 fs t6 =
      Returns (Proof.proofData proof) t' /\
    Proof.challenge proof = hex64 (JS.toString16 c).
Proof.
  intros H. unfold constructProof in H.
  unbind H as u t1 Hparse.
  pose proof (parseInputs_returns _ _ _ _ _ _ _ Hparse) as Hvalid.
  apply deterministic_parseInputs in Hparse as [-> _].
  unbind H as hash t2 Hhash.
  pose proof (deterministic_appendNotes _ _ _ _ _ Hhash) as [-> _].
  unbind H as [fs hash'] t6 Hfs.
  unbind H as c t7 Hc.
  pose proof (deterministic_computeChallenge _ _ _ _ Hc) as [-> _].
  unbind H as records t8 Hrec.
  apply ret_returns in H as [<- ->].
  exists hash, fs, hash', t6, c. conjuncts; auto.
Qed.

(** All six slots of one record. *)
Lemma proofRecord_full notes c i bf t r t' :
  proofRecord notes c i bf t = Returns r t' ->
  exists note kBar gx gy sx sy,
    nth_error notes i = Some note /\
    Note.gamma note = bn128.Affine gx gy /\
    Note.sigma note = bn128.Affine sx sy /\
    r = [kBar;
         hex64 (JS.toString16 (proofUtils.aBarResponse note c bf));
         hex64 (JS.toString16 gx); hex64 (JS.toString16 gy);
         hex64 (JS.toString16 sx); hex64 (JS.toString16 sy)] /\
    (((i <= 1)%nat /\ t' = t /\
      kBar = hex64 (JS.toString16 (proofUtils.kBarResponse note c bf)))
     \/
     ((2 <= i)%nat /\ exists block,
        t = block :: t' /\
        kBar = hex64 (JS.toString16
                        (JS.fromBytes (firstn 32 block) mod bn128.n)))).
Proof.
  intros H. pose proof H as Hslots.
  apply PrivateRangeRecords.proofRecord_slots in Hslots
    as (note & En & _ & _ & Hk).
  unfold proofRecord in H.
  unbind H as kBar t1 HkBar. unbind H as note' t2 Hnote.
  unfold at_index in Hnote. rewrite En in Hnote.
  apply ret_returns in Hnote as [<- ->].
  unbind H as gx t3 Hgx. unbind H as gy t4 Hgy.
  unbind H as sx t5 Hsx. unbind H as sy t6 Hsy.
  apply ret_returns in H as [<- <-].
  destruct (Note.gamma note) as [|gx' gy'] eqn:Eg;
    [cbn [coordX] in Hgx; destruct (throw_returns _ _ _ _ Hgx)|].
  destruct (Note.sigma note) as [|sx' sy'] eqn:Es;
    [cbn [coordX] in Hsx; destruct (throw_returns _ _ _ _ Hsx)|].
  cbn [coordX coordY] in Hgx, Hgy, Hsx, Hsy.
  apply ret_returns in Hgx as [<- ->]. apply ret_returns in Hgy as [<- ->].
  apply ret_returns in Hsx as [<- ->]. apply ret_returns in Hsy as [<- ->].
  exists note, (hex64 (toString16 kBar)), gx', gy', sx', sy'.
  split; [exact En|]. split; [exact Eg|]. split; [exact Es|].
  split; [reflexivity|].
  cbn [kBarSlot nth] in Hk.
  destruct Hk as [(Hi & Et & Hk) | (Hi & bytes & Hbytes & Hk)].
  - left. conjuncts; auto.
  - right. split; [exact Hi|].
    unfold randomBytes in Hbytes. destruct t as [|block rest]; [discriminate|].
    inversion Hbytes; subst. exists block. split; [reflexivity|].
    rewrite Hk. apply PrivateRangeRecords.filler_slot. apply mod_n_scalar.
Qed.

(** The records of the notes from the third on: each reads one block. *)
Lemma records_from_third notes c fs :
  forall i t rs t',
    (2 <= i)%nat ->
    mapWithIndex (proofRecord notes c) i fs t = Returns rs t' ->
    (List.length fs <= List.length t)%nat /\
    t' = skipn (List.length fs) t /\
    forall j r, nth_error rs j = Some r ->
      exists block,
        nth_error t j = Some block /\
        kBarSlot r =
          hex64 (JS.toString16 (JS.fromBytes (firstn 32 block) mod bn128.n)).
Proof.
  induction fs as [|f fs IH]; intros i t rs t' Hi H; cbn [mapWithIndex] in H.
  - apply ret_returns in H as [<- <-].
    split; [cbn [List.length]; lia|]. split; [reflexivity|].
    intros [|j] r Hr; discriminate.
  - unbind H as r0 t1 Hr0. unbind H as rs1 t2 Hrest.
    apply ret_returns in H as [<- ->].
    apply proofRecord_full in Hr0
      as (note & kBar & gx & gy & sx & sy & _ & _ & _ & -> &
          [(Hlow & _) | (_ & block & -> & Hk)]); [lia|].
    apply IH in Hrest as (Hlen & -> & Hall); [|lia].
    split; [cbn [List.length]; lia|]. split; [reflexivity|].
    intros [|j] r Hr; cbn [nth_error] in Hr |- *.
    + injection Hr as <-. exists block. split; [reflexivity | exact Hk].
    + apply Hall. exact Hr.
Qed.

(** The first two records read nothing from the tape. *)
Lemma records_split notes c fs t rs t' :
  mapWithIndex (proofRecord notes c) 0 fs t = Returns rs t' ->
  exists rs2,
    mapWithIndex (proofRecord notes c) 2 (skipn 2 fs) t = Returns rs2 t' /\
    skipn 2 rs = rs2.
Proof.
  intros H. destruct fs as [|f0 [|f1 fs]]; cbn [mapWithIndex skipn] in H |- *.
  - apply ret_returns in H as [<- <-]. exists []. auto.
  - unbind H as r0 t1 Hr0. unbind H as rs1 t2 Hrest.
    apply ret_returns in Hrest as [<- ->]. apply ret_returns in H as [<- ->].
    apply proofRecord_full in Hr0
      as (note & kBar & gx & gy & sx & sy & _ & _ & _ & _ &
          [(_ & -> & _) | (Hhigh & _)]); [|lia].
    exists []. auto.
  - unbind H as r0 t1 Hr0. unbind H as rs1 t2 Hrest.
    unbind Hrest as r1 t3 Hr1. unbind Hrest as rs2 t4 Hrest2.
    apply ret_returns in Hrest as [<- ->]. apply ret_returns in H as [<- ->].
    apply proofRecord_full in Hr0
      as (note0 & kBar0 & gx0 & gy0 & sx0 & sy0 & _ & _ & _ & _ &
          [(_ & -> & _) | (Hhigh & _)]); [|lia].
    apply proofRecord_full in Hr1
      as (note1 & kBar1 & gx1 & gy1 & sx1 & sy1 & _ & _ & _ & _ &
          [(_ & -> & _) | (Hhigh & _)]); [|lia].
    exists rs2. auto.
Qed.

End TranscriptFacts.

Lemma valid_note_at notes i note :
  forallb validNote notes = true -> nth_error notes i = Some note ->
  validNote note = true.
Proof.
  intros H E. rewrite forallb_forall in H. apply H.
  eapply nth_error_In; exact E.
Qed.

Lemma valid_note_coordinates note :
  validNote note = true ->
  exists gx gy sx sy,
    Note.gamma note = bn128.Affine gx gy /\
    Note.sigma note = bn128.Affine sx sy /\
    0 <= gx < bn128.p /\ 0 <= gy < bn128.p /\
    0 <= sx < bn128.p /\ 0 <= sy < bn128.p.
Proof.
  intros H. apply ParseFacts.validNote_fields in H as (_ & _ & Hg & Hs).
  apply TranscriptFacts.on_curve_coordinates in Hg as (gx & gy & Eg & Hgx & Hgy).
  apply TranscriptFacts.on_curve_coordinates in Hs as (sx & sy & Es & Hsx & Hsy).
  exists gx, gy, sx, sy. auto 10.
Qed.

(** X8.  For any number of notes, the transcript of [constructProof] holds
    one record per note, every record holds six slots, and every slot, like
    the challenge, is a string of 66 characters. *)
Theorem privateRange_well_formed notes sender t proof t' :
  privateRange.constructProof notes sender t = Returns proof t' ->
  List.length (Proof.proofData proof) = List.length notes /\
  Forall (fun r => List.length r = 6%nat /\
                   Forall (fun s => String.length s = 66%nat) r)
         (Proof.proofData proof) /\
  String.length (Proof.challenge proof) = 66%nat.
Proof.
  intros H.
  apply TranscriptFacts.privateRange_steps in H
    as (hash & fs & hash' & t6 & c & Hvalid & _ & Hfs & Hc & Hrec & Ech).
  split; [|split].
  - rewrite (mapWithIndex_length _ _ _ _ _ _ Hrec).
    eapply BlindingFacts.constructBlindingFactors_length; exact Hfs.
  - eapply mapWithIndex_Forall; [|exact Hrec].
    intros i bf u r u' Hr.
    apply TranscriptFacts.proofRecord_full in Hr
      as (note & kBar & gx & gy & sx & sy & En & Eg & Es & -> & Hk).
    split; [reflexivity|].
    pose proof (valid_note_at _ _ _ Hvalid En) as Hnote.
    destruct (valid_note_coordinates _ Hnote)
      as (gx' & gy' & sx' & sy' & Eg' & Es' & Hgx & Hgy & Hsx & Hsy).
    rewrite Eg in Eg'. rewrite Es in Es'.
    injection Eg' as <- <-. injection Es' as <- <-.
    assert (HkBar : String.length kBar = 66%nat).
    { destruct Hk as [(_ & _ & ->) | (_ & block & _ & ->)];
        apply length_challenge;
        [apply (response_scalars note c bf) | apply mod_n_scalar]. }
    repeat constructor; try exact HkBar;
      try (apply length_hex64; apply TranscriptFacts.coordinate_fits; assumption).
    apply length_challenge. apply (response_scalars note c bf).
  - rewrite Ech. apply length_challenge.
    eapply computeChallenge_scalar; exact Hc.
Qed.

Lemma privateRange_well_formed_witness :
  privateRange.constructProof Scenario.notes Scenario.sender Scenario.tape =
    Returns Scenario.proof Scenario.rest /\
  List.length (Proof.proofData Scenario.proof) = 3%nat /\
  Forall (fun r => List.length r = 6%nat /\
                   Forall (fun s => String.length s = 66%nat) r)
         (Proof.proofData Scenario.proof) /\
  String.length (Proof.challenge Scenario.proof) = 66%nat.
Proof.
  split; [exact Scenario_run|].
  exact (privateRange_well_formed _ _ _ _ _ Scenario_run).
Defined.

(** X9.  The points of a note can be read back from its record: slots 2
    and 3 of record i decode to the coordinates of gamma of note i, slots 4
    and 5 to those of sigma. *)
Theorem privateRange_points_round_trip notes sender t proof t' i r :
  privateRange.constructProof notes sender t = Returns proof t' ->
  nth_error (Proof.proofData proof) i = Some r ->
  exists note,
    nth_error notes i = Some note /\
    Note.gamma note = bn128.Affine (decode (slot 2 r)) (decode (slot 3 r)) /\
    Note.sigma note = bn128.Affine (decode (slot 4 r)) (decode (slot 5 r)).
Proof.
  intros H Er.
  apply TranscriptFacts.privateRange_steps in H
    as (hash & fs & hash' & t6 & c & Hvalid & _ & _ & _ & Hrec & _).
  destruct (mapWithIndex_nth _ _ _ _ _ _ Hrec i r Er)
    as (bf & u & u' & _ & Hr).
  cbn [Nat.add] in Hr.
  apply TranscriptFacts.proofRecord_full in Hr
    as (note & kBar & gx & gy & sx & sy & En & Eg & Es & -> & _).
  pose proof (valid_note_at _ _ _ Hvalid En) as Hnote.
  destruct (valid_note_coordinates _ Hnote)
    as (gx' & gy' & sx' & sy' & Eg' & Es' & Hgx & Hgy & Hsx & Hsy).
  rewrite Eg in Eg'. rewrite Es in Es'.
  injection Eg' as <- <-. injection Es' as <- <-.
  exists note. split; [exact En|].
  unfold slot. cbn [nth].
  rewrite !decode_hex64 by lia. auto.
Qed.

Lemma privateRange_points_round_trip_witness :
  exists r,
    nth_error (Proof.proofData Scenario.proof) 2 = Some r /\
    Note.gamma Scenario.utility =
      bn128.Affine (decode (slot 2 r)) (decode (slot 3 r)) /\
    Note.sigma Scenario.utility =
      bn128.Affine (decode (slot 4 r)) (decode (slot 5 r)).
Proof.
  destruct (privateRange_points_round_trip _ _ _ _ _ 2%nat _ Scenario_run eq_refl)
    as (note & En & Eg & Es).
  injection En as <-.
  eexists. split; [reflexivity|]. split; [exact Eg | exact Es].
Defined.

Lemma inferred_difference (k0 k1 c b0 b1 : Z) :
  ((k0 * c + b0) mod bn128.n - (k1 * c + b1) mod bn128.n) mod bn128.n =
  ((k0 - k1) * c + (b0 - b1) mod bn128.n) mod bn128.n.
Proof.
  rewrite <- Zminus_mod. rewrite Zplus_mod_idemp_r. f_equal. ring.
Qed.

Lemma balanced_response (k0 k1 k2 c b : Z) :
  (k0 - k1 - k2) mod bn128.n = 0 ->
  ((k0 - k1) * c + b) mod bn128.n = (k2 * c + b) mod bn128.n.
Proof.
  intros H. apply Z.mod_divide in H; [|unfold bn128.n; lia].
  destruct H as [q Hq].
  replace ((k0 - k1) * c + b) with (k2 * c + b + (q * c) * bn128.n)
    by (replace (k0 - k1) with (k2 + q * bn128.n) by lia; ring).
  apply Z_mod_plus_full.
Qed.

(** X10.  In a private-range proof over three notes the difference of the
    first two kBar slots is, modulo n, (k_0 - k_1) c + bk_2, with c the
    challenge and bk_2 the blinding scalar of the third note; when the
    values balance (k_0 - k_1 = k_2 modulo n) it is the response
    k_2 c + bk_2 that the third slot leaves out. *)
Theorem privateRange_inferred_response n0 n1 n2 sender t proof t' :
  privateRange.constructProof [n0; n1; n2] sender t = Returns proof t' ->
  exists hash f0 f1 f2 hash' t6 r0 r1 r2,
    appendNotes [n0; n1; n2] Keccak.new t = Returns hash t /\
    privateRange.constructBlindingFactors [n0; n1; n2] hash t =
      Returns ([f0; f1; f2], hash') t6 /\
    Proof.proofData proof = [r0; r1; r2] /\
    let c := decode (Proof.challenge proof) in
    (decode (kBarSlot r0) - decode (kBarSlot r1)) mod bn128.n =
      ((Note.k n0 - Note.k n1) * c + BlindingFactor.bk f2) mod bn128.n /\
    ((Note.k n0 - Note.k n1 - Note.k n2) mod bn128.n = 0 ->
     (decode (kBarSlot r0) - decode (kBarSlot r1)) mod bn128.n =
       (Note.k n2 * c + BlindingFactor.bk f2) mod bn128.n).
Proof.
  intros H.
  apply PrivateRangeRecords.constructProof_three in H
    as (hash & f0 & f1 & f2 & hash' & t6 & c & bytes & r0 & r1 & r2
        & Hhash & Hfs & Hc & _ & -> & Hk0 & Hk1 & _ & _ & _ & _).
  pose proof (PrivateRangeFacts.constructBlindingFactors_three _ _ _ _ _ _ _ _ Hfs)
    as (ba0 & bk0 & ba1 & bk1 & ba2 & drawn & u1 & u2 & u3 & u4 & u5
        & g0 & g1 & g2 & _ & _ & _ & _ & _ & _ & Efs & Eg0 & Eg1 & Eg2 & _).
  injection Efs as -> -> ->.
  exists hash, g0, g1, g2, hash', t6, r0, r1, r2.
  split; [exact Hhash|]. split; [exact Hfs|]. split; [reflexivity|].
  cbn [Proof.challenge]. cbv zeta.
  pose proof (computeChallenge_scalar _ _ _ _ Hc) as [Hc0 _].
  rewrite (decode_hex64 c Hc0).
  rewrite Hk0, Hk1. unfold proofUtils.kBarResponse.
  rewrite !redResponse.
  rewrite !decode_hex64 by (apply Z.mod_pos_bound; reflexivity).
  rewrite Eg0, Eg1, Eg2. cbn [BlindingFactor.bk]. unfold bn128.redSub.
  split.
  - apply inferred_difference.
  - intros Hbal. rewrite inferred_difference. now apply balanced_response.
Qed.

Lemma privateRange_inferred_response_witness :
  privateRange.constructProof Scenario.notes Scenario.sender Scenario.tape =
    Returns Scenario.proof Scenario.rest /\
  exists f0 f1 f2 hash' t6 r0 r1 r2,
    privateRange.constructBlindingFactors Scenario.notes Scenario.rollingHash
      Scenario.tape = Returns ([f0; f1; f2], hash') t6 /\
    Proof.proofData Scenario.proof = [r0; r1; r2] /\
    (decode (kBarSlot r0) - decode (kBarSlot r1)) mod bn128.n =
      (6 * decode (Proof.challenge Scenario.proof) + BlindingFactor.bk f2)
      mod bn128.n.
Proof.
  split; [exact Scenario_run|].
  destruct (privateRange_inferred_response _ _ _ _ _ _ _ Scenario_run)
    as (hash & f0 & f1 & f2 & hash' & t6 & r0 & r1 & r2
        & Hhash & Hfs & Hdata & _ & Hbal).
  assert (Eh : hash = Scenario.rollingHash).
  { pose proof Scenario_rollingHash as Hh. unfold Scenario.notes in Hh.
    rewrite Hh in Hhash. now inversion Hhash. }
  subst hash.
  exists f0, f1, f2, hash', t6, r0, r1, r2.
  split; [exact Hfs|]. split; [exact Hdata|].
  apply Hbal. reflexivity.
Defined.

Module ProgressFacts.
Import privateRange.

(** The records of the notes from the third on are produced as long as the
    tape holds one block for each. *)
Lemma records_from_third_return notes c fs :
  forall i t,
    forallb validNote notes = true ->
    (2 <= i)%nat ->
    (i + List.length fs <= List.length notes)%nat ->
    (List.length fs <= List.length t)%nat ->
    exists rs,
      mapWithIndex (proofRecord notes c) i fs t =
      Returns rs (skipn (List.length fs) t).
Proof.
  induction fs as [|f fs IH]; intros i t Hvalid Hi Hlen Ht.
  - exists []. reflexivity.
  - cbn [List.length] in Hlen, Ht.
    destruct t as [|block rest]; [cbn [List.length] in Ht; lia|].
    cbn [List.length] in Ht.
    destruct (nth_error notes i) as [note|] eqn:En;
      [|apply nth_error_None in En; lia].
    destruct (Progress.filler_record notes c i f note block rest Hi En
                (valid_note_at _ _ _ Hvalid En)) as [r Hr].
    destruct (IH (S i) rest Hvalid) as [rs Hrs]; try lia.
    exists (r :: rs). cbn [mapWithIndex List.length skipn].
    rewrite (bind_of_returns _ _ _ _ _ Hr).
    rewrite (bind_of_returns _ _ _ _ _ Hrs). reflexivity.
Qed.

Lemma records_return notes c fs t :
  forallb validNote notes = true ->
  List.length fs = List.length notes ->
  (List.length notes - 2 <= List.length t)%nat ->
  exists rs,
    mapWithIndex (proofRecord notes c) 0 fs t =
    Returns rs (skipn (List.length notes - 2) t).
Proof.
  intros Hvalid Hlen Ht.
  destruct fs as [|f0 [|f1 fs]]; cbn [List.length] in Hlen.
  - exists []. rewrite <- Hlen. reflexivity.
  - destruct (nth_error notes 0) as [note|] eqn:En;
      [|apply nth_error_None in En; lia].
    destruct (Progress.succeeds_low_record notes c 0 f0 note (Nat.le_0_l 1) En
                (valid_note_at _ _ _ Hvalid En)) as [r0 Hr0].
    exists [r0]. rewrite <- Hlen. cbn [mapWithIndex Nat.sub skipn].
    rewrite (bind_of_returns _ _ _ _ _ (Hr0 t)). reflexivity.
  - destruct (nth_error notes 0) as [note0|] eqn:En0;
      [|apply nth_error_None in En0; lia].
    destruct (nth_error notes 1) as [note1|] eqn:En1;
      [|apply nth_error_None in En1; lia].
    destruct (Progress.succeeds_low_record notes c 0 f0 note0 (Nat.le_0_l 1) En0
                (valid_note_at _ _ _ Hvalid En0)) as [r0 Hr0].
    destruct (Progress.succeeds_low_record notes c 1 f1 note1 (le_n 1) En1
                (valid_note_at _ _ _ Hvalid En1)) as [r1 Hr1].
    destruct (records_from_third_return notes c fs 2 t Hvalid (le_n 2))
      as [rs Hrs]; try lia.
    exists (r0 :: r1 :: rs). cbn [mapWithIndex].
    rewrite (bind_of_returns _ _ _ _ _ (Hr0 t)). cbv beta.
    unfold bind at 1. rewrite (bind_of_returns _ _ _ _ _ (Hr1 t)). cbv beta.
    rewrite (bind_of_returns _ _ _ _ _ Hrs).
    replace (List.length notes - 2)%nat with (List.length fs) by lia.
    reflexivity.
Qed.

End ProgressFacts.

(** X11.  On well-formed notes [constructProof] returns as soon as
    [constructBlindingFactors] does, no blinding point is the identity, and
    the tape still holds one block for every note beyond the second; it
    leaves the tape without these blocks. *)
Theorem privateRange_constructProof_progress
    notes sender t hash fs hash' t6 :
  forallb validNote notes = true ->
  appendNotes notes Keccak.new t = Returns hash t ->
  privateRange.constructBlindingFactors notes hash t = Returns (fs, hash') t6 ->
  Forall hasPoint fs ->
  (List.length notes - 2 <= List.length t6)%nat ->
  exists proof,
    privateRange.constructProof notes sender t =
    Returns proof (skipn (List.length notes - 2) t6).
Proof.
  intros Hvalid Hhash Hfs Hpoints Ht.
  destruct (Progress.succeeds_challenge sender notes fs Hvalid Hpoints) as [c Hc].
  destruct (ProgressFacts.records_return notes c fs t6 Hvalid
              (BlindingFacts.constructBlindingFactors_length _ _ _ _ _ _ Hfs) Ht)
    as [rs Hrs].
  eexists. unfold privateRange.constructProof.
  rewrite (bind_of_returns _ _ _ _ _ (Progress.parseInputs_valid _ sender t Hvalid)).
  rewrite (bind_of_returns _ _ _ _ _ Hhash).
  rewrite (bind_of_returns _ _ _ _ _ Hfs).
  rewrite (bind_of_returns _ _ _ _ _ (Hc t6)).
  rewrite (bind_of_returns _ _ _ _ _ Hrs).
  reflexivity.
Qed.

Lemma privateRange_constructProof_progress_witness :
  exists proof,
    privateRange.constructProof Scenario.notes Scenario.sender Scenario.tape =
    Returns proof (skipn 1 Scenario.factorsRest).
Proof.
  apply (privateRange_constructProof_progress Scenario.notes Scenario.sender
           Scenario.tape Scenario.rollingHash Scenario.factors
           Scenario.factorsHash Scenario.factorsRest).
  - vm_compute. reflexivity.
  - exact Scenario_rollingHash.
  - exact Scenario_factors.
  - repeat constructor; (eexists; split; reflexivity).
  - cbn [Scenario.notes Scenario.factorsRest List.length Nat.sub]. lia.
Defined.

(** X12.  For any number of notes, [constructProof] reads, after the
    blinding scalars, exactly one block of the tape for every note beyond
    the second, in order: the kBar slot of record i >= 2 is that block's
    first 32 bytes read as a number and reduced modulo n.  With at most two
    notes nothing more is read. *)
Theorem privateRange_filler_blocks notes sender t proof t' :
  privateRange.constructProof notes sender t = Returns proof t' ->
  exists hash fs hash' t6,
    appendNotes notes Keccak.new t = Returns hash t /\
    privateRange.constructBlindingFactors notes hash t =
      Returns (fs, hash') t6 /\
    (List.length notes - 2 <= List.length t6)%nat /\
    t' = skipn (List.length notes - 2) t6 /\
    forall i r, (2 <= i)%nat ->
      nth_error (Proof.proofData proof) i = Some r ->
      exists block,
        nth_error t6 (i - 2) = Some block /\
        decode (kBarSlot r) = JS.fromBytes (firstn 32 block) mod bn128.n.
Proof.
  intros H.
  apply TranscriptFacts.privateRange_steps in H
    as (hash & fs & hash' & t6 & c & _ & Hhash & Hfs & _ & Hrec & _).
  pose proof (BlindingFacts.constructBlindingFactors_length _ _ _ _ _ _ Hfs)
    as Hlen.
  apply TranscriptFacts.records_split in Hrec as (rs2 & Hrec & Ers).
  apply TranscriptFacts.records_from_third in Hrec as (Ht & Et & Hall);
    [|apply le_n].
  rewrite length_skipn, Hlen in Ht, Et.
  exists hash, fs, hash', t6.
  split; [exact Hhash|]. split; [exact Hfs|]. split; [exact Ht|].
  split; [exact Et|].
  intros i r Hi Er.
  destruct (Hall (i - 2)%nat r) as (block & Eb & Hk).
  { rewrite <- Ers, nth_error_skipn.
    replace (2 + (i - 2))%nat with i by lia. exact Er. }
  exists block. split; [exact Eb|].
  rewrite Hk. apply decode_hex64. apply Z.mod_pos_bound. reflexivity.
Qed.

Lemma privateRange_filler_blocks_witness :
  privateRange.constructProof Scenario.notes Scenario.sender Scenario.tape =
    Returns Scenario.proof Scenario.rest /\
  exists fs hash' t6,
    privateRange.constructBlindingFactors Scenario.notes Scenario.rollingHash
      Scenario.tape = Returns (fs, hash') t6 /\
    Scenario.rest = skipn 1 t6 /\
    exists r block,
      nth_error (Proof.proofData Scenario.proof) 2 = Some r /\
      nth_error t6 0 = Some block /\
      decode (kBarSlot r) = JS.fromBytes (firstn 32 block) mod bn128.n.
Proof.
  split; [exact Scenario_run|].
  destruct (privateRange_filler_blocks _ _ _ _ _ Scenario_run)
    as (hash & fs & hash' & t6 & Hhash & Hfs & _ & Et & Hall).
  assert (Eh : hash = Scenario.rollingHash).
  { pose proof Scenario_rollingHash as Hh.
    rewrite Hh in Hhash. now inversion Hhash. }
  subst hash.
  exists fs, hash', t6. split; [exact Hfs|]. split; [exact Et|].
  destruct (Hall 2%nat _ (le_n 2) eq_refl) as (block & Eb & Hk).
  eexists. exists block. split; [reflexivity|]. split; [exact Eb | exact Hk].
Defined.

(** ** Where the constructor throws *)

Module ThrowFacts.
Import privateRange.

(** The record of a well-formed note is returned, unless the tape runs
    out. *)
Lemma proofRecord_no_throw notes c i bf note t e :
  nth_error notes i = Some note -> validNote note = true ->
  proofRecord notes c i bf t <> Throws e.
Proof.
  intros En Hv.
  destruct (le_lt_dec i 1) as [Hi|Hi].
  - destruct (Progress.succeeds_low_record notes c i bf note Hi En Hv) as [r Hr].
    rewrite Hr. discriminate.
  - destruct t as [|block rest].
    + unfold proofRecord.
      replace (i <=? 1)%nat with false by (symmetry; apply Nat.leb_gt; lia).
      discriminate.
    + destruct (Progress.filler_record notes c i bf note block rest Hi En Hv)
        as [r Hr].
      rewrite Hr. discriminate.
Qed.

Lemma records_no_throw notes c :
  forallb validNote notes = true ->
  forall fs i t e,
    (i + List.length fs <= List.length notes)%nat ->
    mapWithIndex (proofRecord notes c) i fs t <> Throws e.
Proof.
  intros Hvalid. induction fs as [|f fs IH]; intros i t e Hlen;
    cbn [mapWithIndex]; [discriminate|].
  cbn [List.length] in Hlen.
  destruct (nth_error notes i) as [note|] eqn:En;
    [|apply nth_error_None in En; lia].
  assert (Hv : validNote note = true).
  { rewrite forallb_forall in Hvalid. apply Hvalid.
    eapply nth_error_In; exact En. }
  unfold bind at 1.
  destruct (proofRecord notes c i f t) as [r t1| e1 |] eqn:Er;
    [|destruct (proofRecord_no_throw _ _ _ _ _ _ _ En Hv Er) | discriminate].
  unfold bind.
  destruct (mapWithIndex (proofRecord notes c) (S i) fs t1) as [rs t2| e2 |] eqn:Ers;
    [discriminate | | discriminate].
  destruct (IH (S i) t1 e2 ltac:(lia) Ers).
Qed.

Lemma constructBlindingFactors_no_throw notes hash t e :
  constructBlindingFactors notes hash t <> Throws e.
Proof.
  unfold constructBlindingFactors, bind.
  destruct (mapWithClosure blindingFactor 0 notes (mkClosure [] None 0 hash) t)
    as [[fs c] t'| e1 |] eqn:E; [discriminate | | discriminate].
  destruct (TotalityFacts.factors_no_throw notes 0 (mkClosure [] None 0 hash)
              t e1 eq_refl E).
Qed.

End ThrowFacts.

(** X13.  [constructProof] throws in two places only: where the validation
    of its inputs throws, and, on notes that pass the validation, where the
    computation of the challenge throws on the blinding factors at hand.  On
    such notes neither the seeding of the transcript, nor
    [constructBlindingFactors], nor the formatting of a record throws. *)
Theorem privateRange_throws_in_two_places notes sender t e :
  privateRange.constructProof notes sender t = Throws e <->
  proofUtils.parseInputs notes sender None None t = Throws e \/
  exists hash fs hash' t6,
    forallb validNote notes = true /\
    appendNotes notes Keccak.new t = Returns hash t /\
    privateRange.constructBlindingFactors notes hash t = Returns (fs, hash') t6 /\
    proofUtils.computeChallenge
      [proofUtils.CAddress sender; proofUtils.CNotes notes;
       proofUtils.CFactors fs] t6 = Throws e.
Proof.
  split.
  - unfold privateRange.constructProof. unfold bind at 1.
    destruct (proofUtils.parseInputs notes sender None None t)
      as [u t1| e1 |] eqn:Eparse;
      [|intros H; injection H as ->; left; reflexivity | discriminate].
    pose proof (TranscriptFacts.parseInputs_returns _ _ _ _ _ _ _ Eparse) as Hvalid.
    rewrite (Progress.parseInputs_valid notes sender t Hvalid) in Eparse.
    injection Eparse as _ <-.
    destruct (Progress.succeeds_appendNotes notes Keccak.new Hvalid) as [hash Hhash].
    rewrite (bind_of_returns _ _ _ _ _ (Hhash t)).
    unfold bind at 1.
    destruct (privateRange.constructBlindingFactors notes hash t)
      as [[fs hash'] t6| e1 |] eqn:Efs; [| | discriminate].
    2:{ destruct (ThrowFacts.constructBlindingFactors_no_throw notes hash t e1 Efs). }
    unfold bind at 1.
    destruct (proofUtils.computeChallenge
                [proofUtils.CAddress sender; proofUtils.CNotes notes;
                 proofUtils.CFactors fs] t6) as [c t7| e1 |] eqn:Ec;
      [| intros H; injection H as ->; right;
         exists hash, fs, hash', t6; auto | discriminate].
    unfold bind at 1.
    destruct (mapWithIndex (privateRange.proofRecord notes c) 0 fs t7)
      as [rs t8| e1 |] eqn:Ers; [discriminate | | discriminate].
    exfalso. revert Ers. apply ThrowFacts.records_no_throw; [exact Hvalid|].
    rewrite (BlindingFacts.constructBlindingFactors_length _ _ _ _ _ _ Efs). lia.
  - intros [H | (hash & fs & hash' & t6 & Hvalid & Hhash & Hfs & Hc)].
    + unfold privateRange.constructProof. now apply bind_of_throws.
    + unfold privateRange.constructProof.
      rewrite (bind_of_returns _ _ _ _ _ (Progress.parseInputs_valid _ sender t Hvalid)).
      rewrite (bind_of_returns _ _ _ _ _ Hhash).
      rewrite (bind_of_returns _ _ _ _ _ Hfs).
      now apply bind_of_throws.
Qed.

Lemma privateRange_throws_in_two_places_witness :
  privateRange.constructProof
    [setA Scenario.original 0; Scenario.comparison; Scenario.utility]
    Scenario.sender Scenario.tape =
  Throws (Named VIEWING_KEY_MALFORMED).
Proof.
  apply (proj2 (privateRange_throws_in_two_places _ _ _ _)).
  left. vm_compute. reflexivity.
Defined.

(** Without notes [constructProof] returns an empty transcript and reads
    no entropy; the challenge is the hash of the sender alone. *)
Example privateRange_no_notes sender t :
  privateRange.constructProof [] sender t =
  Returns
    (Proof.make []
       (hex64 (JS.toString16
                 (JS.fromBytes
                    (Keccak256.digest
                       (Keccak.appendBN Keccak.new (decode sender)))
                  mod bn128.n))))
    t.
Proof. reflexivity. Qed.

(** X14.  For any number of notes, the aBar slot of every record is the
    response a_i c + ba_i modulo n, and the kBar slots of the first two
    records are the responses k_i c + bk_i modulo n, where c is the
    challenge of the proof and (bk_i, ba_i) the blinding scalars of note i. *)
Theorem privateRange_responses_any_length notes sender t proof t' :
  privateRange.constructProof notes sender t = Returns proof t' ->
  exists hash fs hash' t6,
    appendNotes notes Keccak.new t = Returns hash t /\
    privateRange.constructBlindingFactors notes hash t =
      Returns (fs, hash') t6 /\
    let c := decode (Proof.challenge proof) in
    forall i r, nth_error (Proof.proofData proof) i = Some r ->
      exists note f,
        nth_error notes i = Some note /\
        nth_error fs i = Some f /\
        decode (aBarSlot r) =
          (Note.a note * c + BlindingFactor.ba f) mod bn128.n /\
        ((i <= 1)%nat ->
         decode (kBarSlot r) =
           (Note.k note * c + BlindingFactor.bk f) mod bn128.n).
Proof.
  intros H.
  apply TranscriptFacts.privateRange_steps in H
    as (hash & fs & hash' & t6 & c & _ & Hhash & Hfs & Hc & Hrec & Ech).
  exists hash, fs, hash', t6.
  split; [exact Hhash|]. split; [exact Hfs|].
  rewrite Ech. cbv zeta.
  pose proof (computeChallenge_scalar _ _ _ _ Hc) as [Hc0 _].
  rewrite (decode_hex64 c Hc0).
  intros i r Er.
  destruct (mapWithIndex_nth _ _ _ _ _ _ Hrec i r Er)
    as (f & u & u' & Ef & Hr).
  cbn [Nat.add] in Hr.
  apply TranscriptFacts.proofRecord_full in Hr
    as (note & kBar & gx & gy & sx & sy & En & _ & _ & -> & Hk).
  exists note, f. split; [exact En|]. split; [exact Ef|].
  cbn [aBarSlot kBarSlot nth].
  unfold proofUtils.aBarResponse. rewrite redResponse.
  rewrite decode_hex64 by (apply Z.mod_pos_bound; reflexivity).
  split; [reflexivity|].
  intros Hi. destruct Hk as [(_ & _ & ->) | (Hhigh & _)]; [|lia].
  unfold proofUtils.kBarResponse. rewrite redResponse.
  apply decode_hex64. apply Z.mod_pos_bound. reflexivity.
Qed.

Lemma privateRange_responses_any_length_witness :
  privateRange.constructProof Scenario.notes Scenario.sender Scenario.tape =
    Returns Scenario.proof Scenario.rest /\
  exists r f,
    nth_error (Proof.proofData Scenario.proof) 1 = Some r /\
    nth_error Scenario.factors 1 = Some f /\
    decode (aBarSlot r) =
      (7654321 * decode (Proof.challenge Scenario.proof) + BlindingFactor.ba f)
      mod bn128.n /\
    decode (kBarSlot r) =
      (4 * decode (Proof.challenge Scenario.proof) + BlindingFactor.bk f)
      mod bn128.n.
Proof.
  split; [exact Scenario_run|].
  destruct (privateRange_responses_any_length _ _ _ _ _ Scenario_run)
    as (hash & fs & hash' & t6 & Hhash & Hfs & Hall).
  assert (Eh : hash = Scenario.rollingHash).
  { pose proof Scenario_rollingHash as Hh.
    rewrite Hh in Hhash. now inversion Hhash. }
  subst hash.
  assert (Efs : fs = Scenario.factors).
  { pose proof Scenario_factors as Hf. rewrite Hf in Hfs.
    apply (f_equal (fun o => match o with
                             | Returns (l, _) _ => l
                             | _ => []
                             end)) in Hfs.
    symmetry. exact Hfs. }
  subst fs.
  destruct (Hall 1%nat _ eq_refl) as (note & f & En & Ef & Ha & Hk).
  injection En as <-.
  eexists. exists f. split; [reflexivity|]. split; [exact Ef|].
  split; [exact Ha | exact (Hk (le_n 1))].
Defined.

(** ** encodePrivateRangeTransaction *)

Section Encoder.

Variable inputCoder :
  list (list string) -> string -> list string -> list string ->
  list Note.t -> M string.
Variable outputCoder : list privateRange.ProofOutput -> M string.

(** X15.  What [encodePrivateRangeTransaction] hands to
    [inputCoder.privateRange]: the transcript and the challenge of the proof
    over original, comparison and utility notes in this order, the owners
    of the original notes followed by those of the comparison notes, the
    owners of the utility notes, and the utility notes; what the coder
    returns is the [proofData] of the transaction. *)
Theorem encodePrivateRangeTransaction_coder_inputs
    originalNote comparisonNote utilityNote senderAddress t tx t' :
  privateRange.encodePrivateRangeTransaction inputCoder outputCoder
    originalNote comparisonNote utilityNote senderAddress t = Returns tx t' ->
  exists proof t1 t2,
    privateRange.constructProof
      (originalNote ++ comparisonNote ++ utilityNote) senderAddress t =
      Returns proof t1 /\
    List.length (Proof.proofData proof) =
      (List.length originalNote + List.length comparisonNote
       + List.length utilityNote)%nat /\
    inputCoder (Proof.proofData proof) (Proof.challenge proof)
      (map Note.owner originalNote ++ map Note.owner comparisonNote)
      (map Note.owner utilityNote) utilityNote t1 =
      Returns (privateRange.proofData tx) t2.
Proof.
  intros H. unfold privateRange.encodePrivateRangeTransaction in H.
  cbv zeta in H.
  unbind H as proof t1 Hproof. unbind H as pd t2 Hpd. unbind H as enc t3 Henc.
  apply ret_returns in H as [<- <-].
  rewrite <- app_assoc in Hproof. rewrite map_app in Hpd.
  exists proof, t1, t2. split; [exact Hproof|]. split; [|exact Hpd].
  apply TranscriptFacts.privateRange_steps in Hproof
    as (hash & fs & hash' & t6 & c & _ & _ & Hfs & _ & Hrec & _).
  rewrite (mapWithIndex_length _ _ _ _ _ _ Hrec).
  rewrite (BlindingFacts.constructBlindingFactors_length _ _ _ _ _ _ Hfs).
  rewrite !length_app. lia.
Qed.

(** X16.  [encodePrivateRangeTransaction] swallows no error: it throws e
    exactly when [constructProof] throws e, or else
    [inputCoder.privateRange] throws e, or else
    [outputCoder.encodeProofOutputs] throws e. *)
Theorem encodePrivateRangeTransaction_throws
    originalNote comparisonNote utilityNote senderAddress t e :
  let notes := (originalNote ++ comparisonNote) ++ utilityNote in
  let inputOwners := map Note.owner (originalNote ++ comparisonNote) in
  let outputOwners := map Note.owner utilityNote in
  privateRange.encodePrivateRangeTransaction inputCoder outputCoder
    originalNote comparisonNote utilityNote senderAddress t = Throws e <->
  privateRange.constructProof notes senderAddress t = Throws e \/
  (exists proof t1,
     privateRange.constructProof notes senderAddress t = Returns proof t1 /\
     inputCoder (Proof.proofData proof) (Proof.challenge proof)
       inputOwners outputOwners utilityNote t1 = Throws e) \/
  (exists proof t1 proofData t2,
     privateRange.constructProof notes senderAddress t = Returns proof t1 /\
     inputCoder (Proof.proofData proof) (Proof.challenge proof)
       inputOwners outputOwners utilityNote t1 = Returns proofData t2 /\
     outputCoder
       [privateRange.mkProofOutput (originalNote ++ comparisonNote)
          utilityNote privateRange.ZERO_ADDRESS 0 (Proof.challenge proof)] t2 =
       Throws e).
Proof.
  cbv zeta. unfold privateRange.encodePrivateRangeTransaction. cbv zeta.
  split.
  - unfold bind.
    destruct (privateRange.constructProof _ senderAddress t)
      as [proof t1| e1 |] eqn:Eproof;
      [|intros H; injection H as ->; left; reflexivity | discriminate].
    destruct (inputCoder _ _ _ _ _ t1) as [pd t2| e2 |] eqn:Epd;
      [|intros H; injection H as ->; right; left; exists proof, t1;
        split; [reflexivity | exact Epd]
       |discriminate].
    destruct (outputCoder _ t2) as [enc t3| e3 |] eqn:Eenc; try discriminate.
    intros H. injection H as ->. right. right. exists proof, t1, pd, t2.
    split; [reflexivity|]. split; [exact Epd | exact Eenc].
  - intros [H | [(proof & t1 & H & H') | (proof & t1 & pd & t2 & H & H' & H'')]].
    + now apply bind_of_throws.
    + rewrite (bind_of_returns _ _ _ _ _ H). now apply bind_of_throws.
    + rewrite (bind_of_returns _ _ _ _ _ H).
      rewrite (bind_of_returns _ _ _ _ _ H'). now apply bind_of_throws.
Qed.

(** X17.  The test of the validator contract assembles by hand what
    [encodePrivateRangeTransaction] returns for one original, one comparison
    and one utility note: the same [proofData], and an expected output of
    which the encoder keeps everything after the first 66 characters, so
    that [expectedOutput.slice(2)] of the encoder is
    [expectedOutput.slice(0x42)] of the test. *)
Theorem encodePrivateRangeTransaction_matches_validator_test
    originalNote comparisonNote utilityNote senderAddress t tx t' :
  privateRange.encodePrivateRangeTransaction inputCoder outputCoder
    [originalNote] [comparisonNote] [utilityNote] senderAddress t =
    Returns tx t' <->
  exists expectedOutput,
    privateRangeValidatorTest.assemble inputCoder outputCoder
      originalNote comparisonNote utilityNote senderAddress t =
      Returns (privateRange.proofData tx, expectedOutput) t' /\
    privateRange.expectedOutput tx = ("0x" ++ JS.slice 66 expectedOutput)%string /\
    JS.slice 2 (privateRange.expectedOutput tx) = JS.slice 66 expectedOutput.
Proof.
  unfold privateRange.encodePrivateRangeTransaction,
    privateRangeValidatorTest.assemble.
  cbv zeta. cbn [app map]. unfold bind.
  destruct (privateRange.constructProof _ senderAddress t)
    as [proof t1| e1 |].
  2, 3: (split; [discriminate | intros (eo & H & _); discriminate]).
  destruct (inputCoder _ _ _ _ _ t1) as [pd t2| e2 |].
  2, 3: (split; [discriminate | intros (eo & H & _); discriminate]).
  destruct (outputCoder _ t2) as [enc t3| e3 |].
  2, 3: (split; [discriminate | intros (eo & H & _); discriminate]).
  unfold ret. split.
  - intros H. injection H as <- <-. exists enc.
    cbn [privateRange.proofData privateRange.expectedOutput].
    split; [reflexivity|]. split; reflexivity.
  - intros (eo & H & Eo & _). injection H as Epd <- <-.
    destruct tx as [pd' eo']. cbn [privateRange.proofData
      privateRange.expectedOutput] in Epd, Eo. subst. reflexivity.
Qed.

End Encoder.

Lemma encodePrivateRangeTransaction_coder_inputs_witness :
  privateRange.encodePrivateRangeTransaction Scenario.listingInputCoder
    Scenario.listingOutputCoder [Scenario.original] [Scenario.comparison]
    [Scenario.utility] Scenario.sender Scenario.tape =
    Returns Scenario.transaction Scenario.rest /\
  exists proof t1 t2,
    List.length (Proof.proofData proof) = 3%nat /\
    Scenario.listingInputCoder (Proof.proofData proof) (Proof.challenge proof)
      [Scenario.alice; Scenario.bob] [Scenario.carol] [Scenario.utility] t1 =
      Returns (privateRange.proofData Scenario.transaction) t2.
Proof.
  split; [exact Scenario_transaction|].
  destruct (encodePrivateRangeTransaction_coder_inputs _ _ _ _ _ _ _ _ _
              Scenario_transaction) as (proof & t1 & t2 & _ & Hlen & Hpd).
  exists proof, t1, t2. split; [exact Hlen | exact Hpd].
Defined.

Lemma encodePrivateRangeTransaction_matches_validator_test_witness :
  exists expectedOutput,
    privateRangeValidatorTest.assemble Scenario.listingInputCoder
      Scenario.listingOutputCoder Scenario.original Scenario.comparison
      Scenario.utility Scenario.sender Scenario.tape =
      Returns (privateRange.proofData Scenario.transaction, expectedOutput)
        Scenario.rest /\
    JS.slice 2 (privateRange.expectedOutput Scenario.transaction) =
      JS.slice 66 expectedOutput.
Proof.
  destruct (proj1 (encodePrivateRangeTransaction_matches_validator_test
                     _ _ _ _ _ _ _ _ _) Scenario_transaction)
    as (eo & H & _ & Hslice).
  exists eo. split; [exact H | exact Hslice].
Defined.

(** ** The helpers of the join-split test *)

Module TestFacts.
Import joinSplitTest.

Lemma byte_value (b : byte) : 0 <= Z.of_N (Byte.to_N b) < 256.
Proof. pose proof (Byte.to_N_bounded b). lia. Qed.

Lemma fromBytes_acc (bs : list byte) :
  forall acc,
    fold_left (fun acc b => acc * 256 + Z.of_N (Byte.to_N b)) bs acc =
    acc * 256 ^ Z.of_nat (List.length bs) + JS.fromBytes bs.
Proof.
  unfold JS.fromBytes.
  induction bs as [|b bs IH]; intros acc.
  - cbn [fold_left List.length]. change (256 ^ Z.of_nat 0) with 1. lia.
  - cbn [fold_left]. rewrite IH. rewrite (IH (0 * 256 + _)).
    change (List.length (b :: bs)) with (S (List.length bs)).
    rewrite Nat2Z.inj_succ, Z.pow_succ_r by lia. ring.
Qed.

Lemma fromBytes_range (bs : list byte) :
  0 <= JS.fromBytes bs < 256 ^ Z.of_nat (List.length bs).
Proof.
  induction bs as [|b bs IH].
  - cbv. split; [discriminate | reflexivity].
  - unfold JS.fromBytes. cbn [fold_left]. rewrite fromBytes_acc.
    change (List.length (b :: bs)) with (S (List.length bs)).
    rewrite Nat2Z.inj_succ, Z.pow_succ_r by lia.
    pose proof (byte_value b).
    assert (0 < 256 ^ Z.of_nat (List.length bs)) by (apply Z.pow_pos_nonneg; lia).
    nia.
Qed.

Lemma toStringHex_length (bs : list byte) :
  String.length (toStringHex bs) = (2 * List.length bs)%nat.
Proof.
  induction bs as [|b bs IH]; [reflexivity|].
  cbn [toStringHex String.length List.length]. rewrite IH. lia.
Qed.

Lemma toStringHex_isHex (bs : list byte) :
  JS.isHexString (toStringHex bs) = true.
Proof.
  induction bs as [|b bs IH]; [reflexivity|].
  cbn [toStringHex JS.isHexString].
  rewrite !HexFacts.hexChar_lower, IH. reflexivity.
Qed.

Lemma toStringHex_value (bs : list byte) :
  forall acc,
    JS.parseHex (toStringHex bs) acc =
    fold_left (fun acc b => acc * 256 + Z.of_N (Byte.to_N b)) bs acc.
Proof.
  induction bs as [|b bs IH]; intros acc; [reflexivity|].
  cbn [toStringHex JS.parseHex fold_left]. rewrite IH. f_equal.
  pose proof (byte_value b) as Hb.
  rewrite !HexFacts.hexChar_value.
  - pose proof (Z.div_mod (Z.of_N (Byte.to_N b)) 16). lia.
  - apply Z.mod_pos_bound. lia.
  - split; [apply Z.div_pos; lia | apply Z.div_lt_upper_bound; lia].
Qed.

End TestFacts.

(** X18.  [validateGroupScalar] applied to the slot that holds a number v
    accepts exactly when v is below n, and positive unless [canBeZero] is
    set. *)
Theorem validateGroupScalar_decides (v : Z) (canBeZero : bool) :
  0 <= v ->
  joinSplitTest.validateGroupScalar (hex64 (JS.toString16 v)) canBeZero = true <->
  v < bn128.n /\ (canBeZero = false -> 0 < v).
Proof.
  intros Hv. unfold joinSplitTest.validateGroupScalar.
  change (JS.fromString16 (JS.slice 2 (hex64 (JS.toString16 v))))
    with (decode (hex64 (JS.toString16 v))).
  rewrite (decode_hex64 v Hv). rewrite andb_true_iff, orb_true_iff.
  rewrite !Z.ltb_lt. split.
  - intros [Hn [-> | Hpos]]; split; try assumption; [discriminate | auto].
  - intros [Hn Hpos]. split; [exact Hn|].
    destruct canBeZero; [left; reflexivity | right; now apply Hpos].
Qed.

Lemma validateGroupScalar_decides_witness :
  joinSplitTest.validateGroupScalar (hex64 (JS.toString16 0)) true = true /\
  joinSplitTest.validateGroupScalar (hex64 (JS.toString16 0)) false <> true /\
  joinSplitTest.validateGroupScalar (hex64 (JS.toString16 bn128.n)) true <> true.
Proof.
  split; [|split].
  - apply (validateGroupScalar_decides 0 true); [lia|].
    split; [reflexivity | discriminate].
  - intros H. apply (validateGroupScalar_decides 0 false) in H; [|lia].
    destruct H as [_ H]. specialize (H eq_refl). lia.
  - intros H. apply (validateGroupScalar_decides bn128.n true) in H;
      [|unfold bn128.n; lia].
    destruct H as [H _]. lia.
Defined.

(** X19.  [validateGroupElement] applied to the slots that hold x and y
    accepts exactly the points (x, y) of the curve, as [validateOnCurve]
    decides them, whose coordinates are both positive. *)
Theorem validateGroupElement_decides (x y : Z) :
  0 <= x -> 0 <= y ->
  joinSplitTest.validateGroupElement
    (hex64 (JS.toString16 x)) (hex64 (JS.toString16 y)) =
  (0 <? x) && (0 <? y) && bn128.validateOnCurve (bn128.Affine x y).
Proof.
  intros Hx Hy. unfold joinSplitTest.validateGroupElement.
  change (JS.fromString16 (JS.slice 2 (hex64 (JS.toString16 x))))
    with (decode (hex64 (JS.toString16 x))).
  change (JS.fromString16 (JS.slice 2 (hex64 (JS.toString16 y))))
    with (decode (hex64 (JS.toString16 y))).
  rewrite (decode_hex64 x Hx), (decode_hex64 y Hy). cbv zeta.
  cbn [bn128.validateOnCurve].
  rewrite (Z.eqb_sym ((y * y) mod bn128.p)).
  destruct (0 <? x) eqn:Ex; [|reflexivity].
  destruct (0 <? y) eqn:Ey; [|reflexivity].
  apply Z.ltb_lt in Ex. apply Z.ltb_lt in Ey.
  replace (0 <=? x) with true by (symmetry; apply Z.leb_le; lia).
  replace (0 <=? y) with true by (symmetry; apply Z.leb_le; lia).
  replace (x =? 0) with false by (symmetry; apply Z.eqb_neq; lia).
  cbn [andb negb].
  destruct (x <? bn128.p); [|reflexivity].
  destruct (y <? bn128.p); reflexivity.
Qed.

Lemma validateGroupElement_decides_witness :
  joinSplitTest.validateGroupElement
    (hex64 (JS.toString16 1)) (hex64 (JS.toString16 2)) = true /\
  joinSplitTest.validateGroupElement
    (hex64 (JS.toString16 1)) (hex64 (JS.toString16 3)) = false.
Proof.
  split.
  - rewrite (validateGroupElement_decides 1 2) by lia. reflexivity.
  - rewrite (validateGroupElement_decides 1 3) by lia. reflexivity.
Defined.

(** ** The arithmetic of JavaScript numbers on integers *)

Module NumberFacts.
Import JSNumber.

Lemma digits_size (p : positive) : digits2_pos p = Pos.size p.
Proof. induction p; cbn; congruence. Qed.

Lemma iter_xO_value (m d : positive) :
  Zpos (Pos.iter xO m d) = Zpos m * 2 ^ Zpos d.
Proof.
  induction d as [|d IH] using Pos.peano_ind.
  - cbn. lia.
  - rewrite Pos.iter_succ, Pos2Z.inj_xO, IH, Pos2Z.inj_succ, Z.pow_succ_r by lia. lia.
Qed.

Lemma iter_xO_size (m d : positive) :
  Pos.size (Pos.iter xO m d) = (Pos.size m + d)%positive.
Proof.
  induction d as [|d IH] using Pos.peano_ind.
  - cbn. lia.
  - rewrite Pos.iter_succ. cbn [Pos.size]. rewrite IH. lia.
Qed.

Lemma iter_pos_iter {A : Type} (f : A -> A) (n : positive) :
  forall x, iter_pos f n x = Pos.iter f x n.
Proof.
  induction n as [n IH|n IH|]; intros x; cbn [iter_pos Pos.iter].
  - rewrite !IH. rewrite <- Pos.iter_swap. rewrite <- Pos.iter_swap. reflexivity.
  - rewrite !IH. reflexivity.
  - reflexivity.
Qed.

Lemma shr_exact (q W : positive) :
  iter_pos shr_1 q (Build_shr_record (Zpos (Pos.iter xO W q)) false false) =
  Build_shr_record (Zpos W) false false.
Proof.
  rewrite iter_pos_iter.
  induction q as [|q IH] using Pos.peano_ind.
  - reflexivity.
  - rewrite Pos.iter_succ. rewrite Pos.iter_succ, <- Pos.iter_swap.
    cbn [shr_1 orb]. exact IH.
Qed.


Lemma size_bound (V : positive) : Zpos V < 2 ^ 53 -> Zpos (Pos.size V) <= 53.
Proof.
  intros H. pose proof (Pos.size_le V) as L.
  apply Pos2Z.pos_le_pos in L. rewrite Pos2Z.inj_pow, (Pos2Z.inj_xO V) in L.
  destruct (Z_le_gt_dec (Zpos (Pos.size V)) 53) as [|G]; [assumption|exfalso].
  assert (P : 2 ^ 54 <= 2 ^ Zpos (Pos.size V)) by (apply Z.pow_le_mono_r; lia).
  change (2 ^ 54) with (2 * 2 ^ 53) in P. lia.
Qed.

Lemma mantissa_size (V : positive) :
  Zpos V < 2 ^ 53 -> Pos.size (mantissa V) = 53%positive.
Proof.
  intros H. apply size_bound in H. unfold mantissa.
  destruct (53 - Zpos (Pos.size V)) as [|j|j] eqn:E.
  - lia.
  - rewrite iter_xO_size. lia.
  - lia.
Qed.

Lemma mantissa_value (V : positive) :
  Zpos V < 2 ^ 53 -> Zpos (mantissa V) = Zpos V * 2 ^ (- exponent V).
Proof.
  intros H. apply size_bound in H. unfold mantissa, exponent.
  destruct (53 - Zpos (Pos.size V)) as [|j|j] eqn:E.
  - replace (- (Zpos (Pos.size V) - 53)) with 0 by lia. lia.
  - rewrite iter_xO_value. f_equal. f_equal. lia.
  - lia.
Qed.

Lemma round_aux_canon (s : bool) (W : positive) (c : Z) :
  Pos.size W = 53%positive -> -1074 <= c <= 971 ->
  binary_round_aux prec emax s (Zpos W) c loc_Exact = S754_finite s W c.
Proof.
  intros HW Hc.
  assert (E : fexp prec emax (Zdigits2 (Zpos W) + c) - c = 0).
  { unfold fexp, emin, Zdigits2, prec, emax. rewrite digits_size, HW. lia. }
  unfold binary_round_aux, shr_fexp. rewrite E.
  cbn [shr shr_record_of_loc shr_m loc_of_shr_record round_nearest_even].
  rewrite E. cbn [shr shr_record_of_loc shr_m].
  destruct (c <=? emax - prec) eqn:L; [reflexivity|].
  apply Z.leb_gt in L. unfold emax, prec in L. lia.
Qed.


Lemma iter_xO_inj (M V k : positive) :
  Zpos M = Zpos V * 2 ^ Zpos k -> M = Pos.iter xO V k.
Proof. intros H. rewrite <- iter_xO_value in H. now injection H. Qed.

Lemma shl_align_spec (mx : positive) (ex ex' : Z) :
  snd (shl_align mx ex ex') = Z.min ex ex' /\
  Zpos (fst (shl_align mx ex ex')) = Zpos mx * 2 ^ (ex - Z.min ex ex').
Proof.
  unfold shl_align. destruct (ex' - ex) as [|j|j] eqn:E; cbn [fst snd].
  - replace (Z.min ex ex') with ex by lia. rewrite Z.sub_diag. lia.
  - replace (Z.min ex ex') with ex by lia. rewrite Z.sub_diag. lia.
  - replace (Z.min ex ex') with ex' by lia. rewrite iter_xO_value.
    split; [reflexivity|]. f_equal. f_equal. lia.
Qed.

Lemma round_aux_exact (s : bool) (M : positive) (e : Z) (W : positive) (c : Z) :
  Pos.size W = 53%positive -> -1074 <= c <= 971 -> e <= c ->
  Zpos M = Zpos W * 2 ^ (c - e) ->
  binary_round_aux prec emax s (Zpos M) e loc_Exact = S754_finite s W c.
Proof.
  intros HW Hc He HM.
  destruct (c - e) as [|q|q] eqn:E; [| |lia].
  - assert (M = W) by (injection HM; lia). subst M.
    replace e with c by lia. now apply round_aux_canon.
  - apply iter_xO_inj in HM. subst M.
    assert (E1 : fexp prec emax (Zdigits2 (Zpos (Pos.iter xO W q)) + e) - e = Zpos q).
    { unfold fexp, emin, Zdigits2, prec, emax.
      rewrite digits_size, iter_xO_size, HW. lia. }
    assert (E2 : fexp prec emax (Zdigits2 (Zpos W) + (e + Zpos q)) - (e + Zpos q) = 0).
    { unfold fexp, emin, Zdigits2, prec, emax. rewrite digits_size, HW. lia. }
    unfold binary_round_aux, shr_fexp. rewrite E1.
    cbn [shr shr_record_of_loc]. rewrite shr_exact.
    cbn [shr_m loc_of_shr_record round_nearest_even].
    rewrite E2. cbn [shr shr_record_of_loc shr_m].
    replace (e + Zpos q) with c by lia.
    destruct (c <=? emax - prec) eqn:L; [reflexivity|].
    apply Z.leb_gt in L. unfold emax, prec in L. lia.
Qed.

Lemma size_scaled (M V : positive) (k : Z) :
  0 <= k -> Zpos M = Zpos V * 2 ^ k ->
  Zpos (Pos.size M) = Zpos (Pos.size V) + k.
Proof.
  intros Hk H. destruct k as [|k|k]; [| |lia].
  - assert (M = V) by (injection H; lia). subst. lia.
  - apply iter_xO_inj in H. subst M. rewrite iter_xO_size. lia.
Qed.

Lemma exponent_range (V : positive) :
  Zpos V < 2 ^ 53 -> -52 <= exponent V <= 0.
Proof. intros H. apply size_bound in H. unfold exponent. lia. Qed.

(** Rounding an integer below 2^53, given with any number of trailing
    zeros, is exact. *)
Lemma binary_round_integer (s : bool) (M V : positive) (e : Z) :
  e <= 0 -> Zpos M = Zpos V * 2 ^ (- e) -> Zpos V < 2 ^ 53 ->
  binary_round prec emax s M e = S754_finite s (mantissa V) (exponent V).
Proof.
  intros He HM HV.
  pose proof (exponent_range V HV) as Hc.
  pose proof (mantissa_value V HV) as HW.
  pose proof (size_scaled M V (- e) ltac:(lia) HM) as Hd.
  assert (Ef : fexp prec emax (Zpos (digits2_pos M) + e) = exponent V).
  { unfold fexp, emin, exponent, prec, emax in *. rewrite digits_size, Hd. lia. }
  unfold binary_round. rewrite Ef.
  destruct (shl_align_spec M e (exponent V)) as [Es Ev].
  destruct (shl_align M e (exponent V)) as [mz ez]. cbn [fst snd] in Es, Ev.
  subst ez. apply round_aux_exact.
  - now apply mantissa_size.
  - lia.
  - lia.
  - rewrite Ev, HM, HW, <- !Z.mul_assoc, <- !Z.pow_add_r by lia.
    f_equal. f_equal. lia.
Qed.

Lemma ofZ_pos (V : positive) :
  Zpos V < 2 ^ 53 ->
  ofZ (Zpos V) = S754_finite false (mantissa V) (exponent V).
Proof.
  intros H. unfold ofZ, binary_normalize.
  apply binary_round_integer; [lia | cbn; lia | exact H].
Qed.

Lemma ofZ_neg (V : positive) :
  Zpos V < 2 ^ 53 ->
  ofZ (Zneg V) = S754_finite true (mantissa V) (exponent V).
Proof.
  intros H. unfold ofZ, binary_normalize.
  apply binary_round_integer; [lia | cbn; lia | exact H].
Qed.

(** An integer below 2^53 in absolute value, however it is scaled, is
    normalized to the number of that integer. *)
Lemma normalize_integer (S e v : Z) :
  e <= 0 -> S = v * 2 ^ (- e) -> Z.abs v < 2 ^ 53 ->
  binary_normalize prec emax S e false = ofZ v.
Proof.
  intros He HS Hv.
  assert (P : 0 < 2 ^ (- e)) by (apply Z.pow_pos_nonneg; lia).
  destruct v as [|V|V].
  - subst S. reflexivity.
  - rewrite ofZ_pos by exact Hv.
    destruct S as [|M|M]; [lia | | lia].
    unfold binary_normalize. now apply binary_round_integer.
  - rewrite ofZ_neg by exact Hv.
    destruct S as [|M|M]; [lia | lia |].
    unfold binary_normalize. apply binary_round_integer; [exact He | | exact Hv].
    change (Zneg M) with (- Zpos M) in HS. change (Zneg V) with (- Zpos V) in HS.
    lia.
Qed.


Lemma aligned_value (V : positive) (ez : Z) :
  Zpos V < 2 ^ 53 -> ez <= exponent V ->
  Zpos (fst (shl_align (mantissa V) (exponent V) ez)) = Zpos V * 2 ^ (- ez).
Proof.
  intros HV He. pose proof (exponent_range V HV) as Hc.
  destruct (shl_align_spec (mantissa V) (exponent V) ez) as [_ Ev].
  rewrite Ev, (mantissa_value V HV), <- Z.mul_assoc, <- Z.pow_add_r by lia.
  f_equal. f_equal. lia.
Qed.

Lemma add_finite (sx sy : bool) (Vx Vy : positive) :
  Zpos Vx < 2 ^ 53 -> Zpos Vy < 2 ^ 53 ->
  Z.abs (cond_Zopp sx (Zpos Vx) + cond_Zopp sy (Zpos Vy)) < 2 ^ 53 ->
  add (S754_finite sx (mantissa Vx) (exponent Vx))
      (S754_finite sy (mantissa Vy) (exponent Vy)) =
  ofZ (cond_Zopp sx (Zpos Vx) + cond_Zopp sy (Zpos Vy)).
Proof.
  intros Hx Hy Hs.
  pose proof (exponent_range Vx Hx). pose proof (exponent_range Vy Hy).
  unfold add, SFadd. apply normalize_integer; [lia | | exact Hs].
  rewrite !aligned_value by (assumption || lia).
  destruct sx, sy; cbn [cond_Zopp]; ring.
Qed.

Lemma sub_finite (sx sy : bool) (Vx Vy : positive) :
  Zpos Vx < 2 ^ 53 -> Zpos Vy < 2 ^ 53 ->
  Z.abs (cond_Zopp sx (Zpos Vx) - cond_Zopp sy (Zpos Vy)) < 2 ^ 53 ->
  sub (S754_finite sx (mantissa Vx) (exponent Vx))
      (S754_finite sy (mantissa Vy) (exponent Vy)) =
  ofZ (cond_Zopp sx (Zpos Vx) - cond_Zopp sy (Zpos Vy)).
Proof.
  intros Hx Hy Hs.
  pose proof (exponent_range Vx Hx). pose proof (exponent_range Vy Hy).
  unfold sub, SFsub. apply normalize_integer; [lia | | exact Hs].
  rewrite !aligned_value by (assumption || lia).
  destruct sx, sy; cbn [cond_Zopp]; ring.
Qed.

(** Addition of two integers is exact as long as the operands and the sum
    stay below 2^53 in absolute value. *)
Lemma add_exact (x y : Z) :
  Z.abs x < 2 ^ 53 -> Z.abs y < 2 ^ 53 -> Z.abs (x + y) < 2 ^ 53 ->
  add (ofZ x) (ofZ y) = ofZ (x + y).
Proof.
  intros Hx Hy Hs.
  destruct x as [|Vx|Vx].
  - destruct y as [|Vy|Vy]; [reflexivity| |].
    + rewrite Z.add_0_l, ofZ_pos by exact Hy. reflexivity.
    + rewrite Z.add_0_l, ofZ_neg by exact Hy. reflexivity.
  - destruct y as [|Vy|Vy].
    + rewrite Z.add_0_r, ofZ_pos by exact Hx. reflexivity.
    + rewrite (ofZ_pos Vx), (ofZ_pos Vy) by assumption.
      exact (add_finite false false Vx Vy Hx Hy Hs).
    + rewrite (ofZ_pos Vx), (ofZ_neg Vy) by assumption.
      exact (add_finite false true Vx Vy Hx Hy Hs).
  - destruct y as [|Vy|Vy].
    + rewrite Z.add_0_r, ofZ_neg by exact Hx. reflexivity.
    + rewrite (ofZ_neg Vx), (ofZ_pos Vy) by assumption.
      exact (add_finite true false Vx Vy Hx Hy Hs).
    + rewrite (ofZ_neg Vx), (ofZ_neg Vy) by assumption.
      exact (add_finite true true Vx Vy Hx Hy Hs).
Qed.

(** And so is subtraction. *)
Lemma sub_exact (x y : Z) :
  Z.abs x < 2 ^ 53 -> Z.abs y < 2 ^ 53 -> Z.abs (x - y) < 2 ^ 53 ->
  sub (ofZ x) (ofZ y) = ofZ (x - y).
Proof.
  intros Hx Hy Hs.
  destruct x as [|Vx|Vx].
  - destruct y as [|Vy|Vy]; [reflexivity| |].
    + rewrite Z.sub_0_l, ofZ_pos by exact Hy.
      change (- Zpos Vy) with (Zneg Vy). rewrite ofZ_neg by exact Hy. reflexivity.
    + rewrite Z.sub_0_l, ofZ_neg by exact Hy.
      change (- Zneg Vy) with (Zpos Vy). rewrite ofZ_pos by exact Hy. reflexivity.
  - destruct y as [|Vy|Vy].
    + rewrite Z.sub_0_r, ofZ_pos by exact Hx. reflexivity.
    + rewrite (ofZ_pos Vx), (ofZ_pos Vy) by assumption.
      exact (sub_finite false false Vx Vy Hx Hy Hs).
    + rewrite (ofZ_pos Vx), (ofZ_neg Vy) by assumption.
      exact (sub_finite false true Vx Vy Hx Hy Hs).
  - destruct y as [|Vy|Vy].
    + rewrite Z.sub_0_r, ofZ_neg by exact Hx. reflexivity.
    + rewrite (ofZ_neg Vx), (ofZ_pos Vy) by assumption.
      exact (sub_finite true false Vx Vy Hx Hy Hs).
    + rewrite (ofZ_neg Vx), (ofZ_neg Vy) by assumption.
      exact (sub_finite true true Vx Vy Hx Hy Hs).
Qed.

(** [new BN] of the number of an integer below 2^53 is that integer. *)
Lemma newBN_ofZ (v : Z) : Z.abs v < 2 ^ 53 -> newBN (ofZ v) = Some v.
Proof.
  intros Hv.
  assert (R : forall V, Zpos V < 2 ^ 53 ->
            Z.shiftl (Zpos (mantissa V)) (exponent V) = Zpos V).
  { intros V HV. pose proof (exponent_range V HV) as Hc.
    rewrite (mantissa_value V HV).
    rewrite <- (Z.opp_involutive (exponent V)) at 2.
    rewrite Z.shiftl_opp_r, Z.shiftr_div_pow2 by lia.
    apply Z.div_mul. apply Z.pow_nonzero; lia. }
  destruct v as [|V|V].
  - reflexivity.
  - rewrite ofZ_pos by exact Hv. unfold newBN. cbv zeta. rewrite (R V Hv).
    destruct (Zpos V <? 2 ^ 53) eqn:L; [reflexivity|].
    apply Z.ltb_ge in L. lia.
  - rewrite ofZ_neg by exact Hv. unfold newBN. cbv zeta. rewrite (R V Hv).
    destruct (Zpos V <? 2 ^ 53) eqn:L; [reflexivity|].
    apply Z.ltb_ge in L. cbn in Hv. lia.
Qed.


Lemma mass_nonneg (l : list Z) : 0 <= mass l.
Proof. induction l as [|v l IH]; cbn [mass fold_right]; [|fold (mass l)]; lia. Qed.

Lemma total_mass (l : list Z) : Z.abs (fold_right Z.add 0 l) <= mass l.
Proof.
  induction l as [|v l IH]; cbn [mass fold_right]; [|fold (mass l)]; lia.
Qed.

(** The reduction [l.reduce((acc, v) => acc + v, acc)] is exact as long as
    the absolute values at hand add up to less than 2^53. *)
Lemma fold_add (l : list Z) :
  forall acc, Z.abs acc + mass l < 2 ^ 53 ->
    fold_left (fun acc v => add acc v) (map ofZ l) (ofZ acc) =
    ofZ (acc + fold_right Z.add 0 l).
Proof.
  induction l as [|v l IH]; intros acc H; cbn [map fold_left fold_right].
  - now rewrite Z.add_0_r.
  - cbn [mass fold_right] in H. fold (mass l) in H.
    pose proof (mass_nonneg l).
    rewrite add_exact by lia. rewrite IH by lia. f_equal. lia.
Qed.

Lemma fold_sub (l : list Z) :
  forall acc, Z.abs acc + mass l < 2 ^ 53 ->
    fold_left (fun acc v => sub acc v) (map ofZ l) (ofZ acc) =
    ofZ (acc - fold_right Z.add 0 l).
Proof.
  induction l as [|v l IH]; intros acc H; cbn [map fold_left fold_right].
  - now rewrite Z.sub_0_r.
  - cbn [mass fold_right] in H. fold (mass l) in H.
    pose proof (mass_nonneg l).
    rewrite sub_exact by lia. rewrite IH by lia. f_equal. lia.
Qed.

End NumberFacts.


Lemma mass_nonneg_in_out (kIn kOut : list Z) :
  0 <= mass kIn /\ 0 <= mass kOut /\
  Z.abs (fold_right Z.add 0 kIn) <= mass kIn /\
  Z.abs (fold_right Z.add 0 kOut) <= mass kOut.
Proof.
  conjuncts; (apply NumberFacts.mass_nonneg || apply NumberFacts.total_mass).
Qed.

(** X20.  On integer values whose absolute values add up to less than 2^53
    the arithmetic of [getKPublic] is exact: it returns the sum of the input
    values minus the sum of the output values, [new BN] accepts that number,
    and the public value that the test derives from it is a group scalar
    congruent to it: the difference itself when the inputs cover the
    outputs, n minus the deficit otherwise. *)
Theorem getKPublic_balance (kIn kOut : list Z) :
  mass kIn + mass kOut < 2 ^ 53 ->
  let k := fold_right Z.add 0 kIn - fold_right Z.add 0 kOut in
  joinSplitTest.getKPublic (map JSNumber.ofZ kIn) (map JSNumber.ofZ kOut) =
    JSNumber.ofZ k /\
  exists kPublic,
    joinSplitTest.kPublic (map JSNumber.ofZ kIn) (map JSNumber.ofZ kOut) =
      Some kPublic /\
    isGroupScalar kPublic /\
    (kPublic - k) mod bn128.n = 0 /\
    (0 <= k -> kPublic = k) /\
    (k < 0 -> kPublic = bn128.n + k).
Proof.
  intros H. cbv zeta.
  pose proof (mass_nonneg_in_out kIn kOut) as (Min & Mout & Tin & Tout).
  set (k := fold_right Z.add 0 kIn - fold_right Z.add 0 kOut).
  assert (Hk : Z.abs k < 2 ^ 53) by (unfold k; lia).
  assert (Ek : joinSplitTest.getKPublic (map JSNumber.ofZ kIn)
                 (map JSNumber.ofZ kOut) = JSNumber.ofZ k).
  { unfold joinSplitTest.getKPublic.
    rewrite NumberFacts.fold_add by (cbn [Z.abs]; lia).
    rewrite Z.add_0_l. apply NumberFacts.fold_sub. lia. }
  split; [exact Ek|].
  unfold joinSplitTest.kPublic. rewrite Ek, (NumberFacts.newBN_ofZ k Hk).
  assert (Hn : 2 ^ 53 < bn128.n) by reflexivity.
  eexists. split; [reflexivity|]. split; [apply mod_n_scalar|].
  split; [|split].
  - rewrite Zminus_mod_idemp_l.
    replace (bn128.n + k - k) with (1 * bn128.n) by ring.
    apply Z_mod_mult.
  - intros Hpos. replace (bn128.n + k) with (k + 1 * bn128.n) by ring.
    rewrite Z_mod_plus_full. apply Z.mod_small. lia.
  - intros Hneg. apply Z.mod_small. lia.
Qed.

Lemma getKPublic_balance_witness :
  joinSplitTest.getKPublic (map JSNumber.ofZ [10; 20])
    (map JSNumber.ofZ [5; 15; 30]) = JSNumber.ofZ (-20) /\
  exists kPublic,
    joinSplitTest.kPublic (map JSNumber.ofZ [10; 20])
      (map JSNumber.ofZ [5; 15; 30]) = Some kPublic /\
    kPublic = bn128.n + -20.
Proof.
  destruct (getKPublic_balance [10; 20] [5; 15; 30])
    as (Ek & kP & EkP & _ & _ & _ & Hneg).
  - cbn. lia.
  - split; [exact Ek|]. exists kP. split; [exact EkP|].
    apply Hneg. cbn. lia.
Defined.

(** Beyond 2^53 the test helper is no longer exact, and [new BN] gives up:
    2^53 + 1 is rounded to 2^53, which [new BN] refuses, as it refuses the
    exact sum of 2^53 - 1 and 1. *)
Example getKPublic_rounds :
  joinSplitTest.getKPublic (map JSNumber.ofZ [2 ^ 53; 1]) [] =
    JSNumber.ofZ (2 ^ 53) /\
  joinSplitTest.kPublic (map JSNumber.ofZ [2 ^ 53; 1]) [] = None /\
  joinSplitTest.kPublic (map JSNumber.ofZ [2 ^ 53 - 1; 1]) [] = None /\
  joinSplitTest.kPublic (map JSNumber.ofZ [2 ^ 53 - 1]) [] = Some (2 ^ 53 - 1).
Proof. conjuncts; vm_compute; reflexivity. Qed.

(** X21.  [randomAddress] returns, whenever entropy is left, 0x followed by
    64 hexadecimal digits that read as the number held by the 20 random
    bytes: a number below 2^160, padded on the left to 32 bytes. *)
Theorem randomAddress_shape (block : list byte) (rest : Entropy) :
  exists s,
    joinSplitTest.randomAddress (block :: rest) = Returns s rest /\
    String.length s = 66%nat /\
    decode s = JS.fromBytes (firstn 20 block) /\
    0 <= decode s < 2 ^ 160.
Proof.
  unfold joinSplitTest.randomAddress, bind, randomBytes, ret.
  pose proof (length_firstn 20 block) as Hfirst.
  remember (firstn 20 block) as bytes eqn:Ebytes.
  eexists. split; [reflexivity|].
  pose proof (TestFacts.toStringHex_isHex bytes) as Hhex.
  pose proof (TestFacts.toStringHex_length bytes) as Hlen.
  assert (Hvalue : decode (hex64 (joinSplitTest.toStringHex bytes))
                   = JS.fromBytes bytes).
  { unfold decode, hex64. cbn [String.append JS.slice].
    rewrite HexFacts.padLeft_value by exact Hhex.
    unfold JS.fromString16. rewrite TestFacts.toStringHex_value. reflexivity. }
  split; [|split; [exact Hvalue|]].
  - unfold hex64. cbn [String.append String.length].
    rewrite HexFacts.padLeft_length; [reflexivity | exact Hhex | lia].
  - rewrite Hvalue.
    pose proof (TestFacts.fromBytes_range bytes) as [H0 H1].
    split; [exact H0|]. eapply Z.lt_le_trans; [exact H1|].
    change (2 ^ 160) with (256 ^ Z.of_nat 20).
    apply Z.pow_le_mono_r; lia.
Qed.

(** X22.  [generateNoteValue] returns, whenever entropy is left, a value in
    [0, K_MAX): never K_MAX itself, and always a value that [parseNote]
    accepts in an otherwise well-formed note. *)
Theorem generateNoteValue_range (block : list byte) (rest : Entropy) :
  exists v,
    joinSplitTest.generateNoteValue (block :: rest) = Returns v rest /\
    0 <= v < proofUtils.K_MAX /\
    forall note u,
      validNote note = true ->
      proofUtils.parseNote (setK note v) u = Returns tt u.
Proof.
  unfold joinSplitTest.generateNoteValue, bind, randomBytes, ret.
  assert (Hv : 0 <= JS.fromBytes (firstn 32 block) mod proofUtils.K_MAX
               < proofUtils.K_MAX)
    by (apply Z.mod_pos_bound; reflexivity).
  remember (JS.fromBytes (firstn 32 block) mod proofUtils.K_MAX) as v0 eqn:Ev0.
  exists v0. split; [reflexivity|]. split; [exact Hv|].
  intros note u Hnote. apply ParseFacts.parseNote_valid.
  apply ParseFacts.validNote_fields in Hnote as (Ha & _ & Hg & Hs).
  unfold validNote, setK. cbn [Note.a Note.k Note.gamma Note.sigma].
  apply andb_true_iff in Ha as [-> ->]. rewrite Hg, Hs.
  replace (0 <=? v0) with true by (symmetry; apply Z.leb_le; lia).
  replace (v0 <=? proofUtils.K_MAX) with true by (symmetry; apply Z.leb_le; lia).
  reflexivity.
Qed.
